(** * The incremental crawl-and-merge pipeline of lider-scraper

    A shallow embedding of [scraper-jumbo.py] and [scraper-unimarc.py]:
    the persistent JSON store, the identity key of a product record, the
    page loop of the two category crawlers, the operator's skip and quit
    flags, and the batch in [main].

    Python objects are JSON values; numbers are restricted to integers
    (the floats a page may return for [rating] or [unit_price] are not
    represented); a [str] is the sequence of bytes of its UTF-8
    encoding.  The browser, the operator's keyboard and the disk are
    an oracle ([world]) that the code consults at its blocking calls. *)

From Stdlib Require Import List String Ascii ZArith Bool Arith Lia.
From Stdlib Require Import DecimalString.
From Stdlib Require DecimalNat.
Import ListNotations.
Open Scope string_scope.
Open Scope list_scope.

#[local] Set Warnings "-register-all".

(** ** Python values *)

Inductive value : Type :=
| VNone
| VBool (b : bool)
| VInt (n : Z)
| VStr (s : string)
| VList (l : list value)
| VDict (d : list (string * value)).

(** A JSON object: the fields of one product, in insertion order. *)
Definition obj : Type := list (string * value).

(** [bool(v)]: [None], [False], [0], [""], [[]] and [{}] are falsy. *)
Definition truthy (v : value) : bool :=
  match v with
  | VNone => false
  | VBool b => b
  | VInt n => negb (n =? 0)%Z
  | VStr s => negb (s =? "")
  | VList l => match l with [] => false | _ :: _ => true end
  | VDict d => match d with [] => false | _ :: _ => true end
  end.

(** [a or b] on values that are already evaluated. *)
Definition py_or (a b : value) : value := if truthy a then a else b.

Definition is_none (v : value) : bool :=
  match v with VNone => true | _ => false end.

(** The exception classes the two scripts can meet.  [KeyboardInterrupt]
    derives from [BaseException] only; every other one is an [Exception]. *)
Inductive exn : Type :=
| PlaywrightTimeoutError
| PlaywrightError
| JSONDecodeError
| UnicodeDecodeError
| OSError
| TypeError
| AttributeError
| ValueError
| IndexError
| KeyError
| KeyboardInterrupt.

Definition is_Exception (e : exn) : bool :=
  match e with KeyboardInterrupt => false | _ => true end.

Definition is_timeout (e : exn) : bool :=
  match e with PlaywrightTimeoutError => true | _ => false end.

Inductive outcome (A : Type) : Type :=
| Ok (a : A)
| Raise (e : exn).
Arguments Ok {A} a.
Arguments Raise {A} e.

Definition obind {A B} (x : outcome A) (f : A -> outcome B) : outcome B :=
  match x with Ok a => f a | Raise e => Raise e end.

Notation "'let?' x ':=' c 'in' k" := (obind c (fun x => k))
  (at level 10, x name, c at level 100, k at level 200).
Notation "'let?' ' p ':=' c 'in' k" :=
  (obind c (fun x => match x with p => k end))
  (at level 10, p pattern, c at level 100, k at level 200).

(** *** Field access *)

Fixpoint field (k : string) (d : obj) : option value :=
  match d with
  | [] => None
  | (k', v) :: d' => if k =? k' then Some v else field k d'
  end.

(** [d.get(k, default)] on a dict. *)
Definition dget (d : obj) (k : string) (default : value) : value :=
  match field k d with Some v => v | None => default end.

(** [p.get(k, default)] on any value: only dicts have [get]. *)
Definition get (p : value) (k : string) (default : value) : outcome value :=
  match p with
  | VDict d => Ok (dget d k default)
  | _ => Raise AttributeError
  end.

(** [d[k] = v]: an existing field keeps its place. *)
Fixpoint setitem (d : obj) (k : string) (v : value) : obj :=
  match d with
  | [] => [(k, v)]
  | (k', v') :: d' =>
      if k =? k' then (k', v) :: d' else (k', v') :: setitem d' k v
  end.

(** [for p in v]: a list yields its elements, a dict its keys, a string
    its characters; nothing else is iterable. *)
Definition py_iter (v : value) : outcome (list value) :=
  match v with
  | VList l => Ok l
  | VDict d => Ok (map (fun kv => VStr (fst kv)) d)
  | VStr s => Ok (map (fun c => VStr (String c "")) (list_ascii_of_string s))
  | _ => Raise TypeError
  end.

(** *** Dictionary keys

    A key of the products dict is hashed and compared with [==]; [True]
    and [1] are the same key.  Lists and dicts are unhashable. *)

Inductive hkey : Type :=
| KNone
| KInt (n : Z)
| KStr (s : string).

Definition hash_key (v : value) : outcome hkey :=
  match v with
  | VNone => Ok KNone
  | VBool b => Ok (KInt (Z.b2z b))
  | VInt n => Ok (KInt n)
  | VStr s => Ok (KStr s)
  | VList _ | VDict _ => Raise TypeError
  end.

Definition hkey_eqb (a b : hkey) : bool :=
  match a, b with
  | KNone, KNone => true
  | KInt m, KInt n => (m =? n)%Z
  | KStr s, KStr t => (s =? t)
  | _, _ => false
  end.

(** ** The products dict: [Dict[str, Dict]], insertion ordered *)

Definition products : Type := list (hkey * obj).

Fixpoint dict_get (d : products) (k : hkey) : option obj :=
  match d with
  | [] => None
  | (k', v) :: d' => if hkey_eqb k k' then Some v else dict_get d' k
  end.

(** [k in d] *)
Definition dict_mem (d : products) (k : hkey) : bool :=
  match dict_get d k with Some _ => true | None => false end.

(** [d[k] = v]: overwrites in place, or appends a new entry. *)
Fixpoint dict_set (d : products) (k : hkey) (v : obj) : products :=
  match d with
  | [] => [(k, v)]
  | (k', v') :: d' =>
      if hkey_eqb k k' then (k', v) :: d' else (k', v') :: dict_set d' k v
  end.

(** [d.update(e)], and [for key, product in e.items(): d[key] = product]. *)
Definition dict_update (d e : products) : products :=
  fold_left (fun acc kv => dict_set acc (fst kv) (snd kv)) e d.

(** [{**d, **e}] *)
Definition dict_merge (d e : products) : products := dict_update d e.

Definition dict_keys (d : products) : list hkey := map fst d.

(** [list(d.values())] *)
Definition dict_values (d : products) : list obj := map snd d.

(** ** Identity key *)

(** [p.get("product_url") or p.get("id")] on a dict [p]. *)
Definition identity_key (p : obj) : value :=
  py_or (dget p "product_url" VNone) (dget p "id" VNone).

(** The identity key in the words of the data model: [product_url] if
    present (not null), else [id]. *)
Definition spec_identity_key (p : obj) : value :=
  match dget p "product_url" VNone with
  | VNone => dget p "id" VNone
  | u => u
  end.

(** ** Persistent store: the document behind [output_json] *)

Inductive file : Type :=
| Missing                (* os.path.exists is false *)
| Unopenable             (* open(..., "r") raises OSError *)
| Undecodable            (* the bytes are not UTF-8 *)
| Unparsable             (* json.load raises JSONDecodeError *)
| Json (v : value).      (* the text parses to [v] *)

(** [json.load(f)] behind [open(output_json, "r", encoding="utf-8")]. *)
Definition json_load (f : file) : outcome value :=
  match f with
  | Missing | Unopenable => Raise OSError
  | Undecodable => Raise UnicodeDecodeError
  | Unparsable => Raise JSONDecodeError
  | Json v => Ok v
  end.

(** The dict comprehension of [load_existing_products]:
    [{p.get("product_url") or p.get("id"): p for p in products
      if p.get("product_url") or p.get("id")}]. *)
Fixpoint load_items (ps : list value) (acc : products) : outcome products :=
  match ps with
  | [] => Ok acc
  | p :: ps' =>
      match p with
      | VDict d =>
          if truthy (identity_key d) then
            let? k := hash_key (identity_key d) in
            load_items ps' (dict_set acc k d)
          else load_items ps' acc
      | _ => Raise AttributeError
      end
  end.

(** The body of the [try] in [load_existing_products]. *)
Definition load_body (f : file) : outcome products :=
  let? v := json_load f in
  let? ps := py_iter v in
  load_items ps [].

(** What [json.dump(products_list, f)] leaves in the document. *)
Definition dumped (d : products) : file :=
  Json (VList (map VDict (dict_values d))).

(** ** The process and its surroundings *)

(** The lines the operator types; [EOF] is the end of standard input. *)
Inductive stdin_event : Type :=
| Line (s : string)
| EOF.

(** What one page load shows to the crawler. *)
Record page_view : Type := {
  pv_goto : option exn;          (* page.goto and the waits after it *)
  pv_products : outcome value;   (* the page.evaluate that extracts products *)
  pv_has_next : outcome value;   (* jumbo: the next-button probe *)
  pv_page_numbers : outcome value (* jumbo: {current, total} *)
}.

(** What becomes of a write of the document: it succeeds, or
    [open(output_json, "w")] raises and the document stays as it was, or
    [json.dump] raises after the file was truncated. *)
Inductive write_outcome : Type :=
| Written
| OpenFailed
| DumpFailed.

(** The oracle.  Time is counted in blocking calls: the [t]-th blocking
    call (a page load, a sleep, a write of the document, a browser
    launch) sees [typed t] arrive on standard input while it waits. *)
Record world : Type := {
  typed : nat -> list stdin_event;
  browse : nat -> string -> page_view;
  write : nat -> write_outcome;
  start_error : option exn;      (* sync_playwright().__enter__ *)
  launch_error : option exn;     (* p.chromium.launch *)
  new_page_error : option exn;   (* browser.new_page *)
  close_error : option exn       (* browser.close *)
}.

Record state : Type := {
  skip_category_flag : bool;
  quit_flag : bool;
  listening : bool;              (* the keyboard thread is alive *)
  disk : file;                   (* the document at output_json *)
  clock : nat
}.

Inductive msg : Type :=
| CouldNotLoad (e : exn)
| Saved (n : nat)
| SkipSignal
| QuitSignal
| ScrapingCategory (name url : string)
| MaxPerCategory (n : nat)
| Tip
| SkippingCategory (name : string)
| LoadingPage (page_num : nat)
| Found (n page_num : nat) (total : option nat)
| Traceback (e : exn)
| Appended (n total : nat)
| NoMoreProducts
| ReachedMaximum (n : nat)
| TimeoutOnPage (page_num : nat)
| ErrorOnPage (page_num : nat) (e : exn)
| UsingCategories (n : nat)
| Loaded (n : nat)
| Banner
| QuitReceived
| CategoryComplete (n : nat)
| ErrorScraping (url : string) (e : exn)
| Success (n : nat).

Inductive event : Type :=
| Print (m : msg)
| Goto (url : string)
| Write (n : nat)                (* open(output_json, "w") and json.dump of n records *)
| Sleep
| PlaywrightStart
| Launch
| NewPage
| BrowserClose
| PlaywrightStop.

(** A computation either runs out of fuel or ends, with a value or an
    exception, in a new state and having produced some events. *)
Inductive reply (A : Type) : Type :=
| Diverge
| Done (r : outcome A) (st : state) (evs : list event).
Arguments Diverge {A}.
Arguments Done {A} r st evs.

Definition M (A : Type) : Type := state -> reply A.

Definition ret {A} (a : A) : M A := fun st => Done (Ok a) st [].

Definition raise {A} (e : exn) : M A := fun st => Done (Raise e) st [].

Definition bind {A B} (m : M A) (f : A -> M B) : M B :=
  fun st =>
    match m st with
    | Diverge => Diverge
    | Done (Raise e) st1 evs1 => Done (Raise e) st1 evs1
    | Done (Ok a) st1 evs1 =>
        match f a st1 with
        | Diverge => Diverge
        | Done r st2 evs2 => Done r st2 (evs1 ++ evs2)
        end
    end.

Notation "x <- c ;; k" := (bind c (fun x => k))
  (at level 61, c at next level, right associativity).
Notation "c ;; k" := (bind c (fun _ => k))
  (at level 61, right associativity).

Definition lift {A} (x : outcome A) : M A :=
  match x with Ok a => ret a | Raise e => raise e end.

Definition emit (e : event) : M unit := fun st => Done (Ok tt) st [e].

Definition print (m : msg) : M unit := emit (Print m).

Definition gets {A} (f : state -> A) : M A := fun st => Done (Ok (f st)) st [].

Definition modify (f : state -> state) : M unit := fun st => Done (Ok tt) (f st) [].

(** [try: m except Exception as e: ...]: the exceptions that are
    [Exception]s come back as values, the others go on. *)
Definition try_except {A} (m : M A) : M (outcome A) :=
  fun st =>
    match m st with
    | Diverge => Diverge
    | Done (Ok a) st1 evs => Done (Ok (Ok a)) st1 evs
    | Done (Raise e) st1 evs =>
        if is_Exception e then Done (Ok (Raise e)) st1 evs
        else Done (Raise e) st1 evs
    end.

(** [try: m finally: fin].  An exception of [fin] replaces the
    result of [m]. *)
Definition try_finally {A} (m : M A) (fin : M unit) : M A :=
  fun st =>
    match m st with
    | Diverge => Diverge
    | Done r st1 evs1 =>
        match fin st1 with
        | Diverge => Diverge
        | Done (Ok _) st2 evs2 => Done r st2 (evs1 ++ evs2)
        | Done (Raise e) st2 evs2 => Done (Raise e) st2 (evs1 ++ evs2)
        end
    end.

(** ** Interactive control channel *)

(** [str.strip()]: the white space of Python is the ASCII characters
    9-13, 28-31 and 32, and the characters U+0085, U+00A0, U+1680,
    U+2000-U+200A, U+2028, U+2029, U+202F, U+205F and U+3000, which take
    two or three bytes. *)
Definition is_space (c : ascii) : bool :=
  let n := nat_of_ascii c in
  ((n =? 32) || ((9 <=? n) && (n <=? 13)) || ((28 <=? n) && (n <=? 31)))%nat.

(** U+0085 and U+00A0. *)
Definition is_space2 (c1 c2 : ascii) : bool :=
  let n1 := nat_of_ascii c1 in
  let n2 := nat_of_ascii c2 in
  ((n1 =? 194) && ((n2 =? 133) || (n2 =? 160)))%nat.

(** U+1680, U+2000-U+200A, U+2028, U+2029, U+202F, U+205F, U+3000. *)
Definition is_space3 (c1 c2 c3 : ascii) : bool :=
  let n1 := nat_of_ascii c1 in
  let n2 := nat_of_ascii c2 in
  let n3 := nat_of_ascii c3 in
  (((n1 =? 225) && (n2 =? 154) && (n3 =? 128)) ||
   ((n1 =? 226) && (n2 =? 128) &&
    (((128 <=? n3) && (n3 <=? 138)) || (n3 =? 168) || (n3 =? 169) || (n3 =? 175))) ||
   ((n1 =? 226) && (n2 =? 129) && (n3 =? 159)) ||
   ((n1 =? 227) && (n2 =? 128) && (n3 =? 128)))%nat.

Fixpoint lstrip (s : string) : string :=
  match s with
  | String c1 s1 =>
      if is_space c1 then lstrip s1
      else
        match s1 with
        | String c2 s2 =>
            if is_space2 c1 c2 then lstrip s2
            else
              match s2 with
              | String c3 s3 => if is_space3 c1 c2 c3 then lstrip s3 else s
              | EmptyString => s
              end
        | EmptyString => s
        end
  | EmptyString => EmptyString
  end.

(** A string that is white space from some byte on ends there. *)
Fixpoint rstrip (s : string) : string :=
  match s with
  | String c s' =>
      match lstrip s with
      | EmptyString => EmptyString
      | _ => String c (rstrip s')
      end
  | EmptyString => EmptyString
  end.

Definition strip (s : string) : string := rstrip (lstrip s).

(** [str.lower()], on the letters A-Z.  The monitor only compares the
    result with ["s"] and ["q"], and no other character of Unicode
    lowers to either. *)
Definition lower_ascii (c : ascii) : ascii :=
  let n := nat_of_ascii c in
  if ((65 <=? n) && (n <=? 90))%nat then ascii_of_nat (n + 32) else c.

Fixpoint lower (s : string) : string :=
  match s with
  | String c s' => String (lower_ascii c) (lower s')
  | EmptyString => EmptyString
  end.

(** One turn of the [while True] of [monitor_keyboard]: [input()] returns
    a line or raises [EOFError]. *)
Definition monitor_step (acc : state * list event) (ev : stdin_event)
  : state * list event :=
  let (st, out) := acc in
  if listening st then
    match ev with
    | EOF =>
        ({| skip_category_flag := skip_category_flag st;
            quit_flag := quit_flag st;
            listening := false;
            disk := disk st; clock := clock st |}, out)
    | Line l =>
        let line := lower (strip l) in
        if line =? "s" then
          ({| skip_category_flag := true;
              quit_flag := quit_flag st;
              listening := true;
              disk := disk st; clock := clock st |},
           out ++ [Print SkipSignal])
        else if line =? "q" then
          ({| skip_category_flag := true;
              quit_flag := true;
              listening := false;
              disk := disk st; clock := clock st |},
           out ++ [Print QuitSignal])
        else (st, out)
    end
  else (st, out).

Definition monitor_keyboard (input : list stdin_event) (st : state)
  : state * list event :=
  fold_left monitor_step input (st, []).

Definition advance (st : state) : state :=
  {| skip_category_flag := skip_category_flag st;
     quit_flag := quit_flag st;
     listening := listening st;
     disk := disk st; clock := S (clock st) |}.

Definition clear_skip (st : state) : state :=
  {| skip_category_flag := false;
     quit_flag := quit_flag st;
     listening := listening st;
     disk := disk st; clock := clock st |}.

Definition set_disk (f : file) (st : state) : state :=
  {| skip_category_flag := skip_category_flag st;
     quit_flag := quit_flag st;
     listening := listening st;
     disk := f; clock := clock st |}.

Definition start_listening (st : state) : state :=
  {| skip_category_flag := skip_category_flag st;
     quit_flag := quit_flag st;
     listening := true;
     disk := disk st; clock := clock st |}.

Section Process.

Variable w : world.

(** A blocking call at time [t]: the keyboard thread handles what the
    operator types meanwhile.  Returns [t]. *)
Definition block : M nat :=
  fun st =>
    let t := clock st in
    let (st1, out) := monitor_keyboard (typed w t) st in
    Done (Ok t) (advance st1) out.

(** [time.sleep] *)
Definition sleep : M unit := _ <- block ;; emit Sleep.

(** ** Persistent store *)

Definition load_existing_products : M products :=
  f <- gets disk ;;
  match f with
  | Missing => ret []
  | _ =>
      r <- try_except (lift (load_body f)) ;;
      match r with
      | Ok d => ret d
      | Raise e => print (CouldNotLoad e) ;; ret []
      end
  end.

Definition save_products (d : products) : M unit :=
  let products_list := dict_values d in
  t <- block ;;
  emit (Write (List.length products_list)) ;;
  match write w t with
  | Written => modify (set_disk (dumped d))
  | OpenFailed => raise OSError
  | DumpFailed => modify (set_disk Unparsable) ;; raise OSError
  end ;;
  print (Saved (List.length products_list)).

(** ** Loops and handlers shared by the two crawlers *)

Inductive ctl : Type := Continue | Break.

(** [while cond: body], where the body ends in [break] or goes round
    again.  The fuel bounds the number of turns. *)
Fixpoint while_loop {L : Type} (fuel : nat) (cond : L -> bool)
    (body : L -> M (ctl * L)) (s : L) : M L :=
  match fuel with
  | O => fun _ => Diverge
  | S fuel' =>
      if cond s then
        r <- body s ;;
        match r with
        | (Break, s') => ret s'
        | (Continue, s') => while_loop fuel' cond body s'
        end
      else ret s
  end.

(** An exception met where no computation of [M] is running (inside a
    pure loop over the products of a page): the [except Exception]
    clause takes it if it is an [Exception]. *)
Definition caught {A} (e : exn) (handler : M A) : M A :=
  if is_Exception e then handler else raise e.

(** [except PlaywrightTimeoutError: ... except Exception as e: ...] *)
Definition on_page_error (page_num : nat) (e : exn) : M unit :=
  if is_timeout e then print (TimeoutOnPage page_num)
  else print (ErrorOnPage page_num e).

Definition fail_if (e : option exn) : M unit :=
  match e with Some x => raise x | None => ret tt end.

(** [page.goto(url, ...)] and the fixed waits that follow it. *)
Definition goto (url : string) : M page_view :=
  emit (Goto url) ;;
  t <- block ;;
  let pv := browse w t url in
  fail_if (pv_goto pv) ;;
  ret pv.

Definition nonempty {A} (l : list A) : bool :=
  match l with [] => false | _ :: _ => true end.

(** [str(n)] for a page number. *)
Definition str_of_nat (n : nat) : string :=
  NilEmpty.string_of_uint (Nat.to_uint n).

(** [c in s] for a one-character [c]. *)
Fixpoint contains (c : ascii) (s : string) : bool :=
  match s with
  | EmptyString => false
  | String c' s' => Ascii.eqb c c' || contains c s'
  end.

(** [n >= v] for an int [n]. *)
Definition py_ge (n : nat) (v : value) : outcome bool :=
  match v with
  | VInt m => Ok (m <=? Z.of_nat n)%Z
  | VBool b => Ok (Z.b2z b <=? Z.of_nat n)%Z
  | _ => Raise TypeError
  end.

(** [for key, product in new_products.items(): current_products[key] = product],
    then [save_products], of the write-through after a page. *)
Definition append_to_json (n_valid : nat) (new_products : products) : M unit :=
  current_products <- load_existing_products ;;
  let current_products := dict_update current_products new_products in
  save_products current_products ;;
  print (Appended n_valid (List.length current_products)).

End Process.

(** ** The batch: [main], the same in the two scripts *)

(** [s.split("/")] *)
Fixpoint split_slash (s : string) : list string :=
  match s with
  | EmptyString => [EmptyString]
  | String c s' =>
      if Ascii.eqb c "/" then EmptyString :: split_slash s'
      else
        match split_slash s' with
        | h :: t => String c h :: t
        | [] => [String c EmptyString]
        end
  end.

(** [category_url.split("/")[-1] or category_url.split("/")[-2] or "unknown"] *)
Definition category_name_of (category_url : string) : outcome string :=
  match rev (split_slash category_url) with
  | [] => Raise IndexError
  | last :: before =>
      if negb (last =? "") then Ok last
      else
        match before with
        | [] => Raise IndexError
        | second :: _ => if negb (second =? "") then Ok second else Ok "unknown"
        end
  end.

Module Orchestrator.

Section Batch.

Variable w : world.

(** The crawler of the script: URL, name, known products, fuel. *)
Variable scrape : string -> string -> products -> nat -> M products.
Variable categories : list string.

(** [for category_url in categories] *)
Fixpoint crawl_categories (fuel : nat) (existing_products : products)
    (cats : list string) (all_new_products : products) : M products :=
  match cats with
  | [] => ret all_new_products
  | category_url :: cats' =>
      quit <- gets quit_flag ;;
      if quit then print QuitReceived ;; ret all_new_products
      else
        scraped <- try_except (
          category_name <- lift (category_name_of category_url) ;;
          scrape category_url category_name
            (dict_merge existing_products all_new_products) fuel) ;;
        match scraped with
        | Raise e =>
            print (ErrorScraping category_url e) ;;
            crawl_categories fuel existing_products cats' all_new_products
        | Ok new_products =>
            let all_new_products := dict_update all_new_products new_products in
            saved <- try_except (
              (if nonempty new_products then
                 let merged_products :=
                   dict_merge existing_products all_new_products in
                 save_products w merged_products ;;
                 print (CategoryComplete (List.length merged_products))
               else ret tt) ;;
              sleep w) ;;
            match saved with
            | Raise e =>
                print (ErrorScraping category_url e) ;;
                crawl_categories fuel existing_products cats' all_new_products
            | Ok _ =>
                crawl_categories fuel existing_products cats' all_new_products
            end
        end
  end.

(** The [try] block of [main]. *)
Definition batch (fuel : nat) (existing_products : products) : M unit :=
  print (UsingCategories (List.length categories)) ;;
  all_new_products <- crawl_categories fuel existing_products categories [] ;;
  let final_products := dict_merge existing_products all_new_products in
  save_products w final_products ;;
  print (Success (List.length final_products)).

Definition main (fuel : nat) : M unit :=
  existing_products <- load_existing_products ;;
  print (Loaded (List.length existing_products)) ;;
  print Banner ;;
  modify start_listening ;;
  emit PlaywrightStart ;;
  fail_if (start_error w) ;;
  try_finally (
    emit Launch ;;
    _ <- block w ;;
    fail_if (launch_error w) ;;
    emit NewPage ;;
    fail_if (new_page_error w) ;;
    try_finally
      (batch fuel existing_products)
      (emit BrowserClose ;; fail_if (close_error w)))
    (emit PlaywrightStop).

End Batch.

End Orchestrator.

(** ** scraper-jumbo.py *)

Module Jumbo.

Definition max_pages : nat := 50.

Definition discover_food_categories : list string :=
  [ "https://www.jumbo.cl/carnes-y-pescados";
    "https://www.jumbo.cl/frutas-y-verduras";
    "https://www.jumbo.cl/lacteos-huevos-y-congelados";
    "https://www.jumbo.cl/quesos-y-fiambres";
    "https://www.jumbo.cl/despensa";
    "https://www.jumbo.cl/panaderia-y-pasteleria";
    "https://www.jumbo.cl/licores-bebidas-y-aguas";
    "https://www.jumbo.cl/chocolates-galletas-y-snacks" ].

(** The paginated URL of page [page_num]. *)
Definition page_url (category_url : string) (page_num : nat) : string :=
  if contains "?" category_url
  then (category_url ++ "&page=" ++ str_of_nat page_num)%string
  else (category_url ++ "?page=" ++ str_of_nat page_num)%string.

(** [p.get("name") and (p.get("price") is not None or p.get("product_url"))] *)
Definition has_name_and_price_or_url (p : obj) : bool :=
  truthy (dget p "name" VNone) &&
  (negb (is_none (dget p "price" VNone)) || truthy (dget p "product_url" VNone)).

(** The loop "Filter valid products and check for duplicates".  It
    returns [valid_products] and [new_products] as the loop left them,
    and the exception that interrupted it, if any. *)
Fixpoint filter_products (category_name : string) (existing_products : products)
    (ps : list value) (valid_products : list obj) (new_products : products)
  : list obj * products * option exn :=
  match ps with
  | [] => (valid_products, new_products, None)
  | p :: ps' =>
      match p with
      | VDict d =>
          if has_name_and_price_or_url d then
            let key := identity_key d in
            if truthy key then
              match hash_key key with
              | Raise e => (valid_products, new_products, Some e)
              | Ok k =>
                  if negb (dict_mem existing_products k) &&
                     negb (dict_mem new_products k) then
                    let d' := setitem d "category" (VStr category_name) in
                    filter_products category_name existing_products ps'
                      (valid_products ++ [d']) (dict_set new_products k d')
                  else
                    filter_products category_name existing_products ps'
                      valid_products new_products
              end
            else
              filter_products category_name existing_products ps'
                valid_products new_products
          else
            filter_products category_name existing_products ps'
              valid_products new_products
      | _ => (valid_products, new_products, Some AttributeError)
      end
  end.

Section Crawler.

Variable w : world.
Variables category_url category_name : string.
Variable existing_products : products.

(** The last-page test after [has_next] came back falsy:
    [current and total and page_num >= total]. *)
Definition on_last_page (pv : page_view) (page_num : nat) : M bool :=
  page_numbers <- lift (pv_page_numbers pv) ;;
  current <- lift (get page_numbers "current" VNone) ;;
  if truthy current then
    total <- lift (get page_numbers "total" VNone) ;;
    if truthy total then
      total <- lift (get page_numbers "total" (VInt 1)) ;;
      lift (py_ge page_num total)
    else ret false
  else ret false.

(** The part of the [try] block after the filter loop. *)
Definition after_filter (pv : page_view) (page_num : nat)
    (valid_products : list obj) (new_products : products) : M ctl :=
  print (Found (List.length valid_products) page_num None) ;;
  (if nonempty valid_products
   then append_to_json w (List.length valid_products) new_products
   else ret tt) ;;
  has_next <- lift (pv_has_next pv) ;;
  if negb (nonempty valid_products) && (1 <? page_num)%nat then
    print NoMoreProducts ;; ret Break
  else
    last <- (if negb (truthy has_next) then on_last_page pv page_num
             else ret false) ;;
    if last then ret Break
    else sleep w ;; ret Continue.

(** One turn of [while page_num <= max_pages]. *)
Definition scrape_page (loc : nat * products) : M (ctl * (nat * products)) :=
  let (page_num, new_products) := loc in
  skip <- gets skip_category_flag ;;
  if skip then
    print (SkippingCategory category_name) ;;
    modify clear_skip ;;
    ret (Break, loc)
  else
    fetched <- try_except (
      print (LoadingPage page_num) ;;
      pv <- goto w (page_url category_url page_num) ;;
      products <- lift (pv_products pv) ;;
      ps <- lift (py_iter products) ;;
      ret (pv, ps)) ;;
    match fetched with
    | Raise e => on_page_error page_num e ;; ret (Break, loc)
    | Ok (pv, ps) =>
        let '(valid_products, new_products, failure) :=
          filter_products category_name existing_products ps [] new_products in
        match failure with
        | Some e =>
            caught e (on_page_error page_num e ;;
                      ret (Break, (page_num, new_products)))
        | None =>
            rest <- try_except
              (after_filter pv page_num valid_products new_products) ;;
            match rest with
            | Raise e =>
                on_page_error page_num e ;;
                ret (Break, (page_num, new_products))
            | Ok Break => ret (Break, (page_num, new_products))
            | Ok Continue => ret (Continue, (page_num + 1, new_products))
            end
        end
    end.

Definition scrape_category_products (fuel : nat) : M products :=
  print (ScrapingCategory category_name category_url) ;;
  print Tip ;;
  loc <- while_loop fuel (fun loc => (fst loc <=? max_pages)%nat)
           scrape_page (1, []) ;;
  ret (snd loc).

End Crawler.

Definition main (w : world) (fuel : nat) : M unit :=
  Orchestrator.main w (fun url name existing => scrape_category_products w url name existing)
    discover_food_categories fuel.

End Jumbo.

(** ** scraper-unimarc.py *)

(** [a == b] on values: numbers compare by value across [bool] and
    [int], lists element by element, dicts field by field whatever the
    order. *)
Fixpoint py_eqb (a b : value) {struct a} : bool :=
  match a, b with
  | VNone, VNone => true
  | VBool x, VBool y => Bool.eqb x y
  | VBool x, VInt n => (Z.b2z x =? n)%Z
  | VInt n, VBool x => (n =? Z.b2z x)%Z
  | VInt m, VInt n => (m =? n)%Z
  | VStr s, VStr t => (s =? t)
  | VList l, VList l' =>
      (fix all2 (xs ys : list value) : bool :=
         match xs, ys with
         | [], [] => true
         | x :: xs', y :: ys' => py_eqb x y && all2 xs' ys'
         | _, _ => false
         end) l l'
  | VDict d, VDict d' =>
      (List.length d =? List.length d')%nat &&
      (fix all (fs : list (string * value)) : bool :=
         match fs with
         | [] => true
         | (k, v) :: fs' =>
             match field k d' with
             | Some v' => py_eqb v v'
             | None => false
             end && all fs'
         end) d
  | _, _ => false
  end.

(** The number of bytes of the character that begins with the byte [c]. *)
Definition utf8_width (c : ascii) : nat :=
  let n := nat_of_ascii c in
  if (n <? 192)%nat then 1 else if (n <? 224)%nat then 2
  else if (n <? 240)%nat then 3 else 4.

(** [v[0]]; on a string, its first character. *)
Definition py_first (v : value) : outcome value :=
  match v with
  | VList (x :: _) => Ok x
  | VList [] => Raise IndexError
  | VStr (String c s) => Ok (VStr (substring 0 (utf8_width c) (String c s)))
  | VStr EmptyString => Raise IndexError
  | VDict _ => Raise KeyError
  | _ => Raise TypeError
  end.

(** [v > 0] *)
Definition py_gt0 (v : value) : outcome bool :=
  match v with
  | VInt n => Ok (0 <? n)%Z
  | VBool b => Ok b
  | _ => Raise TypeError
  end.

Module Unimarc.

Definition max_pages : nat := 10.

Definition discover_food_categories : list string :=
  [ "https://www.unimarc.cl/category/carnes";
    "https://www.unimarc.cl/category/frutas-y-verduras";
    "https://www.unimarc.cl/category/lacteos-huevos-y-refrigerados";
    "https://www.unimarc.cl/category/quesos-y-fiambres";
    "https://www.unimarc.cl/category/panaderia-y-pasteleria";
    "https://www.unimarc.cl/category/congelados";
    "https://www.unimarc.cl/category/despensa";
    "https://www.unimarc.cl/category/desayuno-y-dulces";
    "https://www.unimarc.cl/category/bebidas-y-licores" ].

Definition page_url (category_url : string) (page_num : nat) : string :=
  if (page_num =? 1)%nat then category_url
  else (category_url ++ "?page=" ++ str_of_nat page_num)%string.

Section Builtins.

(** Two builtins of Python are taken as they come: [repr] of a list or
    a dict, and [int] of a string ([None] where it raises [ValueError]). *)
Variable repr : value -> string.
Variable int_of_str : string -> option Z.

(** [f"{v}"] *)
Definition py_str (v : value) : string :=
  match v with
  | VNone => "None"
  | VBool true => "True"
  | VBool false => "False"
  | VInt n => NilZero.string_of_int (Z.to_int n)
  | VStr s => s
  | VList _ | VDict _ => repr v
  end.

(** [int(v)] *)
Definition py_int (v : value) : outcome value :=
  match v with
  | VInt n => Ok (VInt n)
  | VBool b => Ok (VInt (Z.b2z b))
  | VStr s =>
      match int_of_str s with
      | Some n => Ok (VInt n)
      | None => Raise ValueError
      end
  | _ => Raise TypeError
  end.

(** The fields read from the first seller: [price], [price_original],
    [in_stock], [unit_price]. *)
Definition seller_fields (product : obj)
  : outcome (value * value * value * value) :=
  let sellers := dget product "sellers" (VList []) in
  if truthy sellers then
    let? first_seller := py_first sellers in
    let? price := get first_seller "price" VNone in
    let? price_original := get first_seller "listPrice" VNone in
    let? quantity := get first_seller "availableQuantity" (VInt 0) in
    let? in_stock := py_gt0 quantity in
    let? unit_price := get first_seller "ppum" VNone in
    Ok (price, price_original, VBool in_stock, unit_price)
  else Ok (VNone, VNone, VBool false, VNone).

Definition first_image (product : obj) : outcome value :=
  let images := dget product "images" (VList []) in
  if truthy images then py_first images else Ok VNone.

Definition promo_text_of (product : obj) : outcome value :=
  let price_detail := dget product "priceDetail" (VDict []) in
  if truthy price_detail then
    let? promo_tag := get price_detail "promotionalTag" (VDict []) in
    if truthy promo_tag then get promo_tag "text" VNone else Ok VNone
  else Ok VNone.

(** [product_url]: the detail URL behind the site's origin, or [None]. *)
Definition product_url_of (product : obj) : value :=
  let detail_url := dget product "detailUrl" (VStr "") in
  if truthy detail_url
  then VStr ("https://www.unimarc.cl" ++ py_str detail_url)
  else VNone.

(** [product_id] *)
Definition product_id_of (product : obj) : value :=
  py_or (dget product "productId" VNone) (dget product "itemId" VNone).

(** [int(x) if x else None] *)
Definition int_or_none (cond : bool) (x : value) : outcome value :=
  if cond then py_int x else Ok VNone.

(** The [product_dict] literal. *)
Definition product_dict (category_name : string) (product : obj)
    (price price_original in_stock unit_price image_url promo_text : value)
  : outcome obj :=
  let? price' := int_or_none (truthy price) price in
  let? price_original' :=
    int_or_none (truthy price_original && negb (py_eqb price_original price))
      price_original in
  Ok [ ("id", product_id_of product);
       ("name", py_or (dget product "name" VNone)
                      (dget product "nameComplete" VNone));
       ("brand", dget product "brand" VNone);
       ("category", VStr category_name);
       ("price", price');
       ("price_original", price_original');
       ("currency", VStr "CLP");
       ("size", py_or (dget product "netContentLevelSmall" VNone)
                      (dget product "netContent" VNone));
       ("unit_price", unit_price);
       ("image_url", image_url);
       ("product_url", product_url_of product);
       ("in_stock", in_stock);
       ("promo_text", promo_text);
       ("sku", py_or (dget product "sku" VNone) (dget product "itemId" VNone));
       ("rating", VNone);
       ("description", dget product "description" VNone) ].

(** What the body of [for product in products_data] does with one
    product that is a dict: [None] when it is not added, the key and the
    record when it is. *)
Definition convert (category_name : string)
    (existing_products new_products : products) (product : obj)
  : outcome (option (hkey * obj)) :=
  let? '(price, price_original, in_stock, unit_price) := seller_fields product in
  let? image_url := first_image product in
  let? promo_text := promo_text_of product in
  let key := py_or (product_url_of product) (product_id_of product) in
  if truthy key then
    let? k := hash_key key in
    if negb (dict_mem existing_products k) && negb (dict_mem new_products k) then
      let? d := product_dict category_name product price price_original
                  in_stock unit_price image_url promo_text in
      Ok (Some (k, d))
    else Ok None
  else Ok None.

Fixpoint filter_products (category_name : string) (max_products_per_category : nat)
    (existing_products : products)
    (ps : list value) (valid_products : list obj) (new_products : products)
  : list obj * products * option exn :=
  match ps with
  | [] => (valid_products, new_products, None)
  | p :: ps' =>
      if (max_products_per_category <=? List.length new_products)%nat then
        (valid_products, new_products, None)
      else
        match p with
        | VDict product =>
            match convert category_name existing_products new_products product with
            | Raise e => (valid_products, new_products, Some e)
            | Ok None =>
                filter_products category_name max_products_per_category
                  existing_products ps' valid_products new_products
            | Ok (Some (k, d)) =>
                filter_products category_name max_products_per_category
                  existing_products ps'
                  (valid_products ++ [d]) (dict_set new_products k d)
            end
        | _ => (valid_products, new_products, Some AttributeError)
        end
  end.

Section Crawler.

Variable w : world.
Variables category_url category_name : string.
Variable existing_products : products.
Variable max_products_per_category : nat.

Definition on_page_error (page_num : nat) (e : exn) : M unit :=
  if is_timeout e then print (TimeoutOnPage page_num)
  else print (ErrorOnPage page_num e) ;; print (Traceback e).

(** The part of the [try] block after the loop over [products_data]. *)
Definition after_filter (page_num : nat)
    (valid_products : list obj) (new_products : products) : M ctl :=
  print (Found (List.length valid_products) page_num
           (Some (List.length new_products))) ;;
  (if nonempty valid_products
   then append_to_json w (List.length valid_products) new_products
   else ret tt) ;;
  if negb (nonempty valid_products) && (1 <? page_num)%nat then
    print NoMoreProducts ;; ret Break
  else if (max_products_per_category <=? List.length new_products)%nat then
    print (ReachedMaximum max_products_per_category) ;; ret Break
  else sleep w ;; ret Continue.

(** One turn of [while page_num <= max_pages]. *)
Definition scrape_page (loc : nat * products) : M (ctl * (nat * products)) :=
  let (page_num, new_products) := loc in
  skip <- gets skip_category_flag ;;
  if skip then
    print (SkippingCategory category_name) ;;
    modify clear_skip ;;
    ret (Break, loc)
  else if (max_products_per_category <=? List.length new_products)%nat then
    print (ReachedMaximum max_products_per_category) ;;
    ret (Break, loc)
  else
    fetched <- try_except (
      print (LoadingPage page_num) ;;
      pv <- goto w (page_url category_url page_num) ;;
      products_data <- lift (pv_products pv) ;;
      lift (py_iter products_data)) ;;
    match fetched with
    | Raise e => on_page_error page_num e ;; ret (Break, loc)
    | Ok ps =>
        let '(valid_products, new_products, failure) :=
          filter_products category_name max_products_per_category
            existing_products ps [] new_products in
        match failure with
        | Some e =>
            caught e (on_page_error page_num e ;;
                      ret (Break, (page_num, new_products)))
        | None =>
            rest <- try_except
              (after_filter page_num valid_products new_products) ;;
            match rest with
            | Raise e =>
                on_page_error page_num e ;;
                ret (Break, (page_num, new_products))
            | Ok Break => ret (Break, (page_num, new_products))
            | Ok Continue => ret (Continue, (page_num + 1, new_products))
            end
        end
    end.

Definition scrape_category_products_playwright (fuel : nat) : M products :=
  print (ScrapingCategory category_name category_url) ;;
  print (MaxPerCategory max_products_per_category) ;;
  print Tip ;;
  loc <- while_loop fuel (fun loc => (fst loc <=? max_pages)%nat)
           scrape_page (1, []) ;;
  ret (snd loc).

End Crawler.

Definition main (w : world) (fuel : nat) : M unit :=
  let max_products_per_category := 300 in
  Orchestrator.main w
    (fun url name existing =>
       scrape_category_products_playwright w url name existing
         max_products_per_category)
    discover_food_categories fuel.

End Builtins.

End Unimarc.

(** * Properties *)

(** ** The products dict *)

Lemma hkey_eqb_eq (a b : hkey) : hkey_eqb a b = true <-> a = b.
Proof.
  destruct a, b; simpl; split; intros H; try discriminate; try reflexivity.
  - apply Z.eqb_eq in H. now subst.
  - injection H as ->. apply Z.eqb_refl.
  - apply String.eqb_eq in H. now subst.
  - injection H as ->. apply String.eqb_refl.
Qed.

Lemma hkey_eqb_refl (a : hkey) : hkey_eqb a a = true.
Proof. now apply hkey_eqb_eq. Qed.

Lemma hkey_eqb_neq (a b : hkey) : hkey_eqb a b = false <-> a <> b.
Proof.
  split; intros H.
  - intros ->. rewrite hkey_eqb_refl in H. discriminate.
  - destruct (hkey_eqb a b) eqn:E; [|reflexivity].
    apply hkey_eqb_eq in E. contradiction.
Qed.

Lemma dict_mem_keys (d : products) (k : hkey) :
  dict_mem d k = true <-> In k (dict_keys d).
Proof.
  unfold dict_mem. induction d as [|[k' v] d IH]; simpl.
  - split; [discriminate | tauto].
  - destruct (hkey_eqb k k') eqn:E.
    + apply hkey_eqb_eq in E. subst. split; auto.
    + apply hkey_eqb_neq in E. rewrite IH. split; [auto|].
      intros [H|H]; [congruence|assumption].
Qed.

Lemma dict_mem_false_keys (d : products) (k : hkey) :
  dict_mem d k = false <-> ~ In k (dict_keys d).
Proof.
  rewrite <- dict_mem_keys. destruct (dict_mem d k); split; intros H;
    try discriminate; try reflexivity. now elim H.
Qed.

(** Setting a key that is not there appends the entry. *)
Lemma dict_set_fresh (d : products) (k : hkey) (v : obj) :
  dict_mem d k = false -> dict_set d k v = d ++ [(k, v)].
Proof.
  unfold dict_mem. induction d as [|[k' v'] d IH]; simpl; intros H.
  - reflexivity.
  - destruct (hkey_eqb k k'); [discriminate|]. now rewrite IH.
Qed.

Lemma dict_get_set_same (d : products) (k : hkey) (v : obj) :
  dict_get (dict_set d k v) k = Some v.
Proof.
  induction d as [|[k' v'] d IH]; simpl.
  - now rewrite hkey_eqb_refl.
  - destruct (hkey_eqb k k') eqn:E; simpl; rewrite E; auto.
Qed.

Lemma dict_get_set_other (d : products) (k k' : hkey) (v : obj) :
  k' <> k -> dict_get (dict_set d k v) k' = dict_get d k'.
Proof.
  intros Hne. induction d as [|[k0 v0] d IH]; simpl.
  - apply hkey_eqb_neq in Hne. now rewrite Hne.
  - destruct (hkey_eqb k k0) eqn:E; simpl.
    + apply hkey_eqb_eq in E. subst k0.
      apply hkey_eqb_neq in Hne. now rewrite Hne.
    + now rewrite IH.
Qed.

(** The keys after [d[k] = v]: unchanged when [k] was there. *)
Lemma dict_keys_set (d : products) (k : hkey) (v : obj) :
  dict_keys (dict_set d k v) =
  if dict_mem d k then dict_keys d else dict_keys d ++ [k].
Proof.
  unfold dict_mem. induction d as [|[k' v'] d IH]; simpl.
  - reflexivity.
  - destruct (hkey_eqb k k') eqn:E; simpl.
    + reflexivity.
    + rewrite IH. now destruct (dict_get d k).
Qed.

Lemma dict_set_NoDup (d : products) (k : hkey) (v : obj) :
  NoDup (dict_keys d) -> NoDup (dict_keys (dict_set d k v)).
Proof.
  intros H. rewrite dict_keys_set.
  destruct (dict_mem d k) eqn:E; [assumption|].
  apply dict_mem_false_keys in E.
  apply NoDup_app; [assumption | repeat constructor; auto | ].
  intros x Hx [<-|[]]. contradiction.
Qed.

(** The entries of [d] stored under [k]. *)
Definition entries_for (k : hkey) (d : products) : list (hkey * obj) :=
  filter (fun kv => hkey_eqb k (fst kv)) d.

Lemma entries_for_absent (k : hkey) (d : products) :
  ~ In k (dict_keys d) -> entries_for k d = [].
Proof.
  induction d as [|[k' v] d IH]; simpl; intros H; [reflexivity|].
  destruct (hkey_eqb k k') eqn:E.
  - apply hkey_eqb_eq in E. subst. tauto.
  - apply IH. tauto.
Qed.

(** In a dict, a key that is present has exactly one entry. *)
Lemma entries_for_NoDup (k : hkey) (d : products) :
  NoDup (dict_keys d) ->
  List.length (entries_for k d) =
  match dict_get d k with Some _ => 1 | None => 0 end.
Proof.
  induction d as [|[k' v] d IH]; simpl; intros H; [reflexivity|].
  inversion H as [|? ? Hnin Hnd]; subst.
  destruct (hkey_eqb k k') eqn:E; simpl.
  - apply hkey_eqb_eq in E. subst. now rewrite entries_for_absent.
  - now apply IH.
Qed.

(** ** Persistent store: load *)

Lemma hash_key_raises (v : value) (e : exn) :
  hash_key v = Raise e -> e = TypeError.
Proof. destruct v; simpl; congruence. Qed.

Lemma load_items_raises (ps : list value) (acc : products) (e : exn) :
  load_items ps acc = Raise e -> is_Exception e = true.
Proof.
  revert acc. induction ps as [|p ps IH]; simpl; intros acc H; [discriminate|].
  destruct p; try (injection H as <-; reflexivity).
  destruct (truthy (identity_key d)); [|eauto].
  destruct (hash_key (identity_key d)) eqn:Hk; simpl in H; [eauto|].
  apply hash_key_raises in Hk. injection H as <-. now subst.
Qed.

(** Whatever goes wrong while reading the document is an [Exception]. *)
Lemma load_body_raises (f : file) (e : exn) :
  load_body f = Raise e -> is_Exception e = true.
Proof.
  unfold load_body. destruct f; simpl; try (intros H; injection H as <-; reflexivity).
  destruct (py_iter v) eqn:Hi; simpl.
  - apply load_items_raises.
  - destruct v; simpl in Hi; try discriminate;
      injection Hi as <-; intros H; injection H as <-; reflexivity.
Qed.

(** What [load_existing_products] returns and prints, by the document. *)
Definition loaded (f : file) : products :=
  match f with
  | Missing => []
  | _ => match load_body f with Ok d => d | Raise _ => [] end
  end.

Definition load_warning (f : file) : list event :=
  match f with
  | Missing => []
  | _ => match load_body f with
         | Ok _ => []
         | Raise e => [Print (CouldNotLoad e)]
         end
  end.

Lemma load_existing_products_run (st : state) :
  load_existing_products st =
  Done (Ok (loaded (disk st))) st (load_warning (disk st)).
Proof.
  unfold load_existing_products, loaded, load_warning, bind, gets. simpl.
  destruct (disk st) eqn:Hd; try reflexivity;
    unfold try_except, lift; simpl;
    try (destruct (load_body (Json v)) eqn:Hb; simpl;
         [reflexivity | rewrite (load_body_raises _ _ Hb); reflexivity]).
Qed.

(** C9.  [load_existing_products] always returns to its caller, in the
    state it was called in: an empty collection and no message when the
    document is absent; an empty collection after one warning when it
    cannot be opened, decoded or parsed, or is not an array of records;
    the loaded collection otherwise. *)
Theorem load_never_raises (st : state) :
  exists (d : products) (evs : list event),
    load_existing_products st = Done (Ok d) st evs /\
    match disk st with
    | Missing => d = [] /\ evs = []
    | Unopenable => d = [] /\ evs = [Print (CouldNotLoad OSError)]
    | Undecodable => d = [] /\ evs = [Print (CouldNotLoad UnicodeDecodeError)]
    | Unparsable => d = [] /\ evs = [Print (CouldNotLoad JSONDecodeError)]
    | Json v =>
        match load_body (Json v) with
        | Ok d' => d = d' /\ evs = []
        | Raise e => d = [] /\ evs = [Print (CouldNotLoad e)]
        end
    end.
Proof.
  exists (loaded (disk st)), (load_warning (disk st)).
  split; [apply load_existing_products_run|].
  unfold loaded, load_warning.
  destruct (disk st); simpl; try (split; reflexivity).
  destruct (load_body (Json v)); split; reflexivity.
Qed.

(** A record of the document: an object whose identity key, when it is
    usable, can be a dict key (a string, a number or a boolean, not a
    list or an object). *)
Definition is_record (p : value) : bool :=
  match p with
  | VDict d =>
      if truthy (identity_key d) then
        match hash_key (identity_key d) with Ok _ => true | Raise _ => false end
      else true
  | _ => false
  end.

(** [p] is a record whose identity key is usable and is [k]. *)
Definition derives (k : hkey) (p : value) : bool :=
  match p with
  | VDict d =>
      truthy (identity_key d) &&
      match hash_key (identity_key d) with
      | Ok k' => hkey_eqb k k'
      | Raise _ => false
      end
  | _ => false
  end.

(** The last record of the array that derives [k]. *)
Fixpoint last_with_key (k : hkey) (ps : list value) : option obj :=
  match ps with
  | [] => None
  | p :: ps' =>
      match last_with_key k ps' with
      | Some r => Some r
      | None =>
          match p with
          | VDict d => if derives k p then Some d else None
          | _ => None
          end
      end
  end.

Lemma load_items_NoDup (ps : list value) (acc d : products) :
  load_items ps acc = Ok d -> NoDup (dict_keys acc) -> NoDup (dict_keys d).
Proof.
  revert acc. induction ps as [|p ps IH]; simpl; intros acc H Hnd.
  - now injection H as <-.
  - destruct p as [| | | | |r]; try discriminate.
    destruct (truthy (identity_key r)); [|eauto].
    destruct (hash_key (identity_key r)) as [k0|]; [|discriminate].
    cbn [obind] in H. apply (IH _ H). now apply dict_set_NoDup.
Qed.

(** The dict that [load] returns has unique keys, whatever the document. *)
Lemma loaded_NoDup (f : file) : NoDup (dict_keys (loaded f)).
Proof.
  unfold loaded. destruct f; try constructor.
  destruct (load_body (Json v)) as [d|] eqn:Hb; [|constructor].
  unfold load_body in Hb. simpl in Hb.
  destruct (py_iter v) as [ps|]; [|discriminate]. simpl in Hb.
  apply (load_items_NoDup ps [] d Hb). constructor.
Qed.

Lemma load_items_last (ps : list value) (acc : products) :
  forallb is_record ps = true ->
  exists d : products,
    load_items ps acc = Ok d /\
    forall k : hkey,
      dict_get d k =
      match last_with_key k ps with
      | Some r => Some r
      | None => dict_get acc k
      end.
Proof.
  revert acc. induction ps as [|p ps IH]; simpl; intros acc Hrec.
  - exists acc. auto.
  - apply andb_true_iff in Hrec. destruct Hrec as [Hp Hps].
    destruct p as [| | | | |r]; try discriminate. simpl in Hp.
    destruct (truthy (identity_key r)) eqn:Ht.
    + destruct (hash_key (identity_key r)) as [k0|] eqn:Hk; [|discriminate].
      cbn [obind].
      destruct (IH (dict_set acc k0 r) Hps) as (d & Hd & Hget).
      exists d. split; [assumption|].
      intros k. rewrite Hget.
      destruct (last_with_key k ps); [reflexivity|].
      unfold derives. rewrite Ht, Hk. simpl.
      destruct (hkey_eqb k k0) eqn:E.
      * apply hkey_eqb_eq in E. subst. apply dict_get_set_same.
      * apply hkey_eqb_neq in E. now apply dict_get_set_other.
    + destruct (IH acc Hps) as (d & Hd & Hget).
      exists d. split; [assumption|].
      intros k. rewrite Hget. unfold derives. rewrite Ht. simpl.
      now destruct (last_with_key k ps).
Qed.

(** C10.  Whatever the document, the dict that [load] returns has unique
    keys.  When the document is an array of records, [load] returns,
    without a warning, a dict that holds under each identity key
    exactly one entry: the last record of the array that derives the
    key. *)
Theorem load_last_record_wins (f : file) (st : state) :
  let st' := set_disk f st in
  exists (d : products) (evs : list event),
    load_existing_products st' = Done (Ok d) st' evs /\
    NoDup (dict_keys d) /\
    forall ps : list value,
      f = Json (VList ps) ->
      forallb is_record ps = true ->
      evs = [] /\
      forall k : hkey,
        dict_get d k = last_with_key k ps /\
        List.length (entries_for k d) =
        match last_with_key k ps with Some _ => 1 | None => 0 end.
Proof.
  intros st'. exists (loaded f), (load_warning f).
  split; [apply (load_existing_products_run st')|].
  split; [apply loaded_NoDup|].
  intros ps -> Hrecords.
  destruct (load_items_last ps [] Hrecords) as (d & Hd & Hget).
  assert (Hbody : load_body (Json (VList ps)) = Ok d) by exact Hd.
  unfold loaded, load_warning. rewrite Hbody. split; [reflexivity|].
  intros k. assert (Hk : dict_get d k = last_with_key k ps).
  { rewrite Hget. now destruct (last_with_key k ps). }
  split; [assumption|].
  rewrite entries_for_NoDup, Hk; [reflexivity|].
  apply (load_items_NoDup ps [] d Hd). constructor.
Qed.

Definition st_empty : state :=
  {| skip_category_flag := false; quit_flag := false; listening := false;
     disk := Missing; clock := 0 |}.

Definition doc_with_duplicates : list value :=
  [ VDict [("id", VStr "a"); ("name", VStr "Milk"); ("price", VInt 1000)];
    VDict [("id", VStr "b"); ("name", VStr "Bread"); ("price", VInt 800)];
    VDict [("id", VStr "a"); ("name", VStr "Milk 1L"); ("price", VInt 1100)] ].

(** The document above holds two records with the key ["a"]: [load]
    keeps the second one. *)
Lemma load_last_record_wins_witness :
  exists d : products,
    load_existing_products (set_disk (Json (VList doc_with_duplicates)) st_empty)
      = Done (Ok d) (set_disk (Json (VList doc_with_duplicates)) st_empty) [] /\
    NoDup (dict_keys d) /\
    dict_get d (KStr "a") =
      Some [("id", VStr "a"); ("name", VStr "Milk 1L"); ("price", VInt 1100)] /\
    List.length (entries_for (KStr "a") d) = 1.
Proof.
  destruct (load_last_record_wins (Json (VList doc_with_duplicates)) st_empty)
    as (d & evs & Hrun & Hnd & Hlast).
  destruct (Hlast doc_with_duplicates eq_refl eq_refl) as [-> Hk].
  exists d. split; [exact Hrun|]. split; [exact Hnd|].
  exact (Hk (KStr "a")).
Defined.

(** ** Persistent store: save, then load *)

(** Every entry is stored under the hash of its record's identity key,
    and that key is usable. *)
Definition keyed_by_identity (d : products) : Prop :=
  forall (k : hkey) (r : obj),
    In (k, r) d ->
    truthy (identity_key r) = true /\ hash_key (identity_key r) = Ok k.

(** Where the derived key of the data model is a non-empty string, the
    code derives the same key. *)
Lemma identity_key_of_spec (r : obj) (s : string) :
  spec_identity_key r = VStr s -> s <> "" ->
  identity_key r = VStr s /\ truthy (identity_key r) = true.
Proof.
  unfold spec_identity_key, identity_key, py_or. intros H Hs.
  assert (Ht : truthy (VStr s) = true).
  { simpl. destruct (String.eqb_spec s ""); [contradiction|reflexivity]. }
  destruct (dget r "product_url" VNone) eqn:Hu; try discriminate.
  - simpl. rewrite H. auto.
  - injection H as ->. rewrite Ht. rewrite Ht. auto.
Qed.

Lemma load_items_values (d acc : products) :
  NoDup (dict_keys acc ++ dict_keys d) ->
  keyed_by_identity d ->
  load_items (map VDict (dict_values d)) acc = Ok (acc ++ d).
Proof.
  revert acc. induction d as [|[k r] d IH]; simpl; intros acc Hnd Hkey.
  - now rewrite app_nil_r.
  - destruct (Hkey k r (or_introl eq_refl)) as [Ht Hk].
    rewrite Ht, Hk. cbn [obind].
    assert (Hfresh : dict_mem acc k = false).
    { apply dict_mem_false_keys. intros Hin.
      apply NoDup_remove_2 in Hnd. apply Hnd.
      apply in_or_app. now left. }
    rewrite dict_set_fresh by assumption.
    rewrite IH.
    + now rewrite <- app_assoc.
    + unfold dict_keys in *. rewrite map_app. simpl.
      now rewrite <- app_assoc.
    + intros k' r' Hin. apply Hkey. now right.
Qed.

(** A collection as the round trip takes it: a dict (its keys are
    unique) in which the derived identity key of every value, its
    [product_url] if present and else its [id], is a non-empty string
    and is the key the value is stored under. *)
Definition valid_collection (d : products) : Prop :=
  NoDup (dict_keys d) /\
  forall (k : hkey) (r : obj),
    In (k, r) d ->
    exists s : string, spec_identity_key r = VStr s /\ s <> "" /\ k = KStr s.

Lemma valid_collection_keyed (d : products) :
  valid_collection d -> keyed_by_identity d.
Proof.
  intros [_ H] k r Hin. destruct (H k r Hin) as (s & Hs & Hne & ->).
  destruct (identity_key_of_spec r s Hs Hne) as [-> Ht]. auto.
Qed.

Lemma save_products_run (w : world) (d : products) (st : state) :
  write w (clock st) = Written ->
  exists (st1 : state) (evs : list event),
    save_products w d st = Done (Ok tt) st1 evs /\ disk st1 = dumped d.
Proof.
  intros Hw. unfold save_products, bind, block, emit, modify, print.
  destruct (monitor_keyboard (typed w (clock st)) st) as [st1 out].
  cbn. rewrite Hw. cbn. eauto.
Qed.

(** A world in which nothing happens: nobody types, every page is
    empty, the disk works, the browser starts. *)
Definition empty_view : page_view :=
  {| pv_goto := None; pv_products := Ok (VList []);
     pv_has_next := Ok (VBool false); pv_page_numbers := Ok (VDict []) |}.

Definition quiet_world : world :=
  {| typed := fun _ => []; browse := fun _ _ => empty_view;
     write := fun _ => Written;
     start_error := None; launch_error := None;
     new_page_error := None; close_error := None |}.

(** The same world with a disk that is full: the document can be
    opened for writing, which empties it, and the write then fails. *)
Definition full_disk_world : world :=
  {| typed := fun _ => []; browse := fun _ _ => empty_view;
     write := fun _ => DumpFailed;
     start_error := None; launch_error := None;
     new_page_error := None; close_error := None |}.

Definition milk_store : products :=
  [ (KStr "url/a",
     [("id", VStr "a"); ("name", VStr "Milk"); ("price", VInt 1000);
      ("product_url", VStr "url/a")]) ].

Lemma milk_store_valid : valid_collection milk_store.
Proof.
  split.
  - repeat constructor. simpl. tauto.
  - intros k r [H|[]]. injection H as <- <-.
    exists "url/a". repeat split. discriminate.
Qed.

(** C2, as stated, fails: [save] may raise.  When the write fails after
    the document was opened, [save] raises on a valid collection and
    leaves a document that [load] cannot parse: [load] then warns and
    returns the empty collection. *)
Lemma save_then_load_failed_write_counterexample :
  valid_collection milk_store /\
  exists (st1 : state) (evs : list event),
    save_products full_disk_world milk_store st_empty =
      Done (Raise OSError) st1 evs /\
    load_existing_products st1 =
      Done (Ok []) st1 [Print (CouldNotLoad JSONDecodeError)].
Proof.
  split; [exact milk_store_valid|].
  eexists. eexists. split; reflexivity.
Qed.

(** C2, amended.  [save] on a valid collection always returns to its
    caller, and it returns without an error exactly when the write
    succeeds; whenever it does, loading the document again gives the
    collection back: the same entries under the same keys, each record
    with the fields it had, in the same order.  A [save] that raises
    leaves the document as it was or unreadable. *)
Theorem save_then_load_round_trip (w : world) (d : products) (st : state)
    (Hvalid : valid_collection d) :
  exists (r : outcome unit) (st1 : state) (evs : list event),
    save_products w d st = Done r st1 evs /\
    (r = Ok tt <-> write w (clock st) = Written) /\
    (r = Ok tt -> load_existing_products st1 = Done (Ok d) st1 []) /\
    (r <> Ok tt -> disk st1 = disk st \/ disk st1 = Unparsable).
Proof.
  assert (Hbody : load_body (dumped d) = Ok d).
  { unfold load_body, dumped. simpl.
    apply (load_items_values d []).
    - simpl. apply Hvalid.
    - now apply valid_collection_keyed. }
  assert (Hd : disk (fst (monitor_keyboard (typed w (clock st)) st)) = disk st).
  { unfold monitor_keyboard.
    assert (H : forall input acc,
              disk (fst (fold_left monitor_step input acc)) = disk (fst acc)).
    { induction input as [|ev input IH]; simpl; intros acc; [reflexivity|].
      rewrite IH. destruct acc as [s out]. unfold monitor_step. simpl.
      destruct (listening s); [|reflexivity].
      destruct ev as [l|]; [|reflexivity].
      destruct (lower (strip l) =? "s"); [reflexivity|].
      destruct (lower (strip l) =? "q"); reflexivity. }
    apply H. }
  unfold save_products, bind, block, emit, modify, print, raise.
  destruct (monitor_keyboard (typed w (clock st)) st) as [st0 out].
  simpl in Hd.
  destruct (write w (clock st)) eqn:Hw; eexists _, _, _;
    (split; [reflexivity|]).
  - split; [tauto|]. split; [|intros H; now elim H].
    intros _. rewrite load_existing_products_run. cbn [disk set_disk].
    unfold loaded, load_warning. now rewrite Hbody.
  - split; [split; discriminate|]. split; [discriminate|]. intros _. now left.
  - split; [split; discriminate|]. split; [discriminate|]. intros _. now right.
Qed.

(** On a disk that works, the save of [milk_store] succeeds and the
    load gives it back. *)
Lemma save_then_load_round_trip_witness :
  valid_collection milk_store /\
  exists (st1 : state) (evs : list event),
    save_products quiet_world milk_store st_empty = Done (Ok tt) st1 evs /\
    load_existing_products st1 = Done (Ok milk_store) st1 [].
Proof.
  split; [exact milk_store_valid|].
  destruct (save_then_load_round_trip quiet_world milk_store st_empty
              milk_store_valid)
    as (r & st1 & evs & Hsave & Hok & Hload & _).
  assert (Hr : r = Ok tt) by (apply Hok; reflexivity).
  subst r. exists st1, evs. split; [exact Hsave | exact (Hload eq_refl)].
Defined.

(** ** The filter of the category crawlers *)

Lemma field_setitem_other (d : obj) (k k' : string) (v : value) :
  k' <> k -> field k' (setitem d k v) = field k' d.
Proof.
  intros Hne. induction d as [|[k0 v0] d IH]; simpl.
  - destruct (String.eqb_spec k' k); [contradiction|reflexivity].
  - destruct (String.eqb_spec k k0) as [->|Hk]; simpl.
    + destruct (String.eqb_spec k' k0); [contradiction|reflexivity].
    + now rewrite IH.
Qed.

Lemma dget_setitem_other (d : obj) (k k' : string) (v default : value) :
  k' <> k -> dget (setitem d k v) k' default = dget d k' default.
Proof. intros H. unfold dget. now rewrite field_setitem_other. Qed.

(** Stamping the category leaves the identity key and the filter's
    test as they were. *)
Lemma identity_key_stamp (d : obj) (v : value) :
  identity_key (setitem d "category" v) = identity_key d.
Proof.
  unfold identity_key. now rewrite !dget_setitem_other by discriminate.
Qed.

Lemma has_name_and_price_or_url_stamp (d : obj) (v : value) :
  Jumbo.has_name_and_price_or_url (setitem d "category" v) =
  Jumbo.has_name_and_price_or_url d.
Proof.
  unfold Jumbo.has_name_and_price_or_url.
  now rewrite !dget_setitem_other by discriminate.
Qed.

Lemma dict_set_In (d : products) (k0 k : hkey) (v r : obj) :
  In (k, r) (dict_set d k0 v) -> In (k, r) d \/ (k = k0 /\ r = v).
Proof.
  induction d as [|[k' v'] d IH]; simpl.
  - intros [H|[]]. injection H as <- <-. auto.
  - destruct (hkey_eqb k0 k') eqn:E; simpl.
    + apply hkey_eqb_eq in E. subst k'.
      intros [H|H]; [injection H as <- <-|]; auto.
    + intros [H|H]; [auto|]. destruct (IH H); auto.
Qed.

(** What the jumbo filter asks of a record before it adds it. *)
Definition jumbo_accepts (r : obj) : bool :=
  Jumbo.has_name_and_price_or_url r && truthy (identity_key r).


(** Every entry the jumbo filter adds is an accepted record, stored
    under its identity key, that was not known before. *)
Lemma jumbo_filter_adds (category_name : string) (existing_products : products)
    (ps : list value) (valid_products : list obj) (new_products : products) :
  forall (valid' : list obj) (new' : products) (failure : option exn),
    Jumbo.filter_products category_name existing_products ps
      valid_products new_products = (valid', new', failure) ->
    forall (k : hkey) (r : obj),
      In (k, r) new' ->
      In (k, r) new_products \/
      (jumbo_accepts r = true /\ hash_key (identity_key r) = Ok k /\
       dict_mem existing_products k = false).
Proof.
  revert valid_products new_products.
  induction ps as [|p ps IH]; simpl; intros valid np valid' new' failure H k r Hin.
  - injection H as <- <- <-. auto.
  - destruct p as [| | | | |d];
      try (injection H as <- <- <-; auto; fail).
    destruct (Jumbo.has_name_and_price_or_url d) eqn:Hn; [|eauto].
    destruct (truthy (identity_key d)) eqn:Ht; [|eauto].
    destruct (hash_key (identity_key d)) as [k0|e] eqn:Hk.
    + destruct (dict_mem existing_products k0) eqn:Hex; simpl in H; [eauto|].
      destruct (dict_mem np k0) eqn:Hnp; simpl in H; [eauto|].
      destruct (IH _ _ _ _ _ H k r Hin) as [Hold|Hnew]; [|auto].
      apply dict_set_In in Hold. destruct Hold as [Hold|[-> ->]]; [auto|].
      right. unfold jumbo_accepts.
      rewrite has_name_and_price_or_url_stamp, identity_key_stamp, Hn, Ht.
      auto.
    + injection H as <- <- <-. auto.
Qed.

Section UnimarcFilter.

Variable repr : value -> string.
Variable int_of_str : string -> option Z.

(** The key the unimarc crawler computes: [product_url or product_id]. *)
Definition unimarc_key (product : obj) : value :=
  py_or (Unimarc.product_url_of repr product) (Unimarc.product_id_of product).

(** The record the unimarc crawler builds has the crawler's key as its
    identity key. *)
Lemma unimarc_product_dict_key (category_name : string) (product : obj)
    (price price_original in_stock unit_price image_url promo_text : value)
    (d : obj) :
  Unimarc.product_dict repr int_of_str category_name product price price_original
    in_stock unit_price image_url promo_text = Ok d ->
  identity_key d = unimarc_key product.
Proof.
  unfold Unimarc.product_dict. intros H.
  destruct (Unimarc.int_or_none int_of_str (truthy price) price);
    [|discriminate].
  cbn [obind] in H.
  destruct (Unimarc.int_or_none int_of_str _ price_original);
    [|discriminate].
  cbn [obind] in H. injection H as <-. reflexivity.
Qed.

Lemma unimarc_convert_adds (category_name : string)
    (existing_products new_products : products) (product : obj)
    (k : hkey) (d : obj) :
  Unimarc.convert repr int_of_str category_name existing_products new_products
    product = Ok (Some (k, d)) ->
  identity_key d = unimarc_key product /\
  truthy (identity_key d) = true /\
  hash_key (identity_key d) = Ok k /\
  dict_mem existing_products k = false /\
  dict_mem new_products k = false.
Proof.
  unfold Unimarc.convert. intros H.
  destruct (Unimarc.seller_fields product) as [[[[price po] stock] unit]|];
    [|discriminate].
  cbn [obind] in H.
  destruct (Unimarc.first_image product) as [image|]; [|discriminate].
  cbn [obind] in H.
  destruct (Unimarc.promo_text_of product) as [promo|]; [|discriminate].
  cbn [obind] in H. fold (unimarc_key product) in H.
  destruct (truthy (unimarc_key product)) eqn:Ht; [|discriminate].
  destruct (hash_key (unimarc_key product)) as [k0|] eqn:Hk; [|discriminate].
  cbn [obind] in H.
  destruct (dict_mem existing_products k0) eqn:Hex; [discriminate|].
  destruct (dict_mem new_products k0) eqn:Hnp; [discriminate|].
  cbn [negb andb] in H.
  destruct (Unimarc.product_dict _ _ _ _ _ _ _ _ _ _) as [d0|] eqn:Hd;
    [|discriminate].
  cbn [obind] in H. injection H as <- <-.
  apply unimarc_product_dict_key in Hd. rewrite Hd. auto.
Qed.


(** Every entry the unimarc filter adds is stored under its identity
    key, which is usable and was not known before. *)
Lemma unimarc_filter_adds (category_name : string) (cap : nat)
    (existing_products : products)
    (ps : list value) (valid_products : list obj) (new_products : products) :
  forall (valid' : list obj) (new' : products) (failure : option exn),
    Unimarc.filter_products repr int_of_str category_name cap existing_products
      ps valid_products new_products = (valid', new', failure) ->
    forall (k : hkey) (r : obj),
      In (k, r) new' ->
      In (k, r) new_products \/
      (truthy (identity_key r) = true /\ hash_key (identity_key r) = Ok k /\
       dict_mem existing_products k = false).
Proof.
  revert valid_products new_products.
  induction ps as [|p ps IH]; simpl; intros valid np valid' new' failure H k r Hin.
  - injection H as <- <- <-. auto.
  - destruct (cap <=? List.length np)%nat; [injection H as <- <- <-; auto|].
    destruct p as [| | | | |d];
      try (injection H as <- <- <-; auto; fail).
    destruct (Unimarc.convert _ _ _ _ _ _) as [[[k0 d0]|]|e] eqn:Hc.
    + destruct (IH _ _ _ _ _ H k r Hin) as [Hold|Hnew]; [|auto].
      apply dict_set_In in Hold. destruct Hold as [Hold|[-> ->]]; [auto|].
      apply unimarc_convert_adds in Hc. right. tauto.
    + eauto.
    + injection H as <- <- <-. auto.
Qed.

End UnimarcFilter.

(** ** Reasoning about runs *)

(** [runs m st Q]: from [st] the computation [m] ends, and its result,
    final state and events satisfy [Q]. *)
Definition runs {A} (m : M A) (st : state)
    (Q : outcome A -> state -> list event -> Prop) : Prop :=
  match m st with
  | Diverge => False
  | Done r st' evs => Q r st' evs
  end.

Lemma runs_weaken {A} (m : M A) (st : state)
    (Q Q' : outcome A -> state -> list event -> Prop) :
  runs m st Q ->
  (forall r st' evs, Q r st' evs -> Q' r st' evs) ->
  runs m st Q'.
Proof. unfold runs. destruct (m st); auto. Qed.

Lemma runs_bind {A B} (m : M A) (f : A -> M B) (st : state)
    (Q : outcome B -> state -> list event -> Prop) :
  runs m st (fun r st1 evs1 =>
    match r with
    | Ok a => runs (f a) st1 (fun r2 st2 evs2 => Q r2 st2 (evs1 ++ evs2))
    | Raise e => Q (Raise e) st1 evs1
    end) ->
  runs (bind m f) st Q.
Proof.
  unfold runs, bind. destruct (m st) as [|[a|e] st1 evs1]; auto.
  destruct (f a st1); auto.
Qed.

Lemma runs_try_except {A} (m : M A) (st : state)
    (Q : outcome (outcome A) -> state -> list event -> Prop) :
  runs m st (fun r st1 evs =>
    match r with
    | Ok a => Q (Ok (Ok a)) st1 evs
    | Raise e =>
        if is_Exception e then Q (Ok (Raise e)) st1 evs
        else Q (Raise e) st1 evs
    end) ->
  runs (try_except m) st Q.
Proof.
  unfold runs, try_except. destruct (m st) as [|[a|e] st1 evs1]; auto.
  destruct (is_Exception e); auto.
Qed.

Lemma runs_ret {A} (a : A) (st : state)
    (Q : outcome A -> state -> list event -> Prop) :
  Q (Ok a) st [] -> runs (ret a) st Q.
Proof. auto. Qed.

Lemma runs_lift {A} (x : outcome A) (st : state)
    (Q : outcome A -> state -> list event -> Prop) :
  Q x st [] -> runs (lift x) st Q.
Proof. destruct x; auto. Qed.

(** The events the crawl properties speak of: page loads, the count of
    new products of a page, and the skip of a category. *)
Definition relevant (e : event) : bool :=
  match e with
  | Goto _ => true
  | Print (Found _ _ _) => true
  | Print (SkippingCategory _) => true
  | _ => false
  end.

Definition marks (evs : list event) : list event := filter relevant evs.

(** The URLs loaded, in order. *)
Definition gotos (evs : list event) : list string :=
  flat_map (fun e => match e with Goto url => [url] | _ => [] end) evs.

Lemma marks_app (a b : list event) : marks (a ++ b) = marks a ++ marks b.
Proof. apply filter_app. Qed.

Lemma gotos_app (a b : list event) : gotos (a ++ b) = gotos a ++ gotos b.
Proof. apply flat_map_app. Qed.

Lemma gotos_marks (evs : list event) : gotos (marks evs) = gotos evs.
Proof.
  induction evs as [|e evs IH]; simpl; [reflexivity|].
  destruct e as [m| | | | | | | |]; simpl; try rewrite IH; try reflexivity.
  destruct m; simpl; now rewrite IH.
Qed.

Lemma In_marks (e : event) (evs : list event) :
  relevant e = true -> In e evs -> In e (marks evs).
Proof. intros H Hin. apply filter_In. auto. Qed.

(** [quiet m]: [m] ends from every state and produces no relevant event. *)
Definition quiet {A} (m : M A) : Prop :=
  forall st, runs m st (fun _ _ evs => marks evs = []).

Lemma quiet_bind {A B} (m : M A) (f : A -> M B) :
  quiet m -> (forall a, quiet (f a)) -> quiet (bind m f).
Proof.
  intros Hm Hf st. apply runs_bind. eapply runs_weaken; [apply Hm|].
  intros [a|e] st1 evs1 H1; [|assumption].
  eapply runs_weaken; [apply Hf|]. cbv beta. intros _ _ evs2 H2.
  now rewrite marks_app, H1, H2.
Qed.

Lemma quiet_ret {A} (a : A) : quiet (ret a).
Proof. intros st. reflexivity. Qed.

Lemma quiet_raise {A} (e : exn) : quiet (@raise A e).
Proof. intros st. reflexivity. Qed.

Lemma quiet_lift {A} (x : outcome A) : quiet (lift x).
Proof. destruct x; [apply quiet_ret | apply quiet_raise]. Qed.

Lemma quiet_gets {A} (f : state -> A) : quiet (gets f).
Proof. intros st. reflexivity. Qed.

Lemma quiet_modify (f : state -> state) : quiet (modify f).
Proof. intros st. reflexivity. Qed.

Lemma quiet_emit (e : event) : relevant e = false -> quiet (emit e).
Proof. intros H st. unfold runs, emit, marks. simpl. now rewrite H. Qed.

Lemma quiet_fail_if (e : option exn) : quiet (fail_if e).
Proof. destruct e; [apply quiet_raise | apply quiet_ret]. Qed.

Lemma quiet_try_except {A} (m : M A) : quiet m -> quiet (try_except m).
Proof.
  intros Hm st. apply runs_try_except. eapply runs_weaken; [apply Hm|].
  intros [a|e] st1 evs H; [assumption|]. now destruct (is_Exception e).
Qed.

Lemma monitor_keyboard_marks (input : list stdin_event) (st : state) :
  marks (snd (monitor_keyboard input st)) = [].
Proof.
  unfold monitor_keyboard.
  assert (H : forall acc, marks (snd acc) = [] ->
                marks (snd (fold_left monitor_step input acc)) = []).
  { induction input as [|ev input IH]; simpl; intros acc Hacc; [assumption|].
    apply IH. destruct acc as [s out]. unfold monitor_step. simpl in *.
    destruct (listening s); [|assumption].
    destruct ev as [l|]; [|assumption].
    destruct (lower (strip l) =? "s");
      [simpl; now rewrite marks_app, Hacc|].
    destruct (lower (strip l) =? "q");
      [simpl; now rewrite marks_app, Hacc|assumption]. }
  now apply H.
Qed.

Lemma quiet_block (w : world) : quiet (block w).
Proof.
  intros st. unfold runs, block.
  pose proof (monitor_keyboard_marks (typed w (clock st)) st) as H.
  destruct (monitor_keyboard (typed w (clock st)) st). exact H.
Qed.

Lemma quiet_sleep (w : world) : quiet (sleep w).
Proof.
  apply quiet_bind; [apply quiet_block|]. intros _. now apply quiet_emit.
Qed.

Lemma quiet_load_existing_products : quiet load_existing_products.
Proof.
  intros st. unfold runs. rewrite load_existing_products_run.
  unfold load_warning. destruct (disk st); try reflexivity.
  now destruct (load_body (Json v)).
Qed.

Lemma quiet_save_products (w : world) (d : products) : quiet (save_products w d).
Proof.
  unfold save_products.
  apply quiet_bind; [apply quiet_block|]. intros t.
  apply quiet_bind; [now apply quiet_emit|]. intros _.
  apply quiet_bind.
  - destruct (write w t); [apply quiet_modify | apply quiet_raise |].
    apply quiet_bind; [apply quiet_modify | intros _; apply quiet_raise].
  - intros _. now apply quiet_emit.
Qed.

Lemma quiet_append_to_json (w : world) (n : nat) (d : products) :
  quiet (append_to_json w n d).
Proof.
  unfold append_to_json.
  apply quiet_bind; [apply quiet_load_existing_products|]. intros c.
  apply quiet_bind; [apply quiet_save_products|]. intros _.
  now apply quiet_emit.
Qed.

Lemma quiet_on_page_error (page_num : nat) (e : exn) :
  quiet (on_page_error page_num e).
Proof.
  unfold on_page_error. destruct (is_timeout e); now apply quiet_emit.
Qed.

Lemma runs_emit {B} (e : event) (k : M B) (st : state)
    (Q : outcome B -> state -> list event -> Prop) :
  runs k st (fun r st' evs => Q r st' (e :: evs)) ->
  runs (bind (emit e) (fun _ => k)) st Q.
Proof. unfold runs, bind, emit. destruct (k st); auto. Qed.

(** [m] is quiet and returns only values that satisfy [P]. *)
Definition quietly {A} (m : M A) (P : A -> Prop) : Prop :=
  forall st, runs m st (fun r _ evs => marks evs = [] /\ forall a, r = Ok a -> P a).

Lemma quietly_bind {A B} (m : M A) (f : A -> M B) (P : B -> Prop) :
  quiet m -> (forall a, quietly (f a) P) -> quietly (bind m f) P.
Proof.
  intros Hm Hf st. apply runs_bind. eapply runs_weaken; [apply Hm|].
  intros [a|e] st1 evs1 H1; [|split; [assumption|discriminate]].
  eapply runs_weaken; [apply Hf|]. cbv beta. intros r _ evs2 [H2 HP].
  split; [now rewrite marks_app, H1, H2 | assumption].
Qed.

Lemma quietly_any {A} (m : M A) (P : A -> Prop) :
  quiet m -> (forall a, P a) -> quietly m P.
Proof.
  intros Hm HP st. eapply runs_weaken; [apply Hm|]. cbv beta. auto.
Qed.

Lemma quietly_ret {A} (a : A) (P : A -> Prop) : P a -> quietly (ret a) P.
Proof.
  intros HP st. split; [reflexivity|]. intros a' H. injection H as <-. exact HP.
Qed.

(** ** The page loop *)

Section PageLoop.

Variable page_url : nat -> string.
Variable category_name : string.
Variable max_pages : nat.

(** What the crawler asks of an entry it adds. *)
Variable accepts : hkey -> obj -> Prop.

Definition entries_ok (old new : products) : Prop :=
  forall (k : hkey) (r : obj), In (k, r) new -> In (k, r) old \/ accepts k r.

Lemma entries_ok_refl (d : products) : entries_ok d d.
Proof. intros k r H. auto. Qed.

Lemma entries_ok_trans (a b c : products) :
  entries_ok a b -> entries_ok b c -> entries_ok a c.
Proof.
  intros Hab Hbc k r H. destruct (Hbc k r H) as [H'|H']; auto.
Qed.

(** One turn of the loop at page [p]: it either honours the skip flag,
    or stops without a count of new products (an error, a cap), or loads
    the page and prints the count; it goes round again only after a
    page that was the first or had new products. *)
Definition turn_post (p : nat) (np : products)
    (r : outcome (ctl * (nat * products))) (st' : state) (evs : list event)
  : Prop :=
  (forall c loc, r = Ok (c, loc) -> entries_ok np (snd loc)) /\
  ((marks evs = [Print (SkippingCategory category_name)] /\
    skip_category_flag st' = false /\ exists loc, r = Ok (Break, loc)) \/
   ((marks evs = [] \/ marks evs = [Goto (page_url p)]) /\
    forall loc, r <> Ok (Continue, loc)) \/
   (exists n t,
      marks evs = [Goto (page_url p); Print (Found n p t)] /\
      forall loc, r = Ok (Continue, loc) ->
                  fst loc = p + 1 /\ ~ (n = 0 /\ 1 < p))).

Variable body : nat * products -> M (ctl * (nat * products)).

Hypothesis body_turn :
  forall p np st, runs (body (p, np)) st (turn_post p np).

(** The loop from page [p]: it loads the pages [p], [p+1], ... up to
    some page, at most as far as the cap. *)
Definition loop_post (p : nat) (np : products)
    (r : outcome (nat * products)) (st' : state) (evs : list event) : Prop :=
  exists m : nat,
    gotos evs = map page_url (seq p m) /\
    p + m <= max_pages + 1 /\
    (forall N t, 1 < N -> In (Print (Found 0 N t)) evs -> p + m = N + 1) /\
    (forall N, p <= N -> N + 1 < p + m ->
               exists n t, In (Print (Found n N t)) evs /\ (1 < N -> 0 < n)) /\
    (In (Print (SkippingCategory category_name)) evs ->
     p + m <= max_pages /\ skip_category_flag st' = false) /\
    (forall loc, r = Ok loc -> entries_ok np (snd loc)).

Lemma turn_gotos (evs : list event) (l : list event) :
  marks evs = l -> gotos evs = gotos l.
Proof. intros <-. symmetry. apply gotos_marks. Qed.

Lemma In_marks_of (e : event) (evs l : list event) :
  relevant e = true -> marks evs = l -> In e evs -> In e l.
Proof. intros He <- Hin. now apply In_marks. Qed.

(** From [Hin : In e evs] for a relevant [e] and [Hm : marks evs = l],
    with [l] a literal list: [e] is one of the elements of [l]. *)
Ltac mark_cases Hm Hin :=
  eapply In_marks_of in Hin; [ | reflexivity | exact Hm ]; simpl in Hin;
  repeat (destruct Hin as [Hin|Hin]; try discriminate Hin);
  try contradiction.

Lemma turn_stops (p : nat) (np : products)
    (r : outcome (ctl * (nat * products))) (st1 : state) (evs1 : list event) :
  p <= max_pages ->
  turn_post p np r st1 evs1 ->
  (forall loc, r <> Ok (Continue, loc)) ->
  loop_post p np
    (match r with Ok (_, loc) => Ok loc | Raise e => Raise e end) st1 evs1.
Proof.
  intros Hle [Hent Hturn] Hnc.
  assert (Hent' : forall loc,
            match r with Ok (_, loc) => Ok loc | Raise e => Raise e end = Ok loc ->
            entries_ok np (snd loc)).
  { destruct r as [[c loc]|e]; intros loc' H; [|discriminate].
    injection H as <-. now apply (Hent c loc). }
  destruct Hturn as [(Hm & Hflag & _)|[([Hm|Hm] & _)|(n & t & Hm & _)]].
  - exists 0. rewrite (turn_gotos evs1 _ Hm).
    split; [reflexivity|]. split; [lia|]. split; [|split; [intros; lia|]].
    2: split; [|exact Hent'].
    + intros N t _ Hin. mark_cases Hm Hin.
    + intros _. split; [lia|assumption].
  - exists 0. rewrite (turn_gotos evs1 _ Hm).
    split; [reflexivity|]. split; [lia|]. split; [|split; [intros; lia|]].
    2: split; [|exact Hent'].
    + intros N t _ Hin. mark_cases Hm Hin.
    + intros Hin. mark_cases Hm Hin.
  - exists 1. rewrite (turn_gotos evs1 _ Hm).
    split; [reflexivity|]. split; [lia|]. split; [|split; [intros; lia|]].
    2: split; [|exact Hent'].
    + intros N t _ Hin. mark_cases Hm Hin.
    + intros Hin. mark_cases Hm Hin.
  - exists 1. rewrite (turn_gotos evs1 _ Hm).
    split; [reflexivity|]. split; [lia|]. split; [|split; [intros; lia|]].
    2: split; [|exact Hent'].
    + intros N t' _ Hin. mark_cases Hm Hin. injection Hin as _ -> _. lia.
    + intros Hin. mark_cases Hm Hin.
Qed.

Lemma page_loop_runs (fuel : nat) :
  forall (p : nat) (np : products) (st : state),
    p <= max_pages + 1 ->
    max_pages + 1 - p < fuel ->
    runs (while_loop fuel (fun loc => (fst loc <=? max_pages)%nat) body (p, np))
      st (loop_post p np).
Proof.
  induction fuel as [|fuel IH]; intros p np st Hp Hfuel; [lia|].
  cbn [while_loop fst].
  destruct (Nat.leb_spec p max_pages) as [Hle|Hgt].
  2:{ apply runs_ret. exists 0. simpl.
      split; [reflexivity|]. split; [lia|]. split; [tauto|].
      split; [intros; lia|]. split; [tauto|].
      intros loc H. injection H as <-. apply entries_ok_refl. }
  apply runs_bind. eapply runs_weaken; [apply body_turn|].
  intros r st1 evs1 Hpost.
  pose proof (turn_stops p np r st1 evs1 Hle Hpost) as Hstop.
  destruct Hpost as [Hent Hturn].
  destruct r as [[[|] [p1 np1]]|e].
  - (* the loop goes round again *)
    destruct Hturn as [(_ & _ & loc & H)|[(_ & H)|(n & t & Hm & Hc)]];
      [discriminate | now elim (H (p1, np1)) |].
    destruct (Hc _ eq_refl) as [Hp1 Hn]. simpl in Hp1. subst p1.
    eapply runs_weaken; [apply (IH (p + 1) np1 st1); lia|].
    cbv beta. intros r2 st2 evs2 (m & Hg & Hm2 & Hfound & Hpos & Hskip & Hent2).
    exists (S m). rewrite gotos_app, (turn_gotos evs1 _ Hm), Hg. simpl.
    replace (S p) with (p + 1) by lia.
    split; [reflexivity|]. split; [lia|]. split; [|split; [|split]].
    + intros N t' HN Hin. apply in_app_or in Hin. destruct Hin as [Hin|Hin].
      * mark_cases Hm Hin. injection Hin as -> -> _. elim Hn. lia.
      * specialize (Hfound N t' HN Hin). lia.
    + intros N HpN HN. destruct (Nat.eq_dec N p) as [->|Hne].
      * exists n, t. split; [|lia].
        apply in_or_app. left.
        assert (Hin : In (Print (Found n p t)) (marks evs1))
          by (rewrite Hm; simpl; tauto).
        apply filter_In in Hin. tauto.
      * destruct (Hpos N ltac:(lia) ltac:(lia)) as (n' & t' & Hin & Hn').
        exists n', t'. split; [|exact Hn']. apply in_or_app. now right.
    + intros Hin. apply in_app_or in Hin. destruct Hin as [Hin|Hin].
      * mark_cases Hm Hin.
      * apply Hskip in Hin. split; [lia|tauto].
    + intros loc H. eapply entries_ok_trans; [eapply (Hent _ _ eq_refl)|].
      now apply Hent2.
  - (* break *)
    apply runs_ret. rewrite app_nil_r. apply Hstop. discriminate.
  - (* an exception that is not an Exception *)
    apply Hstop. discriminate.
Qed.

End PageLoop.

Lemma marked_bind {A B} (m : M A) (f : A -> M B) (ms : list event) (st : state) :
  runs m st (fun _ _ evs => marks evs = ms) ->
  (forall a, quiet (f a)) ->
  runs (bind m f) st (fun _ _ evs => marks evs = ms).
Proof.
  intros Hm Hf. apply runs_bind. eapply runs_weaken; [exact Hm|].
  intros [a|e] st1 evs1 H1; [|assumption].
  eapply runs_weaken; [apply Hf|]. cbv beta. intros _ _ evs2 H2.
  now rewrite marks_app, H1, H2, app_nil_r.
Qed.

Lemma marked_emit {B} (e : event) (k : M B) (P : B -> Prop) (st : state) :
  relevant e = true ->
  quietly k P ->
  runs (bind (emit e) (fun _ => k)) st
    (fun r _ evs => marks evs = [e] /\ forall a, r = Ok a -> P a).
Proof.
  intros He Hk. apply runs_emit. eapply runs_weaken; [apply Hk|].
  cbv beta. intros r _ evs [Hm HP]. split; [|assumption].
  unfold marks in *. simpl. now rewrite He, Hm.
Qed.

Lemma goto_marks (w : world) (url : string) (st : state) :
  runs (goto w url) st (fun _ _ evs => marks evs = [Goto url]).
Proof.
  unfold goto.
  eapply runs_weaken.
  - apply (marked_emit (Goto url) _ (fun _ => True)); [reflexivity|].
    apply quietly_any; [|auto].
    apply quiet_bind; [apply quiet_block|]. intros t.
    apply quiet_bind; [apply quiet_fail_if|]. intros _. apply quiet_ret.
  - cbv beta. tauto.
Qed.

(** ** The jumbo crawler, one page *)

Section JumboTurn.

Variable w : world.
Variables category_url category_name : string.
Variable existing_products : products.

Definition jumbo_adds (k : hkey) (r : obj) : Prop :=
  jumbo_accepts r = true /\ hash_key (identity_key r) = Ok k /\
  dict_mem existing_products k = false.

Lemma jumbo_fetch_marks (p : nat) (st : state) :
  runs (print (LoadingPage p) ;;
        pv <- goto w (Jumbo.page_url category_url p) ;;
        products <- lift (pv_products pv) ;;
        ps <- lift (py_iter products) ;;
        ret (pv, ps)) st
    (fun _ _ evs => marks evs = [Goto (Jumbo.page_url category_url p)]).
Proof.
  unfold print. apply runs_emit.
  eapply runs_weaken.
  - apply marked_bind; [apply goto_marks|]. intros pv.
    apply quiet_bind; [apply quiet_lift|]. intros products.
    apply quiet_bind; [apply quiet_lift|]. intros ps. apply quiet_ret.
  - cbv beta. intros _ _ evs H. exact H.
Qed.

Lemma quiet_on_last_page (pv : page_view) (p : nat) :
  quiet (Jumbo.on_last_page pv p).
Proof.
  unfold Jumbo.on_last_page.
  apply quiet_bind; [apply quiet_lift|]. intros page_numbers.
  apply quiet_bind; [apply quiet_lift|]. intros current.
  destruct (truthy current); [|apply quiet_ret].
  apply quiet_bind; [apply quiet_lift|]. intros total.
  destruct (truthy total); [|apply quiet_ret].
  apply quiet_bind; [apply quiet_lift|]. intros total'. apply quiet_lift.
Qed.

(** After the filter the crawler prints the count of new products, and
    goes on to the next page only if the page was the first or had some. *)
Lemma jumbo_after_filter_runs (pv : page_view) (p : nat)
    (valid_products : list obj) (new_products : products) (st : state) :
  runs (Jumbo.after_filter w pv p valid_products new_products) st
    (fun r _ evs =>
       marks evs = [Print (Found (List.length valid_products) p None)] /\
       forall c, r = Ok c ->
                 c = Continue -> ~ (List.length valid_products = 0 /\ 1 < p)).
Proof.
  unfold Jumbo.after_filter, print. apply marked_emit; [reflexivity|].
  apply quietly_bind.
  { destruct (nonempty valid_products);
      [apply quiet_append_to_json | apply quiet_ret]. }
  intros _. apply quietly_bind; [apply quiet_lift|]. intros has_next.
  destruct valid_products as [|v vs]; simpl.
  - destruct (Nat.ltb_spec 1 p) as [Hp|Hp].
    + apply quietly_bind; [now apply quiet_emit|]. intros _.
      apply quietly_ret. discriminate.
    + apply quietly_any; [|intros c _ [_ H]; lia].
      apply quiet_bind.
      { destruct (negb (truthy has_next));
          [apply quiet_on_last_page | apply quiet_ret]. }
      intros last. destruct last; [apply quiet_ret|].
      apply quiet_bind; [apply quiet_sleep | intros _; apply quiet_ret].
  - apply quietly_any; [|intros c _ [H _]; discriminate].
    apply quiet_bind.
    { destruct (negb (truthy has_next));
        [apply quiet_on_last_page | apply quiet_ret]. }
    intros last. destruct last; [apply quiet_ret|].
    apply quiet_bind; [apply quiet_sleep | intros _; apply quiet_ret].
Qed.

End JumboTurn.

Lemma runs_on_page_error {A} (page_num : nat) (e : exn) (x : A) (st : state)
    (Q : outcome A -> state -> list event -> Prop) :
  (forall evs, marks evs = [] -> Q (Ok x) st evs) ->
  runs (on_page_error page_num e ;; ret x) st Q.
Proof.
  intros H. unfold runs, bind, on_page_error, print, emit, ret.
  destruct (is_timeout e); apply H; reflexivity.
Qed.

Section JumboCrawl.

Variable w : world.
Variables category_url category_name : string.
Variable existing_products : products.

Lemma jumbo_scrape_page_turn (p : nat) (np : products) (st : state) :
  runs (Jumbo.scrape_page w category_url category_name existing_products (p, np)) st
    (turn_post (Jumbo.page_url category_url) category_name
       (jumbo_adds existing_products) p np).
Proof.
  unfold Jumbo.scrape_page. apply runs_bind. unfold runs at 1, gets.
  destruct (skip_category_flag st) eqn:Hs.
  - unfold runs, bind, print, emit, modify, ret. simpl.
    split.
    + intros c loc H. injection H as _ <-. apply entries_ok_refl.
    + left. eauto.
  - apply runs_bind. apply runs_try_except.
    eapply runs_weaken; [apply jumbo_fetch_marks|].
    intros r st1 evs1 Hm. destruct r as [[pv ps]|e].
    + destruct (Jumbo.filter_products category_name existing_products ps [] np)
        as [[valid np'] failure] eqn:Hf.
      assert (Hent : entries_ok (jumbo_adds existing_products) np np').
      { intros k r Hin.
        exact (jumbo_filter_adds _ _ _ _ _ _ _ _ Hf k r Hin). }
      destruct failure as [e|].
      * unfold caught. destruct (is_Exception e).
        -- apply runs_on_page_error. intros evs He. split.
           ++ intros c loc H. injection H as _ <-. exact Hent.
           ++ right. left. split; [|discriminate].
              right. simpl. now rewrite !marks_app, Hm, He.
        -- split; [discriminate|]. right. left. split; [|discriminate].
           right. simpl. now rewrite !marks_app, Hm.
      * apply runs_bind. apply runs_try_except.
        eapply runs_weaken; [apply jumbo_after_filter_runs|].
        intros r2 st2 evs2 [Hm2 Hc].
        assert (Hmarks : forall evs, marks evs = [] ->
                  marks ([] ++ evs1 ++ evs2 ++ evs) =
                  [Goto (Jumbo.page_url category_url p);
                   Print (Found (List.length valid) p None)]).
        { intros evs He. simpl. now rewrite !marks_app, Hm, Hm2, He. }
        destruct r2 as [[|]|e].
        -- apply runs_ret. split.
           ++ intros c loc H. injection H as _ <-. exact Hent.
           ++ right. right. exists (List.length valid), None.
              split; [now apply Hmarks|].
              intros loc H. injection H as <-. simpl. split; [reflexivity|].
              now apply (Hc Continue).
        -- apply runs_ret. split.
           ++ intros c loc H. injection H as _ <-. exact Hent.
           ++ right. right. exists (List.length valid), None.
              split; [now apply Hmarks|]. discriminate.
        -- destruct (is_Exception e).
           ++ apply runs_on_page_error. intros evs He. split.
              ** intros c loc H. injection H as _ <-. exact Hent.
              ** right. right. exists (List.length valid), None.
                 split; [now apply Hmarks|]. discriminate.
           ++ split; [discriminate|].
              right. right. exists (List.length valid), None.
              split; [|discriminate].
              rewrite <- (app_nil_r evs2). now apply Hmarks.
    + destruct (is_Exception e).
      * apply runs_on_page_error. intros evs He. split.
        -- intros c loc H. injection H as _ <-. apply entries_ok_refl.
        -- right. left. split; [|discriminate].
           right. simpl. now rewrite !marks_app, Hm, He.
      * split; [discriminate|]. right. left. split; [|discriminate].
        right. simpl. exact Hm.
Qed.

(** The whole crawl of a category: for every world and from every
    state, with fuel above the page cap, it ends; it loads pages 1, 2,
    ... and at most [max_pages] of them. *)
Lemma jumbo_crawl_runs (fuel : nat) (st : state) :
  Jumbo.max_pages < fuel ->
  runs (Jumbo.scrape_category_products w category_url category_name
          existing_products fuel) st
    (fun r st' evs =>
       loop_post (Jumbo.page_url category_url) category_name Jumbo.max_pages
         (jumbo_adds existing_products) 1 []
         (match r with Ok d => Ok (0, d) | Raise e => Raise e end) st' evs).
Proof.
  intros Hfuel. unfold Jumbo.scrape_category_products, print.
  apply runs_emit. apply runs_emit. apply runs_bind.
  eapply runs_weaken.
  - apply (page_loop_runs (Jumbo.page_url category_url) category_name
             Jumbo.max_pages (jumbo_adds existing_products)
             (Jumbo.scrape_page w category_url category_name existing_products)
             jumbo_scrape_page_turn fuel 1 [] st); lia.
  - cbv beta. intros r st1 evs1 (m & Hg & Hm & Hfound & Hpos & Hskip & Hent).
    assert (Hpost : forall r',
              (forall loc, r' = Ok loc -> exists loc0, r = Ok loc0 /\ snd loc0 = snd loc) ->
              loop_post (Jumbo.page_url category_url) category_name Jumbo.max_pages
                (jumbo_adds existing_products) 1 [] r' st1
                (Print (ScrapingCategory category_name category_url)
                   :: Print Tip :: evs1)).
    { intros r' Hr'. exists m. split; [exact Hg|]. split; [exact Hm|].
      split; [|split; [|split]].
      - intros N t HN [H|[H|H]]; try discriminate. eauto.
      - intros N HpN HN. destruct (Hpos N HpN HN) as (n & t & Hin & Hn).
        exists n, t. split; [|exact Hn]. right. right. exact Hin.
      - intros [H|[H|H]]; try discriminate. auto.
      - intros loc H. destruct (Hr' loc H) as (loc0 & -> & <-). now apply Hent. }
    destruct r as [loc|e].
    + apply runs_ret. rewrite app_nil_r. apply Hpost.
      intros loc' H. injection H as <-. eauto.
    + apply Hpost. discriminate.
Qed.

End JumboCrawl.

(** ** The unimarc crawler *)

Lemma runs_unimarc_on_page_error {A} (page_num : nat) (e : exn) (x : A)
    (st : state) (Q : outcome A -> state -> list event -> Prop) :
  (forall evs, marks evs = [] -> Q (Ok x) st evs) ->
  runs (Unimarc.on_page_error page_num e ;; ret x) st Q.
Proof.
  intros H. unfold runs, bind, Unimarc.on_page_error, print, emit, ret.
  destruct (is_timeout e); apply H; reflexivity.
Qed.

Section UnimarcCrawl.

Variable repr : value -> string.
Variable int_of_str : string -> option Z.
Variable w : world.
Variables category_url category_name : string.
Variable existing_products : products.
Variable max_products_per_category : nat.

Definition unimarc_adds (k : hkey) (r : obj) : Prop :=
  truthy (identity_key r) = true /\ hash_key (identity_key r) = Ok k /\
  dict_mem existing_products k = false.

Lemma unimarc_fetch_marks (p : nat) (st : state) :
  runs (print (LoadingPage p) ;;
        pv <- goto w (Unimarc.page_url category_url p) ;;
        products_data <- lift (pv_products pv) ;;
        lift (py_iter products_data)) st
    (fun _ _ evs => marks evs = [Goto (Unimarc.page_url category_url p)]).
Proof.
  unfold print. apply runs_emit.
  eapply runs_weaken.
  - apply marked_bind; [apply goto_marks|]. intros pv.
    apply quiet_bind; [apply quiet_lift|]. intros products. apply quiet_lift.
  - cbv beta. intros _ _ evs H. exact H.
Qed.

Lemma unimarc_after_filter_runs (p : nat)
    (valid_products : list obj) (new_products : products) (st : state) :
  runs (Unimarc.after_filter w max_products_per_category p valid_products
          new_products) st
    (fun r _ evs =>
       marks evs = [Print (Found (List.length valid_products) p
                             (Some (List.length new_products)))] /\
       forall c, r = Ok c ->
                 c = Continue -> ~ (List.length valid_products = 0 /\ 1 < p)).
Proof.
  unfold Unimarc.after_filter, print. apply marked_emit; [reflexivity|].
  apply quietly_bind.
  { destruct (nonempty valid_products);
      [apply quiet_append_to_json | apply quiet_ret]. }
  intros _.
  assert (Hrest : quiet
    (if (max_products_per_category <=? List.length new_products)%nat
     then emit (Print (ReachedMaximum max_products_per_category)) ;; ret Break
     else sleep w ;; ret Continue)).
  { destruct (max_products_per_category <=? List.length new_products)%nat.
    - apply quiet_bind; [now apply quiet_emit | intros _; apply quiet_ret].
    - apply quiet_bind; [apply quiet_sleep | intros _; apply quiet_ret]. }
  destruct valid_products as [|v vs]; simpl.
  - destruct (Nat.ltb_spec 1 p) as [Hp|Hp].
    + apply quietly_bind; [now apply quiet_emit|]. intros _.
      apply quietly_ret. discriminate.
    + apply quietly_any; [exact Hrest | intros c _ [_ H]; lia].
  - apply quietly_any; [exact Hrest | intros c _ [H _]; discriminate].
Qed.

Lemma unimarc_scrape_page_turn (p : nat) (np : products) (st : state) :
  runs (Unimarc.scrape_page repr int_of_str w category_url category_name
          existing_products max_products_per_category (p, np)) st
    (turn_post (Unimarc.page_url category_url) category_name unimarc_adds p np).
Proof.
  unfold Unimarc.scrape_page. apply runs_bind. unfold runs at 1, gets.
  destruct (skip_category_flag st) eqn:Hs.
  - unfold runs, bind, print, emit, modify, ret. simpl.
    split.
    + intros c loc H. injection H as _ <-. apply entries_ok_refl.
    + left. eauto.
  - destruct (max_products_per_category <=? List.length np)%nat.
    { unfold runs, bind, print, emit, ret. simpl. split.
      - intros c loc H. injection H as _ <-. apply entries_ok_refl.
      - right. left. split; [auto|discriminate]. }
    apply runs_bind. apply runs_try_except.
    eapply runs_weaken; [apply unimarc_fetch_marks|].
    intros r st1 evs1 Hm. destruct r as [ps|e].
    + destruct (Unimarc.filter_products repr int_of_str category_name
                  max_products_per_category existing_products ps [] np)
        as [[valid np'] failure] eqn:Hf.
      assert (Hent : entries_ok unimarc_adds np np').
      { intros k r Hin.
        exact (unimarc_filter_adds _ _ _ _ _ _ _ _ _ _ _ Hf k r Hin). }
      destruct failure as [e|].
      * unfold caught. destruct (is_Exception e).
        -- apply runs_unimarc_on_page_error. intros evs He. split.
           ++ intros c loc H. injection H as _ <-. exact Hent.
           ++ right. left. split; [|discriminate].
              right. simpl. now rewrite !marks_app, Hm, He.
        -- split; [discriminate|]. right. left. split; [|discriminate].
           right. simpl. now rewrite !marks_app, Hm.
      * apply runs_bind. apply runs_try_except.
        eapply runs_weaken; [apply unimarc_after_filter_runs|].
        intros r2 st2 evs2 [Hm2 Hc].
        assert (Hmarks : forall evs, marks evs = [] ->
                  marks ([] ++ evs1 ++ evs2 ++ evs) =
                  [Goto (Unimarc.page_url category_url p);
                   Print (Found (List.length valid) p
                            (Some (List.length np')))]).
        { intros evs He. simpl. now rewrite !marks_app, Hm, Hm2, He. }
        destruct r2 as [[|]|e].
        -- apply runs_ret. split.
           ++ intros c loc H. injection H as _ <-. exact Hent.
           ++ right. right. exists (List.length valid), (Some (List.length np')).
              split; [now apply Hmarks|].
              intros loc H. injection H as <-. simpl. split; [reflexivity|].
              now apply (Hc Continue).
        -- apply runs_ret. split.
           ++ intros c loc H. injection H as _ <-. exact Hent.
           ++ right. right. exists (List.length valid), (Some (List.length np')).
              split; [now apply Hmarks|]. discriminate.
        -- destruct (is_Exception e).
           ++ apply runs_unimarc_on_page_error. intros evs He. split.
              ** intros c loc H. injection H as _ <-. exact Hent.
              ** right. right.
                 exists (List.length valid), (Some (List.length np')).
                 split; [now apply Hmarks|]. discriminate.
           ++ split; [discriminate|].
              right. right. exists (List.length valid), (Some (List.length np')).
              split; [|discriminate].
              rewrite <- (app_nil_r evs2). now apply Hmarks.
    + destruct (is_Exception e).
      * apply runs_unimarc_on_page_error. intros evs He. split.
        -- intros c loc H. injection H as _ <-. apply entries_ok_refl.
        -- right. left. split; [|discriminate].
           right. simpl. now rewrite !marks_app, Hm, He.
      * split; [discriminate|]. right. left. split; [|discriminate].
        right. simpl. exact Hm.
Qed.

Lemma unimarc_crawl_runs (fuel : nat) (st : state) :
  Unimarc.max_pages < fuel ->
  runs (Unimarc.scrape_category_products_playwright repr int_of_str w
          category_url category_name existing_products
          max_products_per_category fuel) st
    (fun r st' evs =>
       loop_post (Unimarc.page_url category_url) category_name Unimarc.max_pages
         unimarc_adds 1 []
         (match r with Ok d => Ok (0, d) | Raise e => Raise e end) st' evs).
Proof.
  intros Hfuel. unfold Unimarc.scrape_category_products_playwright, print.
  apply runs_emit. apply runs_emit. apply runs_emit. apply runs_bind.
  eapply runs_weaken.
  - apply (page_loop_runs (Unimarc.page_url category_url) category_name
             Unimarc.max_pages unimarc_adds
             (Unimarc.scrape_page repr int_of_str w category_url category_name
                existing_products max_products_per_category)
             unimarc_scrape_page_turn fuel 1 [] st); lia.
  - cbv beta. intros r st1 evs1 (m & Hg & Hm & Hfound & Hpos & Hskip & Hent).
    assert (Hpost : forall r',
              (forall loc, r' = Ok loc -> exists loc0, r = Ok loc0 /\ snd loc0 = snd loc) ->
              loop_post (Unimarc.page_url category_url) category_name
                Unimarc.max_pages unimarc_adds 1 [] r' st1
                (Print (ScrapingCategory category_name category_url)
                   :: Print (MaxPerCategory max_products_per_category)
                   :: Print Tip :: evs1)).
    { intros r' Hr'. exists m. split; [exact Hg|]. split; [exact Hm|].
      split; [|split; [|split]].
      - intros N t HN [H|[H|[H|H]]]; try discriminate. eauto.
      - intros N HpN HN. destruct (Hpos N HpN HN) as (n & t & Hin & Hn).
        exists n, t. split; [|exact Hn]. right. right. right. exact Hin.
      - intros [H|[H|[H|H]]]; try discriminate. auto.
      - intros loc H. destruct (Hr' loc H) as (loc0 & -> & <-). now apply Hent. }
    destruct r as [loc|e].
    + apply runs_ret. rewrite app_nil_r. apply Hpost.
      intros loc' H. injection H as <-. eauto.
    + apply Hpost. discriminate.
Qed.

End UnimarcCrawl.

Lemma runs_done {A} (m : M A) (st : state)
    (Q : outcome A -> state -> list event -> Prop) :
  runs m st Q ->
  exists r st' evs, m st = Done r st' evs /\ Q r st' evs.
Proof. unfold runs. destruct (m st) as [|r st' evs]; [tauto|eauto]. Qed.

Lemma load_items_keyed (ps : list value) (acc d : products) :
  keyed_by_identity acc -> load_items ps acc = Ok d -> keyed_by_identity d.
Proof.
  revert acc. induction ps as [|p ps IH]; simpl; intros acc Hacc H.
  - injection H as <-. exact Hacc.
  - destruct p as [| | | | |r]; try discriminate.
    destruct (truthy (identity_key r)) eqn:Ht; [|eauto].
    destruct (hash_key (identity_key r)) as [k0|] eqn:Hk; [|discriminate].
    cbn [obind] in H. refine (IH _ _ H).
    intros k r' Hin. apply dict_set_In in Hin.
    destruct Hin as [Hin|[-> ->]]; auto.
Qed.

Lemma loaded_keyed (f : file) : keyed_by_identity (loaded f).
Proof.
  assert (Hnil : keyed_by_identity []) by (intros k r []).
  unfold loaded. destruct f; try exact Hnil.
  destruct (load_body (Json v)) as [d|] eqn:Hb; [|exact Hnil].
  unfold load_body in Hb. simpl in Hb.
  destruct (py_iter v) as [ps|]; [|discriminate]. simpl in Hb.
  exact (load_items_keyed ps [] d Hnil Hb).
Qed.

(** ** C1: the identity key *)

Definition record_with_empty_url : obj :=
  [ ("id", VStr "x"); ("name", VStr "Milk"); ("price", VInt 1000);
    ("product_url", VStr "") ].

(** C1, as stated, fails on a record whose [product_url] is present but
    empty: the data model's key is the empty [product_url], while [load]
    and the jumbo filter both key the record by its [id]. *)
Lemma identity_key_empty_url_counterexample :
  spec_identity_key record_with_empty_url = VStr "" /\
  identity_key record_with_empty_url = VStr "x" /\
  loaded (Json (VList [VDict record_with_empty_url])) =
    [(KStr "x", record_with_empty_url)] /\
  snd (fst (Jumbo.filter_products "despensa" [] [VDict record_with_empty_url] [] []))
    = [(KStr "x", setitem record_with_empty_url "category" (VStr "despensa"))].
Proof. repeat split. Qed.

(** C1, amended.  The identity key is [product_url] when it is present
    and non-empty (truthy), otherwise [id]; it is the key of the data
    model for every record whose [product_url] is absent or non-empty.
    Every entry that [load] returns, and every entry of the result of a
    category crawl of either script, is stored under the hash of that
    key of its record, and the key is usable (truthy): a record whose
    [product_url] and [id] are both absent or empty is in none of them. *)
Theorem identity_key_derivation :
  (forall p : obj,
     identity_key p =
     if truthy (dget p "product_url" VNone) then dget p "product_url" VNone
     else dget p "id" VNone) /\
  (forall p : obj,
     dget p "product_url" VNone = VNone \/
     truthy (dget p "product_url" VNone) = true ->
     identity_key p = spec_identity_key p) /\
  (forall st : state,
     exists d evs,
       load_existing_products st = Done (Ok d) st evs /\ keyed_by_identity d) /\
  (forall w category_url category_name existing_products st,
     exists r st' evs,
       Jumbo.scrape_category_products w category_url category_name
         existing_products (S Jumbo.max_pages) st = Done r st' evs /\
       forall d, r = Ok d -> keyed_by_identity d) /\
  (forall repr int_of_str w category_url category_name existing_products cap st,
     exists r st' evs,
       Unimarc.scrape_category_products_playwright repr int_of_str w
         category_url category_name existing_products cap
         (S Unimarc.max_pages) st = Done r st' evs /\
       forall d, r = Ok d -> keyed_by_identity d).
Proof.
  split; [reflexivity|]. split; [|split; [|split]].
  - intros p. unfold identity_key, spec_identity_key, py_or.
    intros [H|H]; rewrite H; [reflexivity|].
    destruct (dget p "product_url" VNone); (reflexivity || discriminate).
  - intros st. exists (loaded (disk st)), (load_warning (disk st)).
    split; [apply load_existing_products_run | apply loaded_keyed].
  - intros w url name ex st.
    destruct (runs_done _ _ _ (jumbo_crawl_runs w url name ex _ st
                                 (Nat.lt_succ_diag_r _)))
      as (r & st' & evs & Hrun & (m & _ & _ & _ & _ & _ & Hent)).
    exists r, st', evs. split; [exact Hrun|].
    intros d -> k rec Hin.
    destruct (Hent (0, d) eq_refl k rec Hin) as [[]|(Ha & Hk & _)].
    unfold jumbo_accepts in Ha. apply andb_true_iff in Ha. tauto.
  - intros repr ios w url name ex cap st.
    destruct (runs_done _ _ _ (unimarc_crawl_runs repr ios w url name ex cap _ st
                                 (Nat.lt_succ_diag_r _)))
      as (r & st' & evs & Hrun & (m & _ & _ & _ & _ & _ & Hent)).
    exists r, st', evs. split; [exact Hrun|].
    intros d -> k rec Hin.
    destruct (Hent (0, d) eq_refl k rec Hin) as [[]|(Ht & Hk & _)]. tauto.
Qed.

(** ** C3: malformed records *)

Lemma monitor_keyboard_disk (input : list stdin_event) (st : state) :
  disk (fst (monitor_keyboard input st)) = disk st.
Proof.
  unfold monitor_keyboard.
  assert (H : forall acc,
            disk (fst (fold_left monitor_step input acc)) = disk (fst acc)).
  { induction input as [|ev input IH]; simpl; intros acc; [reflexivity|].
    rewrite IH. destruct acc as [s out]. unfold monitor_step. simpl.
    destruct (listening s); [|reflexivity].
    destruct ev as [l|]; [|reflexivity].
    destruct (lower (strip l) =? "s"); [reflexivity|].
    destruct (lower (strip l) =? "q"); reflexivity. }
  apply H.
Qed.

(** The write-through after a page stores what [load] returns, updated
    with [new_products], and nothing else. *)
Lemma append_to_json_disk (w : world) (n : nat) (new_products : products)
    (st : state) :
  match append_to_json w n new_products st with
  | Diverge => False
  | Done (Ok _) st' _ =>
      disk st' = dumped (dict_update (loaded (disk st)) new_products)
  | Done (Raise _) st' _ => disk st' = disk st \/ disk st' = Unparsable
  end.
Proof.
  unfold append_to_json, bind. rewrite load_existing_products_run.
  unfold save_products, bind, block, emit, modify, print.
  pose proof (monitor_keyboard_disk (typed w (clock st)) st) as Hd.
  destruct (monitor_keyboard (typed w (clock st)) st) as [st1 out].
  simpl in Hd. cbn.
  destruct (write w (clock st)); cbn; [reflexivity | now left | now right].
Qed.






(** ** C4, C5: where the page loop stops *)

(** Stand-ins for the two builtins of Python, where a concrete run
    needs them; the runs below never reach them. *)
Definition no_repr (v : value) : string := "".
Definition no_int (s : string) : option Z := None.

(** C4.  A category crawl loads pages 1, 2, ..., m in this order and no
    other page; if page N > 1 yields no new valid record (the crawler
    prints a count of 0 for it), then m = N: page N is the last page
    loaded and page N + 1 is never loaded.  Conversely, a page N > 1
    after which another page is loaded has had its count printed, and
    the count is not 0.  In both scripts. *)
Theorem empty_page_stops_pagination
    (repr : value -> string) (int_of_str : string -> option Z)
    (w : world) (category_url category_name : string)
    (existing_products : products) (cap : nat) (st : state) (fuel : nat)
    (Hfuel : Jumbo.max_pages < fuel) :
  (exists r st' evs m,
     Jumbo.scrape_category_products w category_url category_name
       existing_products fuel st = Done r st' evs /\
     gotos evs = map (Jumbo.page_url category_url) (seq 1 m) /\
     (forall N t, 1 < N -> In (Print (Found 0 N t)) evs -> m = N) /\
     (forall N, 1 < N -> N < m ->
                exists n t, In (Print (Found n N t)) evs /\ 0 < n)) /\
  (exists r st' evs m,
     Unimarc.scrape_category_products_playwright repr int_of_str w
       category_url category_name existing_products cap fuel st =
       Done r st' evs /\
     gotos evs = map (Unimarc.page_url category_url) (seq 1 m) /\
     (forall N t, 1 < N -> In (Print (Found 0 N t)) evs -> m = N) /\
     (forall N, 1 < N -> N < m ->
                exists n t, In (Print (Found n N t)) evs /\ 0 < n)).
Proof.
  split.
  - destruct (runs_done _ _ _ (jumbo_crawl_runs w category_url category_name
                                 existing_products fuel st Hfuel))
      as (r & st' & evs & Hrun & (m & Hg & _ & Hfound & Hpos & _)).
    exists r, st', evs, m. split; [exact Hrun|]. split; [exact Hg|]. split.
    + intros N t HN Hin. specialize (Hfound N t HN Hin). lia.
    + intros N HN HNm. destruct (Hpos N ltac:(lia) ltac:(lia)) as (n & t & Hin & Hn).
      exists n, t. auto.
  - assert (Hfuel' : Unimarc.max_pages < fuel).
    { unfold Unimarc.max_pages, Jumbo.max_pages in *. lia. }
    destruct (runs_done _ _ _ (unimarc_crawl_runs repr int_of_str w category_url
                                 category_name existing_products cap fuel st Hfuel'))
      as (r & st' & evs & Hrun & (m & Hg & _ & Hfound & Hpos & _)).
    exists r, st', evs, m. split; [exact Hrun|]. split; [exact Hg|]. split.
    + intros N t HN Hin. specialize (Hfound N t HN Hin). lia.
    + intros N HN HNm. destruct (Hpos N ltac:(lia) ltac:(lia)) as (n & t & Hin & Hn).
      exists n, t. auto.
Qed.

Lemma empty_page_stops_pagination_witness :
  Jumbo.max_pages < 51 /\
  (exists r st' evs m,
     Jumbo.scrape_category_products quiet_world
       "https://www.jumbo.cl/despensa" "despensa" [] 51 st_empty =
       Done r st' evs /\
     gotos evs = map (Jumbo.page_url "https://www.jumbo.cl/despensa") (seq 1 m) /\
     (forall N t, 1 < N -> In (Print (Found 0 N t)) evs -> m = N) /\
     (forall N, 1 < N -> N < m ->
                exists n t, In (Print (Found n N t)) evs /\ 0 < n)) /\
  (exists r st' evs m,
     Unimarc.scrape_category_products_playwright no_repr no_int quiet_world
       "https://www.jumbo.cl/despensa" "despensa" [] 300 51 st_empty =
       Done r st' evs /\
     gotos evs = map (Unimarc.page_url "https://www.jumbo.cl/despensa") (seq 1 m) /\
     (forall N t, 1 < N -> In (Print (Found 0 N t)) evs -> m = N) /\
     (forall N, 1 < N -> N < m ->
                exists n t, In (Print (Found n N t)) evs /\ 0 < n)).
Proof.
  split; [unfold Jumbo.max_pages; lia|].
  apply (empty_page_stops_pagination no_repr no_int quiet_world
           "https://www.jumbo.cl/despensa" "despensa" [] 300 st_empty 51).
  unfold Jumbo.max_pages. lia.
Defined.

(** On a site whose every page is empty, the crawl loads page 1, then
    page 2, counts no new product on it, and stops. *)
Example jumbo_stops_after_empty_page_2 :
  exists r st' evs,
    Jumbo.scrape_category_products quiet_world
      "https://www.jumbo.cl/despensa" "despensa" [] 51 st_empty = Done r st' evs /\
    In (Print (Found 0 2 None)) evs /\
    gotos evs = [ "https://www.jumbo.cl/despensa?page=1";
                  "https://www.jumbo.cl/despensa?page=2" ].
Proof.
  eexists. eexists. eexists. split; [vm_compute; reflexivity|].
  split; [simpl; tauto | reflexivity].
Qed.

(** C5.  For every world, also one whose extractor always reports a
    next page and always finds new records, the crawl of a category
    ends, and it has loaded at most 50 pages in the jumbo script and at
    most 10 in the unimarc script. *)
Theorem page_cap_enforced
    (repr : value -> string) (int_of_str : string -> option Z)
    (w : world) (category_url category_name : string)
    (existing_products : products) (cap : nat) (st : state) (fuel : nat)
    (Hfuel : Jumbo.max_pages < fuel) :
  (exists r st' evs,
     Jumbo.scrape_category_products w category_url category_name
       existing_products fuel st = Done r st' evs /\
     List.length (gotos evs) <= 50) /\
  (exists r st' evs,
     Unimarc.scrape_category_products_playwright repr int_of_str w
       category_url category_name existing_products cap fuel st =
       Done r st' evs /\
     List.length (gotos evs) <= 10).
Proof.
  split.
  - destruct (runs_done _ _ _ (jumbo_crawl_runs w category_url category_name
                                 existing_products fuel st Hfuel))
      as (r & st' & evs & Hrun & (m & Hg & Hm & _)).
    exists r, st', evs. split; [exact Hrun|].
    rewrite Hg, length_map, length_seq. unfold Jumbo.max_pages in Hm. lia.
  - assert (Hfuel' : Unimarc.max_pages < fuel).
    { unfold Unimarc.max_pages, Jumbo.max_pages in *. lia. }
    destruct (runs_done _ _ _ (unimarc_crawl_runs repr int_of_str w category_url
                                 category_name existing_products cap fuel st Hfuel'))
      as (r & st' & evs & Hrun & (m & Hg & Hm & _)).
    exists r, st', evs. split; [exact Hrun|].
    rewrite Hg, length_map, length_seq. unfold Unimarc.max_pages in Hm. lia.
Qed.

(** A site without end: every page shows one product never seen before
    and a live next button. *)
Definition endless_view (t : nat) : page_view :=
  {| pv_goto := None;
     pv_products :=
       Ok (VList [VDict [("id", VStr (str_of_nat t)); ("name", VStr "Milk");
                         ("price", VInt 1000); ("productId", VStr (str_of_nat t))]]);
     pv_has_next := Ok (VBool true);
     pv_page_numbers := Ok (VDict []) |}.

Definition endless_world : world :=
  {| typed := fun _ => []; browse := fun t _ => endless_view t;
     write := fun _ => Written;
     start_error := None; launch_error := None;
     new_page_error := None; close_error := None |}.

Lemma page_cap_enforced_witness :
  Jumbo.max_pages < 51 /\
  (exists r st' evs,
     Jumbo.scrape_category_products endless_world
       "https://www.jumbo.cl/despensa" "despensa" [] 51 st_empty =
       Done r st' evs /\
     List.length (gotos evs) <= 50) /\
  (exists r st' evs,
     Unimarc.scrape_category_products_playwright no_repr no_int endless_world
       "https://www.jumbo.cl/despensa" "despensa" [] 300 51 st_empty =
       Done r st' evs /\
     List.length (gotos evs) <= 10).
Proof.
  split; [unfold Jumbo.max_pages; lia|].
  apply (page_cap_enforced no_repr no_int endless_world
           "https://www.jumbo.cl/despensa" "despensa" [] 300 st_empty 51).
  unfold Jumbo.max_pages. lia.
Defined.

(** On the endless site the caps are reached exactly. *)
Example endless_site_reaches_the_caps :
  (exists d st' evs,
     Jumbo.scrape_category_products endless_world
       "https://www.jumbo.cl/despensa" "despensa" [] 51 st_empty =
       Done (Ok d) st' evs /\
     List.length (gotos evs) = 50 /\ List.length d = 50) /\
  (forall repr int_of_str,
   exists d st' evs,
     Unimarc.scrape_category_products_playwright repr int_of_str endless_world
       "https://www.unimarc.cl/category/despensa" "despensa" [] 300 11 st_empty =
       Done (Ok d) st' evs /\
     List.length (gotos evs) = 10 /\ List.length d = 10).
Proof.
  split; [|intros repr int_of_str];
    (eexists; eexists; eexists; split; [vm_compute; reflexivity|]);
    split; vm_compute; reflexivity.
Qed.

(** ** C6: the URL of a page *)

(** C6, as stated, fails in the jumbo script: the URL loaded for page 1
    is not the bare category URL, it carries [?page=1]. *)
Lemma jumbo_first_page_url_counterexample :
  Jumbo.page_url "https://www.jumbo.cl/despensa" 1 =
    "https://www.jumbo.cl/despensa?page=1" /\
  Jumbo.page_url "https://www.jumbo.cl/despensa" 1 <>
    "https://www.jumbo.cl/despensa" /\
  exists r st' evs,
    Jumbo.scrape_category_products quiet_world
      "https://www.jumbo.cl/despensa" "despensa" [] 51 st_empty = Done r st' evs /\
    hd_error (gotos evs) = Some "https://www.jumbo.cl/despensa?page=1".
Proof.
  split; [reflexivity|]. split; [discriminate|].
  eexists. eexists. eexists. split; [vm_compute; reflexivity | reflexivity].
Qed.

(** C6, amended.  The k-th page load of a category crawl is the load of
    the URL of page k.  In the unimarc script that URL is the bare
    category URL for page 1 and the category URL followed by [?page=n]
    for every other page n.  In the jumbo script it carries the page
    number for every page, page 1 included: [?page=n], or [&page=n]
    when the category URL already contains a [?]. *)
Theorem page_urls :
  (forall category_url n,
     Jumbo.page_url category_url n =
     (category_url ++ (if contains "?" category_url then "&page=" else "?page=")
                   ++ str_of_nat n)%string) /\
  (forall category_url, Unimarc.page_url category_url 1 = category_url) /\
  (forall category_url n,
     n <> 1 ->
     Unimarc.page_url category_url n =
     (category_url ++ "?page=" ++ str_of_nat n)%string) /\
  (forall w category_url category_name existing_products st,
     exists r st' evs m,
       Jumbo.scrape_category_products w category_url category_name
         existing_products (S Jumbo.max_pages) st = Done r st' evs /\
       gotos evs = map (Jumbo.page_url category_url) (seq 1 m)) /\
  (forall repr int_of_str w category_url category_name existing_products cap st,
     exists r st' evs m,
       Unimarc.scrape_category_products_playwright repr int_of_str w
         category_url category_name existing_products cap
         (S Unimarc.max_pages) st = Done r st' evs /\
       gotos evs = map (Unimarc.page_url category_url) (seq 1 m)).
Proof.
  split; [|split; [|split; [|split]]].
  - intros url n. unfold Jumbo.page_url. now destruct (contains "?" url).
  - reflexivity.
  - intros url n Hn. unfold Unimarc.page_url.
    destruct (Nat.eqb_spec n 1); [contradiction|reflexivity].
  - intros w url name ex st.
    destruct (runs_done _ _ _ (jumbo_crawl_runs w url name ex _ st
                                 (Nat.lt_succ_diag_r _)))
      as (r & st' & evs & Hrun & (m & Hg & _)).
    exists r, st', evs, m. auto.
  - intros repr ios w url name ex cap st.
    destruct (runs_done _ _ _ (unimarc_crawl_runs repr ios w url name ex cap _ st
                                 (Nat.lt_succ_diag_r _)))
      as (r & st' & evs & Hrun & (m & Hg & _)).
    exists r, st', evs, m. auto.
Qed.

(** ** C7: the skip flag *)

Definition st_listening : state :=
  {| skip_category_flag := false; quit_flag := false; listening := true;
     disk := Missing; clock := 0 |}.

(** The endless site, with an operator who types [s] during the
    blocking call number [t0]. *)
Definition skip_world (t0 : nat) : world :=
  {| typed := fun t => if (t =? t0)%nat then [Line "s"] else [];
     browse := fun t _ => endless_view t;
     write := fun _ => Written;
     start_error := None; launch_error := None;
     new_page_error := None; close_error := None |}.

Definition skipped (name : string) (evs : list event) : bool :=
  existsb (fun e => match e with
                    | Print (SkippingCategory n) => (n =? name)
                    | _ => false
                    end) evs.

Definition jumbo_crawler (w : world)
  : string -> string -> products -> nat -> M products :=
  fun url name existing => Jumbo.scrape_category_products w url name existing.




(** *** A signal and the page loads after it *)




















































(** An [s] typed while page 1 loads: the crawl finishes page 1, finds
    the flag at the test before page 2, stops and clears it. *)
Example skip_during_page_1 :
  exists d st' evs,
    Jumbo.scrape_category_products (skip_world 0)
      "https://www.jumbo.cl/despensa" "despensa" [] 51 st_listening =
      Done (Ok d) st' evs /\
    skipped "despensa" evs = true /\
    gotos evs = ["https://www.jumbo.cl/despensa?page=1"] /\
    skip_category_flag st' = false.
Proof.
  eexists. eexists. eexists. split; [vm_compute; reflexivity|].
  repeat split.
Qed.

(** ** C8: fatal errors and the [finally] of [main] *)

(** A browser that cannot be launched. *)
Definition launch_failure_world : world :=
  {| typed := fun _ => []; browse := fun _ _ => empty_view;
     write := fun _ => Written;
     start_error := None; launch_error := Some PlaywrightError;
     new_page_error := None; close_error := None |}.

(** An operator who interrupts the process (Ctrl-C) during the first
    page load. *)
Definition interrupted_world : world :=
  {| typed := fun _ => [];
     browse := fun _ _ =>
       {| pv_goto := Some KeyboardInterrupt; pv_products := Ok (VList []);
          pv_has_next := Ok (VBool false); pv_page_numbers := Ok (VDict []) |};
     write := fun _ => Written;
     start_error := None; launch_error := None;
     new_page_error := None; close_error := None |}.

Definition wrote (evs : list event) : bool :=
  existsb (fun e => match e with Write _ => true | _ => false end) evs.

Definition closed_browser (evs : list event) : bool :=
  existsb (fun e => match e with BrowserClose => true | _ => false end) evs.

(** C8, as stated, fails.  When the browser cannot be launched, the
    error leaves [main] with no write of the store and no close of the
    browser attempted.  When a fatal error interrupts a page load, the
    [finally] closes the browser but no write of the store is attempted. *)
Lemma fatal_error_without_save_counterexample :
  (exists st' evs,
     Jumbo.main launch_failure_world 51 st_empty =
       Done (Raise PlaywrightError) st' evs /\
     wrote evs = false /\ closed_browser evs = false) /\
  (exists st' evs,
     Jumbo.main interrupted_world 51 st_empty =
       Done (Raise KeyboardInterrupt) st' evs /\
     wrote evs = false /\ closed_browser evs = true).
Proof.
  split; (eexists; eexists; split; [vm_compute; reflexivity|]);
    split; reflexivity.
Qed.

(** What the monitor prints is signals only. *)
Lemma monitor_keyboard_out (P : event -> bool) (input : list stdin_event)
    (st : state) :
  P (Print SkipSignal) = false -> P (Print QuitSignal) = false ->
  existsb P (snd (monitor_keyboard input st)) = false.
Proof.
  intros Hs Hq. unfold monitor_keyboard.
  assert (H : forall acc, existsb P (snd acc) = false ->
                existsb P (snd (fold_left monitor_step input acc)) = false).
  { induction input as [|ev input IH]; simpl; intros acc Hacc; [assumption|].
    apply IH. destruct acc as [s out]. unfold monitor_step. simpl in *.
    destruct (listening s); [|assumption].
    destruct ev as [l|]; [|assumption].
    destruct (lower (strip l) =? "s");
      [simpl; rewrite existsb_app, Hacc; simpl; now rewrite Hs|].
    destruct (lower (strip l) =? "q");
      [simpl; rewrite existsb_app, Hacc; simpl; now rewrite Hq|assumption]. }
  now apply H.
Qed.

Lemma wrote_app (a b : list event) : wrote (a ++ b) = wrote a || wrote b.
Proof. apply existsb_app. Qed.

Lemma closed_browser_app (a b : list event) :
  closed_browser (a ++ b) = closed_browser a || closed_browser b.
Proof. apply existsb_app. Qed.

Lemma load_warning_quiet (f : file) :
  wrote (load_warning f) = false /\ closed_browser (load_warning f) = false.
Proof.
  unfold load_warning. destruct f; try (split; reflexivity).
  destruct (load_body (Json v)); split; reflexivity.
Qed.

(** How an error leaves [main] once the browser is launched and its
    page is open: the events of [main] are those before the batch, with
    no write among them, those of the batch, and then the close of the
    browser and the stop of Playwright, and nothing else; the error is
    that of the batch, or that of the close. *)
Definition session_shutdown (w : world)
    (scrape : string -> string -> products -> nat -> M products)
    (categories : list string) (fuel : nat) (existing_products : products)
    (run : reply unit) : Prop :=
  match run with
  | Done (Raise e) _ evs =>
      exists pre st0 r st1 evs_batch,
        Orchestrator.batch w scrape categories fuel existing_products st0 =
          Done r st1 evs_batch /\
        evs = pre ++ evs_batch ++ [BrowserClose; PlaywrightStop] /\
        wrote pre = false /\
        (r = Raise e \/ close_error w = Some e)
  | _ => True
  end.

(** The session could not be opened: Playwright did not start, or the
    browser was not launched, or its page was not opened. *)
Definition session_not_opened (w : world) (e : exn) : Prop :=
  start_error w = Some e \/
  (start_error w = None /\ launch_error w = Some e) \/
  (start_error w = None /\ launch_error w = None /\
   new_page_error w = Some e).

Section MainErrors.

Variable w : world.
Variable scrape : string -> string -> products -> nat -> M products.
Variable categories : list string.
Variable fuel : nat.

Lemma main_shutdown (st : state) :
  start_error w = None ->
  launch_error w = None ->
  new_page_error w = None ->
  session_shutdown w scrape categories fuel (loaded (disk st))
    (Orchestrator.main w scrape categories fuel st).
Proof.
  intros Hstart Hlaunch Hpage.
  unfold session_shutdown, Orchestrator.main, bind.
  rewrite load_existing_products_run.
  unfold print, emit, modify. cbn -[Orchestrator.batch]. rewrite Hstart.
  cbn -[Orchestrator.batch].
  unfold try_finally, bind, block, emit.
  pose proof (monitor_keyboard_out
                (fun e => match e with Write _ => true | _ => false end)
                (typed w (clock (start_listening st))) (start_listening st)
                eq_refl eq_refl) as Hout.
  destruct (monitor_keyboard (typed w (clock (start_listening st)))
              (start_listening st)) as [st1 out].
  simpl in Hout.
  rewrite Hlaunch. cbn -[Orchestrator.batch]. rewrite Hpage.
  cbn -[Orchestrator.batch].
  destruct (Orchestrator.batch w scrape categories fuel (loaded (disk st))
              (advance st1)) as [|r st2 evs2] eqn:Hbatch; [exact I|].
  assert (Hpre : wrote (load_warning (disk st) ++
                        [Print (Loaded (List.length (loaded (disk st))));
                         Print Banner; PlaywrightStart; Launch] ++
                        out ++ [NewPage]) = false).
  { rewrite !wrote_app. rewrite (proj1 (load_warning_quiet (disk st))).
    unfold wrote at 2. rewrite Hout. reflexivity. }
  destruct (close_error w) as [e0|] eqn:Hclose; cbn.
  - exists (load_warning (disk st) ++
            [Print (Loaded (List.length (loaded (disk st)))); Print Banner;
             PlaywrightStart; Launch] ++ out ++ [NewPage]),
      (advance st1), r, st2, evs2.
    split; [exact Hbatch|]. split; [|split; [exact Hpre | now right]].
    repeat (rewrite <- app_assoc; cbn). reflexivity.
  - destruct r as [u|e]; [exact I|].
    exists (load_warning (disk st) ++
            [Print (Loaded (List.length (loaded (disk st)))); Print Banner;
             PlaywrightStart; Launch] ++ out ++ [NewPage]),
      (advance st1), (Raise e), st2, evs2.
    split; [exact Hbatch|]. split; [|split; [exact Hpre | now left]].
    repeat (rewrite <- app_assoc; cbn). reflexivity.
Qed.

(** An error leaves the batch from the loop over the categories, and
    then the final save is not attempted, or from the final save. *)
Lemma batch_error (existing_products : products) (st0 st1 : state) (e : exn)
    (evs : list event) :
  Orchestrator.batch w scrape categories fuel existing_products st0 =
    Done (Raise e) st1 evs ->
  (exists evs_crawl,
     Orchestrator.crawl_categories w scrape fuel existing_products categories
       [] st0 = Done (Raise e) st1 evs_crawl /\
     evs = Print (UsingCategories (List.length categories)) :: evs_crawl) \/
  (exists all_new_products st_crawl evs_crawl evs_save,
     Orchestrator.crawl_categories w scrape fuel existing_products categories
       [] st0 = Done (Ok all_new_products) st_crawl evs_crawl /\
     save_products w (dict_merge existing_products all_new_products) st_crawl =
       Done (Raise e) st1 evs_save /\
     evs = Print (UsingCategories (List.length categories)) ::
           evs_crawl ++ evs_save).
Proof.
  unfold Orchestrator.batch, bind at 1, print at 1, emit. unfold bind at 1.
  destruct (Orchestrator.crawl_categories w scrape fuel existing_products
              categories [] st0) as [|[all_new|e'] st_c evs_c];
    [discriminate| |].
  - unfold bind at 1.
    destruct (save_products w (dict_merge existing_products all_new) st_c)
      as [|[u|e2] st_s evs_s] eqn:Hsave; [discriminate| |].
    + unfold print, emit. cbn. discriminate.
    + cbn. intros H. injection H as <- <- <-. right.
      exists all_new, st_c, evs_c, evs_s. auto.
  - cbn. intros H. injection H as <- <- <-. left. exists evs_c. auto.
Qed.

Lemma main_not_opened (st : state) (e : exn) :
  session_not_opened w e ->
  exists st' evs,
    Orchestrator.main w scrape categories fuel st = Done (Raise e) st' evs /\
    wrote evs = false /\ closed_browser evs = false.
Proof.
  intros Hopen.
  unfold Orchestrator.main, bind. rewrite load_existing_products_run.
  unfold print, emit, modify. cbn -[Orchestrator.batch].
  destruct (load_warning_quiet (disk st)) as [Hw Hc].
  destruct Hopen as [Hstart|[[Hstart Hlaunch]|(Hstart & Hlaunch & Hpage)]];
    rewrite Hstart; cbn -[Orchestrator.batch].
  { eexists _, _. split; [reflexivity|].
    rewrite wrote_app, closed_browser_app, Hw, Hc. split; reflexivity. }
  all: unfold try_finally, bind, block, emit;
    pose proof (monitor_keyboard_out
                  (fun e => match e with Write _ => true | _ => false end)
                  (typed w (clock (start_listening st))) (start_listening st)
                  eq_refl eq_refl) as Hout1;
    pose proof (monitor_keyboard_out
                  (fun e => match e with BrowserClose => true | _ => false end)
                  (typed w (clock (start_listening st))) (start_listening st)
                  eq_refl eq_refl) as Hout2;
    destruct (monitor_keyboard (typed w (clock (start_listening st)))
                (start_listening st)) as [st1 out];
    simpl in Hout1, Hout2;
    rewrite Hlaunch; cbn -[Orchestrator.batch].
  2: rewrite Hpage; cbn -[Orchestrator.batch].
  all: eexists _, _; (split; [reflexivity|]);
    rewrite !wrote_app, !closed_browser_app, Hw, Hc;
    unfold wrote, closed_browser; cbn [existsb orb];
    rewrite ?existsb_app, Hout1, Hout2; split; reflexivity.
Qed.

End MainErrors.

(** C8, amended.  Once the browser is launched and its page is open,
    an error that leaves [main] is followed by the close of the browser,
    in the [finally], and the stop of Playwright, at the exit of the
    [with] block, and by nothing else: the [finally] attempts no save.
    The final save is the last step of the batch itself: an error that
    leaves the loop over the categories ends the batch at once, with no
    final save attempted, and the only other error that leaves the
    batch is that of the final save.  When Playwright cannot be
    started, or the browser cannot be launched, or its page cannot be
    opened, the error leaves [main] with no write and no close of the
    browser attempted.  In both scripts. *)
Theorem fatal_error_closes_session
    (repr : value -> string) (int_of_str : string -> option Z)
    (w : world) (fuel : nat) (st : state) :
  (start_error w = None -> launch_error w = None -> new_page_error w = None ->
   session_shutdown w
     (fun url name existing =>
        Jumbo.scrape_category_products w url name existing)
     Jumbo.discover_food_categories fuel (loaded (disk st))
     (Jumbo.main w fuel st) /\
   session_shutdown w
     (fun url name existing =>
        Unimarc.scrape_category_products_playwright repr int_of_str w url name
          existing 300)
     Unimarc.discover_food_categories fuel (loaded (disk st))
     (Unimarc.main repr int_of_str w fuel st)) /\
  (forall scrape categories existing_products st0 st1 e evs,
     Orchestrator.batch w scrape categories fuel existing_products st0 =
       Done (Raise e) st1 evs ->
     (exists evs_crawl,
        Orchestrator.crawl_categories w scrape fuel existing_products
          categories [] st0 = Done (Raise e) st1 evs_crawl /\
        evs = Print (UsingCategories (List.length categories)) :: evs_crawl) \/
     (exists all_new_products st_crawl evs_crawl evs_save,
        Orchestrator.crawl_categories w scrape fuel existing_products
          categories [] st0 = Done (Ok all_new_products) st_crawl evs_crawl /\
        save_products w (dict_merge existing_products all_new_products)
          st_crawl = Done (Raise e) st1 evs_save /\
        evs = Print (UsingCategories (List.length categories)) ::
              evs_crawl ++ evs_save)) /\
  (forall e,
     session_not_opened w e ->
     (exists st' evs,
        Jumbo.main w fuel st = Done (Raise e) st' evs /\
        wrote evs = false /\ closed_browser evs = false) /\
     (exists st' evs,
        Unimarc.main repr int_of_str w fuel st = Done (Raise e) st' evs /\
        wrote evs = false /\ closed_browser evs = false)).
Proof.
  split; [|split].
  - intros Hstart Hlaunch Hpage. split.
    + unfold Jumbo.main. now apply main_shutdown.
    + unfold Unimarc.main. cbv zeta. now apply main_shutdown.
  - intros scrape categories ex st0 st1 e evs.
    apply batch_error.
  - intros e Hopen. split.
    + unfold Jumbo.main. now apply main_not_opened.
    + unfold Unimarc.main. cbv zeta. now apply main_not_opened.
Qed.

(** An interrupt during the first page load: the error leaves the loop
    over the categories, the browser is closed, nothing is written. *)
Lemma fatal_error_closes_session_witness :
  start_error interrupted_world = None /\
  launch_error interrupted_world = None /\
  new_page_error interrupted_world = None /\
  session_shutdown interrupted_world
    (fun url name existing =>
       Jumbo.scrape_category_products interrupted_world url name existing)
    Jumbo.discover_food_categories 51 (loaded (disk st_empty))
    (Jumbo.main interrupted_world 51 st_empty) /\
  session_shutdown interrupted_world
    (fun url name existing =>
       Unimarc.scrape_category_products_playwright no_repr no_int
         interrupted_world url name existing 300)
    Unimarc.discover_food_categories 51 (loaded (disk st_empty))
    (Unimarc.main no_repr no_int interrupted_world 51 st_empty).
Proof.
  split; [reflexivity|]. split; [reflexivity|]. split; [reflexivity|].
  apply (fatal_error_closes_session no_repr no_int interrupted_world 51 st_empty);
    reflexivity.
Defined.

(** * Further properties of the two scripts *)

(** ** The keyboard monitor *)

(** What a turn of the monitor may do to the process: raise a flag,
    stop listening; never lower a flag, never touch the document or
    the clock. *)
Definition monitor_moves (st st' : state) : Prop :=
  (skip_category_flag st = true -> skip_category_flag st' = true) /\
  (quit_flag st = true -> quit_flag st' = true) /\
  (quit_flag st' = true ->
   quit_flag st = true \/
   (skip_category_flag st' = true /\ listening st' = false)) /\
  (listening st' = true -> listening st = true) /\
  disk st' = disk st /\ clock st' = clock st.

Lemma monitor_moves_refl (st : state) : monitor_moves st st.
Proof. unfold monitor_moves. tauto. Qed.

Lemma monitor_moves_trans (a b c : state) :
  monitor_moves a b -> monitor_moves b c -> monitor_moves a c.
Proof.
  unfold monitor_moves.
  intros (Hs1 & Hq1 & Hn1 & Hl1 & Hd1 & Hc1) (Hs2 & Hq2 & Hn2 & Hl2 & Hd2 & Hc2).
  repeat split; try tauto; try congruence.
  intros Hq. destruct (Hn2 Hq) as [Hb|Hb]; [|tauto].
  destruct (Hn1 Hb) as [Ha|[Ha Hl]]; [tauto|].
  right. split; [tauto|].
  destruct (listening c) eqn:E; [|reflexivity].
  specialize (Hl2 eq_refl). congruence.
Qed.

Lemma monitor_step_moves (acc : state * list event) (ev : stdin_event) :
  monitor_moves (fst acc) (fst (monitor_step acc ev)).
Proof.
  destruct acc as [st out]. unfold monitor_step. simpl.
  destruct (listening st) eqn:Hl; [|apply monitor_moves_refl].
  destruct ev as [l|].
  - destruct (lower (strip l) =? "s");
      [|destruct (lower (strip l) =? "q"); [|apply monitor_moves_refl]];
      unfold monitor_moves; simpl; tauto.
  - unfold monitor_moves; simpl. repeat split; auto; discriminate.
Qed.

Lemma fold_monitor_moves (input : list stdin_event) (acc : state * list event) :
  monitor_moves (fst acc) (fst (fold_left monitor_step input acc)).
Proof.
  revert acc. induction input as [|ev input IH]; simpl; intros acc.
  - apply monitor_moves_refl.
  - eapply monitor_moves_trans; [apply monitor_step_moves | apply IH].
Qed.

(** X1.  Whatever the operator types, the monitor only ever raises the
    two flags: a flag that is set stays set; when the monitor sets
    [quit] it has also set [skip] and has stopped listening; a monitor
    that has stopped does not start again; the document and the clock
    are not touched. *)
Theorem monitor_keyboard_only_raises_flags
    (input : list stdin_event) (st : state) :
  let st' := fst (monitor_keyboard input st) in
  (skip_category_flag st = true -> skip_category_flag st' = true) /\
  (quit_flag st = true -> quit_flag st' = true) /\
  (quit_flag st' = true ->
   quit_flag st = true \/
   (skip_category_flag st' = true /\ listening st' = false)) /\
  (listening st' = true -> listening st = true) /\
  disk st' = disk st /\ clock st' = clock st.
Proof. exact (fold_monitor_moves input (st, [])). Qed.

(** ** The name of a category *)

Lemma split_slash_nonempty (s : string) : split_slash s <> [].
Proof.
  destruct s as [|c s]; cbn [split_slash]; [discriminate|].
  destruct (Ascii.eqb c "/"); [discriminate|].
  destruct (split_slash s); discriminate.
Qed.

(** Splitting at a slash splits the list of segments. *)
Lemma split_slash_app (a b : string) :
  split_slash (a ++ String "/" b) = split_slash a ++ split_slash b.
Proof.
  induction a as [|c a IH]; [reflexivity|].
  change (String c a ++ String "/" b)%string with (String c (a ++ String "/" b)).
  cbn [split_slash].
  destruct (Ascii.eqb c "/"); [now rewrite IH|].
  rewrite IH. pose proof (split_slash_nonempty a) as Hne.
  destruct (split_slash a); [contradiction|reflexivity].
Qed.

Lemma split_slash_no_slash (s : string) :
  contains "/" s = false -> split_slash s = [s].
Proof.
  induction s as [|c s IH]; cbn [contains split_slash]; intros H; [reflexivity|].
  rewrite Ascii.eqb_sym in H.
  apply orb_false_iff in H. destruct H as [Hc Hs].
  rewrite Hc, (IH Hs). reflexivity.
Qed.

Lemma split_slash_segments (s seg : string) :
  In seg (split_slash s) -> contains "/" seg = false.
Proof.
  revert seg. induction s as [|c s IH]; cbn [split_slash]; intros seg H.
  - destruct H as [<-|[]]. reflexivity.
  - destruct (Ascii.eqb c "/") eqn:Hc.
    + destruct H as [<-|H]; [reflexivity|now apply IH].
    + pose proof (split_slash_nonempty s) as Hne.
      destruct (split_slash s) as [|h t]; [contradiction|].
      destruct H as [<-|H].
      * cbn [contains]. rewrite Ascii.eqb_sym, Hc. simpl. apply IH. now left.
      * apply IH. now right.
Qed.

Lemma split_slash_single (s : string) :
  List.length (split_slash s) = 1 -> split_slash s = [s].
Proof.
  induction s as [|c s IH]; cbn [split_slash]; [reflexivity|].
  destruct (Ascii.eqb c "/").
  - simpl. intros H. injection H as H.
    pose proof (split_slash_nonempty s). destruct (split_slash s); [contradiction|discriminate].
  - pose proof (split_slash_nonempty s) as Hne.
    destruct (split_slash s) as [|h t] eqn:E; [contradiction|].
    simpl. intros H. injection H as H. destruct t; [|discriminate].
    injection (IH eq_refl) as ->. reflexivity.
Qed.

(** X4.  The category name taken from a URL: the text after the last
    slash; when the URL ends in a slash, the segment before it; when
    that one is empty too, ["unknown"].  The name is never empty and
    holds no slash, and the only URL without a name is the empty one,
    for which the expression raises [IndexError]. *)
Theorem category_name_of_url :
  (forall prefix name,
     name <> "" -> contains "/" name = false ->
     category_name_of (prefix ++ String "/" name) = Ok name) /\
  (forall prefix name,
     name <> "" -> contains "/" name = false ->
     category_name_of (prefix ++ String "/" (name ++ "/")) = Ok name) /\
  (forall prefix,
     category_name_of (prefix ++ "//") = Ok "unknown") /\
  (forall url name,
     category_name_of url = Ok name ->
     name <> "" /\ contains "/" name = false) /\
  (forall url e,
     category_name_of url = Raise e <-> url = "" /\ e = IndexError).
Proof.
  assert (Hneq : forall s, s <> "" -> negb (s =? "") = true).
  { intros s Hs. destruct (String.eqb_spec s ""); [contradiction|reflexivity]. }
  split; [|split; [|split; [|split]]].
  - intros prefix name Hne Hns. unfold category_name_of.
    rewrite split_slash_app, rev_app_distr, (split_slash_no_slash _ Hns). simpl.
    now rewrite (Hneq _ Hne).
  - intros prefix name Hne Hns. unfold category_name_of.
    rewrite split_slash_app, split_slash_app, !rev_app_distr,
      (split_slash_no_slash _ Hns). simpl.
    now rewrite (Hneq _ Hne).
  - intros prefix. unfold category_name_of.
    replace (prefix ++ "//")%string with (prefix ++ String "/" (String "/" ""))%string
      by reflexivity.
    rewrite split_slash_app, rev_app_distr. reflexivity.
  - intros url name. unfold category_name_of.
    destruct (rev (split_slash url)) as [|last before] eqn:E; [discriminate|].
    assert (Hin : forall seg, In seg (last :: before) -> contains "/" seg = false).
    { intros seg H. apply (split_slash_segments url).
      apply in_rev. now rewrite E. }
    destruct (String.eqb_spec last "") as [->|Hl]; simpl.
    + destruct before as [|second rest]; [discriminate|].
      destruct (String.eqb_spec second "") as [->|Hs]; simpl;
        intros H; injection H as <-.
      * split; [discriminate|reflexivity].
      * split; [assumption|]. apply Hin. simpl. tauto.
    + intros H. injection H as <-. split; [assumption|]. apply Hin. now left.
  - intros url e. unfold category_name_of. split.
    + destruct (rev (split_slash url)) as [|last before] eqn:E.
      * apply (f_equal (@rev string)) in E. rewrite rev_involutive in E.
        now elim (split_slash_nonempty url).
      * destruct (String.eqb_spec last "") as [->|Hl]; simpl; [|discriminate].
        destruct before as [|second rest].
        -- intros H. injection H as <-. split; [|reflexivity].
           apply (f_equal (@rev string)) in E. rewrite rev_involutive in E.
           simpl in E.
           assert (Hs : split_slash url = [url])
             by (apply split_slash_single; now rewrite E).
           rewrite Hs in E. now injection E.
        -- destruct (negb (second =? "")); discriminate.
    + intros [-> ->]. reflexivity.
Qed.

(** ** One URL per page *)


Lemma str_of_nat_inj (n m : nat) : str_of_nat n = str_of_nat m -> n = m.
Proof.
  unfold str_of_nat. intros H.
  apply (f_equal NilEmpty.uint_of_string) in H.
  rewrite !NilEmpty.usu in H. injection H as H.
  apply (f_equal Nat.of_uint) in H.
  now rewrite !Stdlib.Numbers.DecimalNat.Unsigned.of_to in H.
Qed.

Lemma append_cancel (a b c : string) : (a ++ b = a ++ c)%string -> b = c.
Proof.
  induction a as [|x a IH]; simpl; intros H; [assumption|].
  injection H as H. now apply IH.
Qed.

Lemma append_self (a b : string) : (a = a ++ b)%string -> b = "".
Proof.
  intros H. apply (append_cancel a).
  rewrite <- H. clear H. induction a as [|x a IH]; simpl; [reflexivity|].
  now rewrite <- IH.
Qed.

Lemma jumbo_page_url_inj (category_url : string) (n m : nat) :
  Jumbo.page_url category_url n = Jumbo.page_url category_url m -> n = m.
Proof.
  unfold Jumbo.page_url. intros H. apply str_of_nat_inj.
  destruct (contains "?" category_url);
    apply append_cancel in H; now apply (append_cancel _ _ _ H).
Qed.

Lemma unimarc_page_url_inj (category_url : string) (n m : nat) :
  Unimarc.page_url category_url n = Unimarc.page_url category_url m -> n = m.
Proof.
  unfold Unimarc.page_url.
  destruct (Nat.eqb_spec n 1) as [->|Hn], (Nat.eqb_spec m 1) as [->|Hm];
    intros H; [reflexivity | | |].
  - apply append_self in H. discriminate.
  - symmetry in H. apply append_self in H. discriminate.
  - apply str_of_nat_inj. apply append_cancel in H.
    now apply (append_cancel "?page=").
Qed.

Lemma NoDup_map_inj {A B} (f : A -> B) (l : list A) :
  (forall x y, f x = f y -> x = y) -> NoDup l -> NoDup (map f l).
Proof.
  intros Hinj Hnd. induction Hnd as [|x l Hnin Hnd IH]; simpl; constructor.
  - intros Hin. apply in_map_iff in Hin. destruct Hin as (y & Hy & Hin).
    apply Hinj in Hy. now subst.
  - exact IH.
Qed.

(** X5.  Different pages of a category have different URLs, and a crawl
    of a category never loads the same URL twice.  In both scripts. *)
Theorem crawl_loads_each_url_once :
  (forall category_url n m,
     Jumbo.page_url category_url n = Jumbo.page_url category_url m -> n = m) /\
  (forall category_url n m,
     Unimarc.page_url category_url n = Unimarc.page_url category_url m -> n = m) /\
  (forall w category_url category_name existing_products st,
     exists r st' evs,
       Jumbo.scrape_category_products w category_url category_name
         existing_products (S Jumbo.max_pages) st = Done r st' evs /\
       NoDup (gotos evs)) /\
  (forall repr int_of_str w category_url category_name existing_products cap st,
     exists r st' evs,
       Unimarc.scrape_category_products_playwright repr int_of_str w
         category_url category_name existing_products cap
         (S Unimarc.max_pages) st = Done r st' evs /\
       NoDup (gotos evs)).
Proof.
  split; [exact jumbo_page_url_inj|]. split; [exact unimarc_page_url_inj|]. split.
  - intros w url name ex st.
    destruct (runs_done _ _ _ (jumbo_crawl_runs w url name ex _ st
                                 (Nat.lt_succ_diag_r _)))
      as (r & st' & evs & Hrun & (m & Hg & _)).
    exists r, st', evs. split; [exact Hrun|]. rewrite Hg.
    apply NoDup_map_inj; [apply jumbo_page_url_inj | apply seq_NoDup].
  - intros repr ios w url name ex cap st.
    destruct (runs_done _ _ _ (unimarc_crawl_runs repr ios w url name ex cap _ st
                                 (Nat.lt_succ_diag_r _)))
      as (r & st' & evs & Hrun & (m & Hg & _)).
    exists r, st', evs. split; [exact Hrun|]. rewrite Hg.
    apply NoDup_map_inj; [apply unimarc_page_url_inj | apply seq_NoDup].
Qed.

(** ** The filter of a page only appends *)

Lemma dict_keys_app (a b : products) :
  dict_keys (a ++ b) = dict_keys a ++ dict_keys b.
Proof. apply map_app. Qed.

Lemma dict_mem_app_false (a b : products) (k : hkey) :
  dict_mem (a ++ b) k = false -> dict_mem a k = false /\ dict_mem b k = false.
Proof.
  rewrite !dict_mem_false_keys, dict_keys_app. intros H.
  split; intros Hin; apply H; apply in_or_app; auto.
Qed.

Lemma field_setitem_same (d : obj) (k : string) (v : value) :
  field k (setitem d k v) = Some v.
Proof.
  induction d as [|[k0 v0] d IH]; simpl.
  - now rewrite String.eqb_refl.
  - destruct (String.eqb_spec k k0) as [->|Hk]; simpl.
    + now rewrite String.eqb_refl.
    + destruct (String.eqb_spec k k0); [contradiction|exact IH].
Qed.

Lemma dget_setitem_same (d : obj) (k : string) (v default : value) :
  dget (setitem d k v) k default = v.
Proof. unfold dget. now rewrite field_setitem_same. Qed.

(** What the filter appends to [new_products]: entries under keys that
    are pairwise different and were known neither to the store nor to
    [new_products], each satisfying [good]. *)
Definition appended (good : hkey -> obj -> Prop)
    (existing_products new_products added : products) : Prop :=
  NoDup (dict_keys added) /\
  (forall k, In k (dict_keys added) ->
             dict_mem existing_products k = false /\
             dict_mem new_products k = false) /\
  (forall k r, In (k, r) added -> good k r).

Lemma appended_nil (good : hkey -> obj -> Prop) (ex np : products) :
  appended good ex np [].
Proof.
  split; [constructor|]. split; intros; contradiction.
Qed.

Lemma appended_cons (good : hkey -> obj -> Prop) (ex np added : products)
    (k : hkey) (r : obj) :
  dict_mem ex k = false -> dict_mem np k = false -> good k r ->
  appended good ex (np ++ [(k, r)]) added ->
  appended good ex np ((k, r) :: added).
Proof.
  intros Hex Hnp Hgood (Hnd & Hfresh & Hall). split; [|split].
  - simpl. constructor; [|exact Hnd]. intros Hin.
    destruct (Hfresh k Hin) as [_ Hm]. apply dict_mem_app_false in Hm.
    destruct Hm as [_ Hm]. unfold dict_mem in Hm. simpl in Hm.
    now rewrite hkey_eqb_refl in Hm.
  - intros k' [<-|Hin]; [auto|].
    destruct (Hfresh k' Hin) as [He Hm]. apply dict_mem_app_false in Hm. tauto.
  - intros k' r' [H|Hin]; [injection H as <- <-; exact Hgood | now apply Hall].
Qed.

(** A record the jumbo filter adds: a record of the page that passed the
    test, stamped with the category, under its identity key. *)
Definition jumbo_added (category_name : string) (ps : list value)
    (k : hkey) (r : obj) : Prop :=
  exists p, In (VDict p) ps /\ jumbo_accepts p = true /\
            hash_key (identity_key p) = Ok k /\
            r = setitem p "category" (VStr category_name).

Lemma jumbo_filter_appends (category_name : string) (existing_products : products)
    (ps : list value) (valid_products : list obj) (new_products : products) :
  forall valid' new' failure,
    Jumbo.filter_products category_name existing_products ps
      valid_products new_products = (valid', new', failure) ->
    exists added,
      new' = new_products ++ added /\
      valid' = valid_products ++ map snd added /\
      appended (jumbo_added category_name ps) existing_products new_products added.
Proof.
  revert valid_products new_products.
  induction ps as [|p ps IH]; simpl; intros valid np valid' new' failure H.
  - injection H as <- <- <-. exists []. rewrite !app_nil_r.
    split; [reflexivity|]. split; [reflexivity|]. apply appended_nil.
  - assert (Hweak : forall added,
              appended (jumbo_added category_name ps) existing_products np added ->
              appended (jumbo_added category_name (p :: ps)) existing_products np added).
    { intros added (Hnd & Hfresh & Hall).
      split; [exact Hnd|]. split; [exact Hfresh|].
      intros k r Hin. destruct (Hall k r Hin) as (q & Hq & Hrest).
      exists q. split; [now right | exact Hrest]. }
    assert (Hskip :
      Jumbo.filter_products category_name existing_products ps valid np
        = (valid', new', failure) ->
      exists added,
        new' = np ++ added /\ valid' = valid ++ map snd added /\
        appended (jumbo_added category_name (p :: ps)) existing_products np added).
    { intros H'. destruct (IH _ _ _ _ _ H') as (added & H1 & H2 & H3).
      exists added. auto. }
    assert (Hstop : (valid, np, failure) = (valid', new', failure) ->
      exists added,
        new' = np ++ added /\ valid' = valid ++ map snd added /\
        appended (jumbo_added category_name (p :: ps)) existing_products np added).
    { intros H'. injection H' as <- <-. exists []. rewrite !app_nil_r.
      split; [reflexivity|]. split; [reflexivity|]. apply appended_nil. }
    destruct p as [| | | | |d];
      try (injection H as <- <- <-; apply Hstop; reflexivity).
    destruct (Jumbo.has_name_and_price_or_url d) eqn:Hn; [|auto].
    destruct (truthy (identity_key d)) eqn:Ht; [|auto].
    destruct (hash_key (identity_key d)) as [k0|e] eqn:Hk;
      [|injection H as <- <- <-; apply Hstop; reflexivity].
    destruct (dict_mem existing_products k0) eqn:Hex; simpl in H; [auto|].
    destruct (dict_mem np k0) eqn:Hnp; simpl in H; [auto|].
    rewrite (dict_set_fresh np k0 _ Hnp) in H.
    destruct (IH _ _ _ _ _ H) as (added & H1 & H2 & H3).
    exists ((k0, setitem d "category" (VStr category_name)) :: added).
    split; [now rewrite H1, <- app_assoc|].
    split; [now rewrite H2, <- app_assoc|].
    apply appended_cons; try assumption.
    + exists d. split; [now left|]. unfold jumbo_accepts. rewrite Hn, Ht. auto.
    + destruct H3 as (Hnd & Hfresh & Hall).
      split; [exact Hnd|]. split; [exact Hfresh|].
      intros k r Hin. destruct (Hall k r Hin) as (q & Hq & Hrest).
      exists q. split; [now right | exact Hrest].
Qed.

(** A record the unimarc filter adds: built from a product of the page,
    under the crawler's key. *)
Definition unimarc_added (repr : value -> string) (int_of_str : string -> option Z)
    (category_name : string) (ps : list value) (k : hkey) (r : obj) : Prop :=
  exists product price price_original in_stock unit_price image_url promo_text,
    In (VDict product) ps /\
    hash_key (unimarc_key repr product) = Ok k /\
    truthy (unimarc_key repr product) = true /\
    Unimarc.seller_fields product = Ok (price, price_original, in_stock, unit_price) /\
    Unimarc.product_dict repr int_of_str category_name product price price_original
      in_stock unit_price image_url promo_text = Ok r.

Lemma unimarc_convert_added (repr : value -> string)
    (int_of_str : string -> option Z) (category_name : string)
    (existing_products new_products : products) (product : obj)
    (k : hkey) (d : obj) :
  Unimarc.convert repr int_of_str category_name existing_products new_products
    product = Ok (Some (k, d)) ->
  unimarc_added repr int_of_str category_name [VDict product] k d /\
  dict_mem existing_products k = false /\
  dict_mem new_products k = false.
Proof.
  unfold Unimarc.convert. intros H.
  destruct (Unimarc.seller_fields product) as [[[[price po] stock] unit]|] eqn:Hs;
    [|discriminate].
  cbn [obind] in H.
  destruct (Unimarc.first_image product) as [image|]; [|discriminate].
  cbn [obind] in H.
  destruct (Unimarc.promo_text_of product) as [promo|]; [|discriminate].
  cbn [obind] in H. fold (unimarc_key repr product) in H.
  destruct (truthy (unimarc_key repr product)) eqn:Ht; [|discriminate].
  destruct (hash_key (unimarc_key repr product)) as [k0|] eqn:Hk; [|discriminate].
  cbn [obind] in H.
  destruct (dict_mem existing_products k0) eqn:Hex; [discriminate|].
  destruct (dict_mem new_products k0) eqn:Hnp; [discriminate|].
  cbn [negb andb] in H.
  destruct (Unimarc.product_dict _ _ _ _ _ _ _ _ _ _) as [d0|] eqn:Hd;
    [|discriminate].
  cbn [obind] in H. injection H as <- <-.
  split; [|auto].
  exists product, price, po, stock, unit, image, promo.
  split; [now left|]. auto.
Qed.

Lemma unimarc_filter_appends (repr : value -> string)
    (int_of_str : string -> option Z) (category_name : string) (cap : nat)
    (existing_products : products)
    (ps : list value) (valid_products : list obj) (new_products : products) :
  forall valid' new' failure,
    Unimarc.filter_products repr int_of_str category_name cap existing_products
      ps valid_products new_products = (valid', new', failure) ->
    exists added,
      new' = new_products ++ added /\
      valid' = valid_products ++ map snd added /\
      appended (unimarc_added repr int_of_str category_name ps)
        existing_products new_products added /\
      List.length new' <= Nat.max cap (List.length new_products).
Proof.
  revert valid_products new_products.
  induction ps as [|p ps IH]; simpl; intros valid np valid' new' failure H.
  - injection H as <- <- <-. exists []. rewrite !app_nil_r.
    split; [reflexivity|]. split; [reflexivity|].
    split; [apply appended_nil | lia].
  - assert (Hgrow : forall k r,
              unimarc_added repr int_of_str category_name ps k r ->
              unimarc_added repr int_of_str category_name (p :: ps) k r).
    { intros k r (a & b & c & d & e & f & g & Hin & Hrest).
      exists a, b, c, d, e, f, g. split; [now right | exact Hrest]. }
    assert (Hskip :
      Unimarc.filter_products repr int_of_str category_name cap existing_products
        ps valid np = (valid', new', failure) ->
      exists added,
        new' = np ++ added /\ valid' = valid ++ map snd added /\
        appended (unimarc_added repr int_of_str category_name (p :: ps))
          existing_products np added /\
        List.length new' <= Nat.max cap (List.length np)).
    { intros H'. destruct (IH _ _ _ _ _ H') as (added & H1 & H2 & H3 & H4).
      exists added. split; [exact H1|]. split; [exact H2|]. split; [|exact H4].
      destruct H3 as (Hnd & Hfresh & Hall).
      split; [exact Hnd|]. split; [exact Hfresh|].
      intros k r Hin. apply Hgrow. now apply Hall. }
    assert (Hstop : (valid, np, failure) = (valid', new', failure) ->
      exists added,
        new' = np ++ added /\ valid' = valid ++ map snd added /\
        appended (unimarc_added repr int_of_str category_name (p :: ps))
          existing_products np added /\
        List.length new' <= Nat.max cap (List.length np)).
    { intros H'. injection H' as <- <-. exists []. rewrite !app_nil_r.
      split; [reflexivity|]. split; [reflexivity|].
      split; [apply appended_nil | lia]. }
    destruct (Nat.leb_spec cap (List.length np)) as [Hcap|Hcap];
      [injection H as <- <- <-; apply Hstop; reflexivity|].
    destruct p as [| | | | |d];
      try (injection H as <- <- <-; apply Hstop; reflexivity).
    destruct (Unimarc.convert _ _ _ _ _ _) as [[[k0 d0]|]|e] eqn:Hc;
      [| auto | injection H as <- <- <-; apply Hstop; reflexivity].
    apply unimarc_convert_added in Hc. destruct Hc as (Hadded & Hex & Hnp).
    rewrite (dict_set_fresh np k0 _ Hnp) in H.
    destruct (IH _ _ _ _ _ H) as (added & H1 & H2 & H3 & H4).
    exists ((k0, d0) :: added).
    split; [now rewrite H1, <- app_assoc|].
    split; [now rewrite H2, <- app_assoc|]. split.
    + apply appended_cons; try assumption.
      * destruct Hadded as (a & b & c & d' & e & f & g & [Hin|[]] & Hrest).
        exists a, b, c, d', e, f, g. split; [now left | exact Hrest].
      * destruct H3 as (Hnd & Hfresh & Hall).
        split; [exact Hnd|]. split; [exact Hfresh|].
        intros k r Hin. apply Hgrow. now apply Hall.
    + rewrite length_app in H4. simpl in H4. lia.
Qed.

(** X6.  The filter of a page only appends to [new_products]: the
    entries it had stay where they were, unchanged; the new ones follow,
    one per record added to [valid_products] and in the same order,
    under keys that are pairwise different and were known neither to
    the store nor to [new_products].  So the count the crawler prints
    for a page is the number of entries the page added.  In both
    scripts. *)
Theorem filter_only_appends :
  (forall category_name existing_products ps valid_products new_products,
     let '(valid', new', _) :=
       Jumbo.filter_products category_name existing_products ps
         valid_products new_products in
     exists added,
       new' = new_products ++ added /\
       valid' = valid_products ++ map snd added /\
       NoDup (dict_keys added) /\
       forall k, In k (dict_keys added) ->
                 dict_mem existing_products k = false /\
                 dict_mem new_products k = false) /\
  (forall repr int_of_str category_name cap existing_products ps
          valid_products new_products,
     let '(valid', new', _) :=
       Unimarc.filter_products repr int_of_str category_name cap
         existing_products ps valid_products new_products in
     exists added,
       new' = new_products ++ added /\
       valid' = valid_products ++ map snd added /\
       NoDup (dict_keys added) /\
       forall k, In k (dict_keys added) ->
                 dict_mem existing_products k = false /\
                 dict_mem new_products k = false).
Proof.
  split.
  - intros cat ex ps valid np.
    destruct (Jumbo.filter_products cat ex ps valid np) as [[valid' new'] failure] eqn:H.
    destruct (jumbo_filter_appends _ _ _ _ _ _ _ _ H) as (added & H1 & H2 & H3 & H4 & _).
    exists added. auto.
  - intros repr ios cat cap ex ps valid np.
    destruct (Unimarc.filter_products repr ios cat cap ex ps valid np)
      as [[valid' new'] failure] eqn:H.
    destruct (unimarc_filter_appends _ _ _ _ _ _ _ _ _ _ _ H)
      as (added & H1 & H2 & (H3 & H4 & _) & _).
    exists added. auto.
Qed.

(** ** What a crawl returns *)

(** [returns m P]: whenever [m] ends with a value, the value satisfies [P]. *)
Definition returns {A} (m : M A) (P : A -> Prop) : Prop :=
  forall st, match m st with Done (Ok a) _ _ => P a | _ => True end.

Lemma returns_bind {A B} (m : M A) (f : A -> M B) (P : B -> Prop) :
  (forall a, returns (f a) P) -> returns (bind m f) P.
Proof.
  intros Hf st. unfold bind. destruct (m st) as [|[a|e] st1 evs1]; auto.
  specialize (Hf a st1). destruct (f a st1) as [|[b|e] st2 evs2]; auto.
Qed.

Lemma returns_bind_with {A B} (m : M A) (f : A -> M B)
    (P1 : A -> Prop) (P : B -> Prop) :
  returns m P1 -> (forall a, P1 a -> returns (f a) P) -> returns (bind m f) P.
Proof.
  intros Hm Hf st. unfold bind. specialize (Hm st).
  destruct (m st) as [|[a|e] st1 evs1]; auto.
  specialize (Hf a Hm st1). destruct (f a st1) as [|[b|e] st2 evs2]; auto.
Qed.

Lemma returns_ret {A} (a : A) (P : A -> Prop) : P a -> returns (ret a) P.
Proof. intros H st. exact H. Qed.

Lemma returns_raise {A} (e : exn) (P : A -> Prop) : returns (raise e) P.
Proof. intros st. exact I. Qed.

Lemma returns_while {L} (cond : L -> bool) (body : L -> M (ctl * L))
    (Inv : L -> Prop) :
  (forall s, Inv s -> returns (body s) (fun r => Inv (snd r))) ->
  forall fuel s, Inv s -> returns (while_loop fuel cond body s) Inv.
Proof.
  intros Hbody. induction fuel as [|fuel IH]; intros s Hs st; [exact I|].
  cbn [while_loop]. destruct (cond s); [|exact Hs].
  unfold bind. specialize (Hbody s Hs st).
  destruct (body s st) as [|[[c s']|e] st1 evs1]; auto.
  simpl in Hbody. destruct c.
  - specialize (IH s' Hbody st1).
    destruct (while_loop fuel cond body s' st1) as [|[a|e] st2 evs2]; auto.
  - exact Hbody.
Qed.

Lemma appended_NoDup (good : hkey -> obj -> Prop) (ex np added : products) :
  appended good ex np added ->
  NoDup (dict_keys np) -> NoDup (dict_keys (np ++ added)).
Proof.
  intros (Hnd & Hfresh & _) Hnp. rewrite dict_keys_app.
  apply NoDup_app; [assumption | assumption |].
  intros k Hin Hin'. destruct (Hfresh k Hin') as [_ Hm].
  apply dict_mem_false_keys in Hm. contradiction.
Qed.

(** The invariant of [new_products] in a crawl: its keys are unique,
    and every entry is unknown to [existing_products] and satisfies
    [good]. *)
Definition crawl_inv (good : obj -> Prop) (existing_products np : products) : Prop :=
  NoDup (dict_keys np) /\
  forall k r, In (k, r) np -> dict_mem existing_products k = false /\ good r.

Lemma crawl_inv_nil (good : obj -> Prop) (ex : products) : crawl_inv good ex [].
Proof. split; [constructor | intros k r []]. Qed.

Lemma crawl_inv_app (good : obj -> Prop) (good' : hkey -> obj -> Prop)
    (ex np added : products) :
  (forall k r, good' k r -> good r) ->
  appended good' ex np added ->
  crawl_inv good ex np -> crawl_inv good ex (np ++ added).
Proof.
  intros Hgood Happ [Hnd Hall]. split; [now apply (appended_NoDup good' ex)|].
  intros k r Hin. apply in_app_or in Hin. destruct Hin as [Hin|Hin]; [auto|].
  destruct Happ as (_ & Hfresh & Hadded). split.
  - apply Hfresh. apply in_map_iff. exists (k, r). auto.
  - eapply Hgood, Hadded, Hin.
Qed.

Lemma returns_on_page_error {A} (page_num : nat) (e : exn) (x : A)
    (P : A -> Prop) :
  P x -> returns (on_page_error page_num e ;; ret x) P.
Proof. intros H. apply returns_bind. intros _. now apply returns_ret. Qed.

Lemma returns_unimarc_on_page_error {A} (page_num : nat) (e : exn) (x : A)
    (P : A -> Prop) :
  P x -> returns (Unimarc.on_page_error page_num e ;; ret x) P.
Proof. intros H. apply returns_bind. intros _. now apply returns_ret. Qed.

Section JumboResult.

Variable w : world.
Variables category_url category_name : string.
Variable existing_products : products.

Definition jumbo_stamped (r : obj) : Prop :=
  dget r "category" VNone = VStr category_name.

Lemma jumbo_scrape_page_inv (loc : nat * products) :
  crawl_inv jumbo_stamped existing_products (snd loc) ->
  returns (Jumbo.scrape_page w category_url category_name existing_products loc)
    (fun r => crawl_inv jumbo_stamped existing_products (snd (snd r))).
Proof.
  destruct loc as [p np]. simpl. intros Hinv. unfold Jumbo.scrape_page.
  apply returns_bind. intros skip. destruct skip.
  { apply returns_bind. intros _. apply returns_bind. intros _.
    now apply returns_ret. }
  apply returns_bind. intros [[pv ps]|e];
    [|now apply returns_on_page_error].
  destruct (Jumbo.filter_products category_name existing_products ps [] np)
    as [[valid np'] failure] eqn:Hf.
  assert (Hinv' : crawl_inv jumbo_stamped existing_products np').
  { destruct (jumbo_filter_appends _ _ _ _ _ _ _ _ Hf) as (added & -> & _ & Happ).
    apply (crawl_inv_app _ (jumbo_added category_name ps) _ _ _);
      [|exact Happ|exact Hinv].
    intros k r (q & _ & _ & _ & ->). apply dget_setitem_same. }
  destruct failure as [e|].
  - unfold caught. destruct (is_Exception e);
      [now apply returns_on_page_error | apply returns_raise].
  - apply returns_bind. intros [[|]|e];
      [now apply returns_ret | now apply returns_ret
      | now apply returns_on_page_error].
Qed.

Lemma jumbo_crawl_inv (fuel : nat) :
  returns (Jumbo.scrape_category_products w category_url category_name
             existing_products fuel)
    (crawl_inv jumbo_stamped existing_products).
Proof.
  unfold Jumbo.scrape_category_products.
  apply returns_bind. intros _. apply returns_bind. intros _.
  apply (returns_bind_with _ _
           (fun loc => crawl_inv jumbo_stamped existing_products (snd loc))).
  - apply returns_while.
    + intros loc. apply jumbo_scrape_page_inv.
    + apply crawl_inv_nil.
  - intros loc H. now apply returns_ret.
Qed.

End JumboResult.

(** The fields of a record as the unimarc crawler builds it. *)
Definition unimarc_schema : list string :=
  [ "id"; "name"; "brand"; "category"; "price"; "price_original"; "currency";
    "size"; "unit_price"; "image_url"; "product_url"; "in_stock"; "promo_text";
    "sku"; "rating"; "description" ].

Definition int_or_null (v : value) : Prop := v = VNone \/ exists n, v = VInt n.

Definition unimarc_record (category_name : string) (r : obj) : Prop :=
  map fst r = unimarc_schema /\
  dget r "category" VNone = VStr category_name /\
  dget r "currency" VNone = VStr "CLP" /\
  dget r "rating" VNone = VNone /\
  int_or_null (dget r "price" VNone) /\
  int_or_null (dget r "price_original" VNone) /\
  (exists b, dget r "in_stock" VNone = VBool b) /\
  (dget r "product_url" VNone = VNone \/
   exists path,
     dget r "product_url" VNone = VStr ("https://www.unimarc.cl" ++ path)).

Section UnimarcResult.

Variable repr : value -> string.
Variable int_of_str : string -> option Z.

Lemma int_or_none_int_or_null (cond : bool) (x v : value) :
  Unimarc.int_or_none int_of_str cond x = Ok v -> int_or_null v.
Proof.
  unfold Unimarc.int_or_none, Unimarc.py_int.
  destruct cond; [|intros H; injection H as <-; now left].
  destruct x; try discriminate.
  - intros H. injection H as <-. right. eauto.
  - intros H. injection H as <-. right. eauto.
  - destruct (int_of_str s); [|discriminate].
    intros H. injection H as <-. right. eauto.
Qed.

Lemma seller_fields_in_stock (product : obj) (a b c d : value) :
  Unimarc.seller_fields product = Ok (a, b, c, d) -> exists s, c = VBool s.
Proof.
  unfold Unimarc.seller_fields.
  destruct (truthy (dget product "sellers" (VList [])));
    [|intros H; injection H as _ _ <- _; eauto].
  destruct (py_first _) as [fs|]; [|discriminate]. cbn [obind].
  destruct (get fs "price" VNone); [|discriminate]. cbn [obind].
  destruct (get fs "listPrice" VNone); [|discriminate]. cbn [obind].
  destruct (get fs "availableQuantity" (VInt 0)); [|discriminate]. cbn [obind].
  destruct (py_gt0 _) as [s|]; [|discriminate]. cbn [obind].
  destruct (get fs "ppum" VNone); [|discriminate]. cbn [obind].
  intros H. injection H as _ _ <- _. eauto.
Qed.

Lemma unimarc_added_record (category_name : string) (ps : list value)
    (k : hkey) (r : obj) :
  unimarc_added repr int_of_str category_name ps k r ->
  unimarc_record category_name r.
Proof.
  intros (product & price & po & stock & unit & image & promo
          & _ & _ & _ & Hs & Hd).
  apply seller_fields_in_stock in Hs. destruct Hs as [s ->].
  unfold Unimarc.product_dict in Hd.
  destruct (Unimarc.int_or_none int_of_str (truthy price) price) as [p1|] eqn:H1;
    [|discriminate].
  cbn [obind] in Hd.
  destruct (Unimarc.int_or_none int_of_str _ po) as [p2|] eqn:H2;
    [|discriminate].
  cbn [obind] in Hd. injection Hd as <-.
  apply int_or_none_int_or_null in H1, H2.
  unfold unimarc_record.
  split; [reflexivity|]. split; [reflexivity|]. split; [reflexivity|].
  split; [reflexivity|]. split; [exact H1|]. split; [exact H2|].
  split; [exists s; reflexivity|].
  change (dget _ "product_url" VNone) with (Unimarc.product_url_of repr product).
  unfold Unimarc.product_url_of.
  destruct (truthy (dget product "detailUrl" (VStr ""))); [right|now left].
  eexists. reflexivity.
Qed.

Variable w : world.
Variables category_url category_name : string.
Variable existing_products : products.
Variable max_products_per_category : nat.

Definition unimarc_inv (np : products) : Prop :=
  crawl_inv (unimarc_record category_name) existing_products np /\
  List.length np <= max_products_per_category.

Lemma unimarc_scrape_page_inv (loc : nat * products) :
  unimarc_inv (snd loc) ->
  returns (Unimarc.scrape_page repr int_of_str w category_url category_name
             existing_products max_products_per_category loc)
    (fun r => unimarc_inv (snd (snd r))).
Proof.
  destruct loc as [p np]. simpl. intros Hinv. unfold Unimarc.scrape_page.
  apply returns_bind. intros skip. destruct skip.
  { apply returns_bind. intros _. apply returns_bind. intros _.
    now apply returns_ret. }
  destruct (max_products_per_category <=? List.length np)%nat.
  { apply returns_bind. intros _. now apply returns_ret. }
  apply returns_bind. intros [ps|e];
    [|now apply returns_unimarc_on_page_error].
  destruct (Unimarc.filter_products repr int_of_str category_name
              max_products_per_category existing_products ps [] np)
    as [[valid np'] failure] eqn:Hf.
  assert (Hinv' : unimarc_inv np').
  { destruct (unimarc_filter_appends _ _ _ _ _ _ _ _ _ _ _ Hf)
      as (added & -> & _ & Happ & Hlen).
    destruct Hinv as [Hc Hl]. split; [|lia].
    apply (crawl_inv_app _ (unimarc_added repr int_of_str category_name ps) _ _ _);
      [|exact Happ|exact Hc].
    intros k r. apply unimarc_added_record. }
  destruct failure as [e|].
  - unfold caught. destruct (is_Exception e);
      [now apply returns_unimarc_on_page_error | apply returns_raise].
  - apply returns_bind. intros [[|]|e];
      [now apply returns_ret | now apply returns_ret
      | now apply returns_unimarc_on_page_error].
Qed.

Lemma unimarc_crawl_inv (fuel : nat) :
  returns (Unimarc.scrape_category_products_playwright repr int_of_str w
             category_url category_name existing_products
             max_products_per_category fuel)
    unimarc_inv.
Proof.
  unfold Unimarc.scrape_category_products_playwright.
  apply returns_bind. intros _. apply returns_bind. intros _.
  apply returns_bind. intros _.
  apply (returns_bind_with _ _ (fun loc => unimarc_inv (snd loc))).
  - apply returns_while.
    + intros loc. apply unimarc_scrape_page_inv.
    + split; [apply crawl_inv_nil | simpl; lia].
  - intros loc H. now apply returns_ret.
Qed.

End UnimarcResult.

(** X7.  The result of a category crawl holds only records that are new
    and stamped: its keys are pairwise different, none of them is a key
    of [existing_products], and the [category] field of every record is
    the name of the category crawled.  In both scripts. *)
Theorem crawl_result_new_and_stamped :
  (forall w category_url category_name existing_products st,
     exists r st' evs,
       Jumbo.scrape_category_products w category_url category_name
         existing_products (S Jumbo.max_pages) st = Done r st' evs /\
       forall d, r = Ok d ->
         NoDup (dict_keys d) /\
         forall k rec, In (k, rec) d ->
           dict_mem existing_products k = false /\
           dget rec "category" VNone = VStr category_name) /\
  (forall repr int_of_str w category_url category_name existing_products cap st,
     exists r st' evs,
       Unimarc.scrape_category_products_playwright repr int_of_str w
         category_url category_name existing_products cap
         (S Unimarc.max_pages) st = Done r st' evs /\
       forall d, r = Ok d ->
         NoDup (dict_keys d) /\
         forall k rec, In (k, rec) d ->
           dict_mem existing_products k = false /\
           dget rec "category" VNone = VStr category_name).
Proof.
  split.
  - intros w url name ex st.
    destruct (runs_done _ _ _ (jumbo_crawl_runs w url name ex _ st
                                 (Nat.lt_succ_diag_r _)))
      as (r & st' & evs & Hrun & _).
    exists r, st', evs. split; [exact Hrun|]. intros d ->.
    pose proof (jumbo_crawl_inv w url name ex (S Jumbo.max_pages) st) as H.
    rewrite Hrun in H. exact H.
  - intros repr ios w url name ex cap st.
    destruct (runs_done _ _ _ (unimarc_crawl_runs repr ios w url name ex cap _ st
                                 (Nat.lt_succ_diag_r _)))
      as (r & st' & evs & Hrun & _).
    exists r, st', evs. split; [exact Hrun|]. intros d ->.
    pose proof (unimarc_crawl_inv repr ios w url name ex cap
                  (S Unimarc.max_pages) st) as H.
    rewrite Hrun in H. destruct H as [[Hnd Hall] _].
    split; [exact Hnd|]. intros k rec Hin.
    destruct (Hall k rec Hin) as [Hex Hrec]. split; [exact Hex|]. apply Hrec.
Qed.

(** X8.  A unimarc category crawl never returns more than
    [max_products_per_category] records. *)
Theorem unimarc_crawl_respects_product_cap
    (repr : value -> string) (int_of_str : string -> option Z)
    (w : world) (category_url category_name : string)
    (existing_products : products) (max_products_per_category : nat)
    (st : state) :
  exists r st' evs,
    Unimarc.scrape_category_products_playwright repr int_of_str w
      category_url category_name existing_products max_products_per_category
      (S Unimarc.max_pages) st = Done r st' evs /\
    forall d, r = Ok d -> List.length d <= max_products_per_category.
Proof.
  destruct (runs_done _ _ _
              (unimarc_crawl_runs repr int_of_str w category_url category_name
                 existing_products max_products_per_category _ st
                 (Nat.lt_succ_diag_r _)))
    as (r & st' & evs & Hrun & _).
  exists r, st', evs. split; [exact Hrun|]. intros d ->.
  pose proof (unimarc_crawl_inv repr int_of_str w category_url category_name
                existing_products max_products_per_category
                (S Unimarc.max_pages) st) as H.
  rewrite Hrun in H. apply H.
Qed.

(** X9.  Every record in the result of a unimarc category crawl has
    the sixteen fields of the data model, in their order; its currency
    is ["CLP"], its rating null, its price and original price are
    integers or null, its stock status is a boolean, and its product
    URL is null or begins with the site's origin. *)
Theorem unimarc_crawl_builds_full_records
    (repr : value -> string) (int_of_str : string -> option Z)
    (w : world) (category_url category_name : string)
    (existing_products : products) (max_products_per_category : nat)
    (st : state) :
  exists r st' evs,
    Unimarc.scrape_category_products_playwright repr int_of_str w
      category_url category_name existing_products max_products_per_category
      (S Unimarc.max_pages) st = Done r st' evs /\
    forall d k rec, r = Ok d -> In (k, rec) d ->
      map fst rec = unimarc_schema /\
      dget rec "currency" VNone = VStr "CLP" /\
      dget rec "rating" VNone = VNone /\
      int_or_null (dget rec "price" VNone) /\
      int_or_null (dget rec "price_original" VNone) /\
      (exists b, dget rec "in_stock" VNone = VBool b) /\
      (dget rec "product_url" VNone = VNone \/
       exists path,
         dget rec "product_url" VNone = VStr ("https://www.unimarc.cl" ++ path)).
Proof.
  destruct (runs_done _ _ _
              (unimarc_crawl_runs repr int_of_str w category_url category_name
                 existing_products max_products_per_category _ st
                 (Nat.lt_succ_diag_r _)))
    as (r & st' & evs & Hrun & _).
  exists r, st', evs. split; [exact Hrun|]. intros d k rec -> Hin.
  pose proof (unimarc_crawl_inv repr int_of_str w category_url category_name
                existing_products max_products_per_category
                (S Unimarc.max_pages) st) as H.
  rewrite Hrun in H. destruct H as [[_ Hall] _].
  destruct (Hall k rec Hin) as [_ Hrec]. unfold unimarc_record in Hrec. tauto.
Qed.

(** ** The write-through, read back *)

Lemma dict_update_NoDup (e d : products) :
  NoDup (dict_keys d) -> NoDup (dict_keys (dict_update d e)).
Proof.
  unfold dict_update. revert d. induction e as [|[k v] e IH]; simpl; intros d H;
    [assumption|]. apply IH. now apply dict_set_NoDup.
Qed.

Lemma dict_update_keyed (e d : products) :
  keyed_by_identity d -> keyed_by_identity e ->
  keyed_by_identity (dict_update d e).
Proof.
  unfold dict_update. revert d. induction e as [|[k v] e IH]; simpl; intros d Hd He;
    [assumption|]. apply IH.
  - intros k' r' Hin. apply dict_set_In in Hin.
    destruct Hin as [Hin|[-> ->]]; [now apply Hd|]. apply He. now left.
  - intros k' r' Hin. apply He. now right.
Qed.

Lemma dict_set_mem (d : products) (k k' : hkey) (v : obj) :
  dict_mem d k' = true -> dict_mem (dict_set d k v) k' = true.
Proof.
  rewrite !dict_mem_keys, dict_keys_set. intros H.
  destruct (dict_mem d k); [assumption|]. apply in_or_app. now left.
Qed.

Lemma dict_update_mem (e d : products) (k : hkey) :
  dict_mem d k = true -> dict_mem (dict_update d e) k = true.
Proof.
  unfold dict_update. revert d. induction e as [|[k0 v] e IH]; simpl; intros d H;
    [assumption|]. apply IH. now apply dict_set_mem.
Qed.

Lemma dict_update_get_absent (e d : products) (k : hkey) :
  ~ In k (dict_keys e) -> dict_get (dict_update d e) k = dict_get d k.
Proof.
  unfold dict_update. revert d. induction e as [|[k0 v] e IH]; simpl; intros d H;
    [reflexivity|].
  rewrite IH by tauto. apply dict_get_set_other. intros ->. tauto.
Qed.

Lemma dict_update_get_new (e d : products) (k : hkey) (r : obj) :
  NoDup (dict_keys e) -> In (k, r) e -> dict_get (dict_update d e) k = Some r.
Proof.
  revert d. induction e as [|[k0 v] e IH]; simpl; intros d Hnd Hin; [contradiction|].
  inversion Hnd as [|? ? Hnin Hnd']; subst.
  destruct Hin as [H|Hin].
  - injection H as -> ->.
    change (dict_get (dict_update (dict_set d k r) e) k = Some r).
    rewrite dict_update_get_absent by assumption. apply dict_get_set_same.
  - apply (IH (dict_set d k0 v) Hnd' Hin).
Qed.

(** X10.  After a write-through that succeeds, loading the document
    gives exactly the records that were loaded before it, updated with
    [new_products]: every new product is there under its key, and no
    key that was in the document has gone. *)
Theorem write_through_then_reload
    (w : world) (n : nat) (new_products : products) (st : state)
    (Hkeyed : keyed_by_identity new_products)
    (Hunique : NoDup (dict_keys new_products)) :
  match append_to_json w n new_products st with
  | Done (Ok _) st' _ =>
      let merged := dict_update (loaded (disk st)) new_products in
      load_existing_products st' = Done (Ok merged) st' [] /\
      (forall k r, In (k, r) new_products -> dict_get merged k = Some r) /\
      (forall k, dict_mem (loaded (disk st)) k = true -> dict_mem merged k = true)
  | _ => True
  end.
Proof.
  pose proof (append_to_json_disk w n new_products st) as Hdisk.
  destruct (append_to_json w n new_products st) as [|[u|e] st' evs]; auto.
  cbv zeta. split; [|split].
  - rewrite load_existing_products_run, Hdisk.
    assert (Hnd : NoDup (dict_keys (dict_update (loaded (disk st)) new_products)))
      by apply dict_update_NoDup, loaded_NoDup.
    assert (Hk : keyed_by_identity (dict_update (loaded (disk st)) new_products))
      by (apply dict_update_keyed; [apply loaded_keyed | exact Hkeyed]).
    remember (dict_update (loaded (disk st)) new_products) as merged.
    assert (Hbody : load_body (dumped merged) = Ok merged)
      by (unfold load_body, dumped; simpl; now apply (load_items_values _ [])).
    unfold loaded, load_warning, dumped in *. now rewrite Hbody.
  - intros k r Hin. now apply dict_update_get_new.
  - intros k. apply dict_update_mem.
Qed.

Lemma write_through_then_reload_witness :
  keyed_by_identity milk_store /\
  NoDup (dict_keys milk_store) /\
  match append_to_json quiet_world 1 milk_store st_empty with
  | Done (Ok _) st' _ =>
      let merged := dict_update (loaded (disk st_empty)) milk_store in
      load_existing_products st' = Done (Ok merged) st' [] /\
      (forall k r, In (k, r) milk_store -> dict_get merged k = Some r) /\
      (forall k, dict_mem (loaded (disk st_empty)) k = true -> dict_mem merged k = true)
  | _ => True
  end.
Proof.
  assert (Hk : keyed_by_identity milk_store).
  { intros k r [H|[]]. injection H as <- <-. split; reflexivity. }
  assert (Hn : NoDup (dict_keys milk_store)).
  { repeat constructor. simpl. tauto. }
  split; [exact Hk|]. split; [exact Hn|].
  exact (write_through_then_reload quiet_world 1 milk_store st_empty Hk Hn).
Defined.

(** ** The batch: failures of a category stay in the category *)

(** [throws m P]: whenever [m] ends with an exception, the exception
    satisfies [P]. *)
Definition throws {A} (m : M A) (P : exn -> Prop) : Prop :=
  forall st, match m st with Done (Raise e) _ _ => P e | _ => True end.

Definition fatal (e : exn) : Prop := is_Exception e = false.

Lemma throws_bind {A B} (m : M A) (f : A -> M B) (P : exn -> Prop) :
  throws m P -> (forall a, throws (f a) P) -> throws (bind m f) P.
Proof.
  intros Hm Hf st. unfold bind. specialize (Hm st).
  destruct (m st) as [|[a|e] st1 evs1]; auto.
  specialize (Hf a st1). destruct (f a st1) as [|[b|e] st2 evs2]; auto.
Qed.

Lemma throws_try_except {A} (m : M A) : throws (try_except m) fatal.
Proof.
  intros st. unfold try_except. destruct (m st) as [|[a|e] st1 evs1]; auto.
  destruct (is_Exception e) eqn:E; [exact I | exact E].
Qed.

Lemma throws_ret {A} (a : A) (P : exn -> Prop) : throws (ret a) P.
Proof. intros st. exact I. Qed.

Lemma throws_emit (e : event) (P : exn -> Prop) : throws (emit e) P.
Proof. intros st. exact I. Qed.

Lemma throws_gets {A} (f : state -> A) (P : exn -> Prop) : throws (gets f) P.
Proof. intros st. exact I. Qed.

Lemma throws_modify (f : state -> state) (P : exn -> Prop) : throws (modify f) P.
Proof. intros st. exact I. Qed.

Lemma throws_on_page_error (page_num : nat) (e : exn) (P : exn -> Prop) :
  throws (on_page_error page_num e) P.
Proof. unfold on_page_error. destruct (is_timeout e); apply throws_emit. Qed.

Lemma throws_unimarc_on_page_error (page_num : nat) (e : exn) (P : exn -> Prop) :
  throws (Unimarc.on_page_error page_num e) P.
Proof.
  unfold Unimarc.on_page_error. destruct (is_timeout e); [apply throws_emit|].
  apply throws_bind; [apply throws_emit | intros _; apply throws_emit].
Qed.

Lemma throws_caught {A} (e : exn) (handler : M A) :
  throws handler fatal -> throws (caught e handler) fatal.
Proof.
  intros H. unfold caught. destruct (is_Exception e) eqn:E; [exact H|].
  intros st. exact E.
Qed.

Lemma throws_while {L} (cond : L -> bool) (body : L -> M (ctl * L))
    (P : exn -> Prop) :
  (forall s, throws (body s) P) ->
  forall fuel s, throws (while_loop fuel cond body s) P.
Proof.
  intros Hbody. induction fuel as [|fuel IH]; intros s; [intros st; exact I|].
  cbn [while_loop]. destruct (cond s); [|apply throws_ret].
  apply throws_bind; [apply Hbody|]. intros [[|] s']; [apply IH | apply throws_ret].
Qed.

Lemma jumbo_scrape_page_throws (w : world) (category_url category_name : string)
    (existing_products : products) (loc : nat * products) :
  throws (Jumbo.scrape_page w category_url category_name existing_products loc) fatal.
Proof.
  destruct loc as [p np]. unfold Jumbo.scrape_page.
  apply throws_bind; [apply throws_gets|]. intros skip. destruct skip.
  { apply throws_bind; [apply throws_emit|]. intros _.
    apply throws_bind; [apply throws_modify | intros _; apply throws_ret]. }
  apply throws_bind; [apply throws_try_except|]. intros [[pv ps]|e].
  - destruct (Jumbo.filter_products _ _ _ _ _) as [[valid np'] [e|]].
    + apply throws_caught.
      apply throws_bind; [apply throws_on_page_error | intros _; apply throws_ret].
    + apply throws_bind; [apply throws_try_except|]. intros [[|]|e];
        try apply throws_ret.
      apply throws_bind; [apply throws_on_page_error | intros _; apply throws_ret].
  - apply throws_bind; [apply throws_on_page_error | intros _; apply throws_ret].
Qed.

Lemma unimarc_scrape_page_throws (repr : value -> string)
    (int_of_str : string -> option Z) (w : world)
    (category_url category_name : string) (existing_products : products)
    (cap : nat) (loc : nat * products) :
  throws (Unimarc.scrape_page repr int_of_str w category_url category_name
            existing_products cap loc) fatal.
Proof.
  destruct loc as [p np]. unfold Unimarc.scrape_page.
  apply throws_bind; [apply throws_gets|]. intros skip. destruct skip.
  { apply throws_bind; [apply throws_emit|]. intros _.
    apply throws_bind; [apply throws_modify | intros _; apply throws_ret]. }
  destruct (cap <=? List.length np)%nat.
  { apply throws_bind; [apply throws_emit | intros _; apply throws_ret]. }
  apply throws_bind; [apply throws_try_except|]. intros [ps|e].
  - destruct (Unimarc.filter_products _ _ _ _ _ _ _ _) as [[valid np'] [e|]].
    + apply throws_caught.
      apply throws_bind; [apply throws_unimarc_on_page_error
                         | intros _; apply throws_ret].
    + apply throws_bind; [apply throws_try_except|]. intros [[|]|e];
        try apply throws_ret.
      apply throws_bind; [apply throws_unimarc_on_page_error
                         | intros _; apply throws_ret].
  - apply throws_bind; [apply throws_unimarc_on_page_error
                       | intros _; apply throws_ret].
Qed.

Lemma crawl_categories_throws (w : world)
    (scrape : string -> string -> products -> nat -> M products)
    (fuel : nat) (existing_products : products) (cats : list string) :
  forall all_new_products,
    throws (Orchestrator.crawl_categories w scrape fuel existing_products cats
              all_new_products) fatal.
Proof.
  induction cats as [|url cats IH]; intros all_new; cbn [Orchestrator.crawl_categories];
    [apply throws_ret|].
  apply throws_bind; [apply throws_gets|]. intros quit. destruct quit.
  { apply throws_bind; [apply throws_emit | intros _; apply throws_ret]. }
  apply throws_bind; [apply throws_try_except|]. intros [new|e].
  - apply throws_bind; [apply throws_try_except|]. intros [u|e]; [apply IH|].
    apply throws_bind; [apply throws_emit | intros _; apply IH].
  - apply throws_bind; [apply throws_emit | intros _; apply IH].
Qed.

(** X11.  An exception of class [Exception] never leaves a category
    crawl, and never leaves the loop over the categories, whatever the
    crawler: a timeout, an extractor error, a malformed page, a failed
    write or a category URL without a name end the page or the category
    at most, and the loop goes on with the next category.  Only errors
    outside [Exception] propagate.  In both scripts. *)
Theorem category_failures_are_isolated :
  (forall w category_url category_name existing_products fuel st,
     match Jumbo.scrape_category_products w category_url category_name
             existing_products fuel st with
     | Done (Raise e) _ _ => is_Exception e = false
     | _ => True
     end) /\
  (forall repr int_of_str w category_url category_name existing_products cap
          fuel st,
     match Unimarc.scrape_category_products_playwright repr int_of_str w
             category_url category_name existing_products cap fuel st with
     | Done (Raise e) _ _ => is_Exception e = false
     | _ => True
     end) /\
  (forall w scrape fuel existing_products cats all_new_products st,
     match Orchestrator.crawl_categories w scrape fuel existing_products cats
             all_new_products st with
     | Done (Raise e) _ _ => is_Exception e = false
     | _ => True
     end).
Proof.
  split; [|split].
  - intros w url name ex fuel. unfold Jumbo.scrape_category_products.
    apply throws_bind; [apply throws_emit|]. intros _.
    apply throws_bind; [apply throws_emit|]. intros _.
    apply throws_bind; [|intros loc; apply throws_ret].
    apply throws_while. intros loc. apply jumbo_scrape_page_throws.
  - intros repr ios w url name ex cap fuel.
    unfold Unimarc.scrape_category_products_playwright.
    apply throws_bind; [apply throws_emit|]. intros _.
    apply throws_bind; [apply throws_emit|]. intros _.
    apply throws_bind; [apply throws_emit|]. intros _.
    apply throws_bind; [|intros loc; apply throws_ret].
    apply throws_while. intros loc. apply unimarc_scrape_page_throws.
  - intros w scrape fuel ex cats all_new. apply crawl_categories_throws.
Qed.

(** ** The batch ends, and how many pages it loads *)

(** [loads_at_most n m]: from every state [m] ends, having loaded at
    most [n] pages. *)
Definition loads_at_most {A} (n : nat) (m : M A) : Prop :=
  forall st, runs m st (fun _ _ evs => List.length (gotos evs) <= n).

Lemma loads_weaken {A} (n n' : nat) (m : M A) :
  n <= n' -> loads_at_most n m -> loads_at_most n' m.
Proof.
  intros Hn Hm st. eapply runs_weaken; [apply Hm|]. cbv beta. intros. lia.
Qed.

Lemma loads_bind {A B} (n1 n2 : nat) (m : M A) (f : A -> M B) :
  loads_at_most n1 m -> (forall a, loads_at_most n2 (f a)) ->
  loads_at_most (n1 + n2) (bind m f).
Proof.
  intros Hm Hf st. apply runs_bind. eapply runs_weaken; [apply Hm|].
  intros [a|e] st1 evs1 H1; [|lia].
  eapply runs_weaken; [apply Hf|]. cbv beta. intros _ _ evs2 H2.
  rewrite gotos_app, length_app. lia.
Qed.

Lemma loads_try_except {A} (n : nat) (m : M A) :
  loads_at_most n m -> loads_at_most n (try_except m).
Proof.
  intros Hm st. apply runs_try_except. eapply runs_weaken; [apply Hm|].
  intros [a|e] st1 evs H; [assumption|]. now destruct (is_Exception e).
Qed.

Lemma loads_try_finally {A} (n1 n2 : nat) (m : M A) (fin : M unit) :
  loads_at_most n1 m -> loads_at_most n2 fin ->
  loads_at_most (n1 + n2) (try_finally m fin).
Proof.
  intros Hm Hf st. unfold runs, try_finally.
  specialize (Hm st). unfold runs in Hm.
  destruct (m st) as [|r st1 evs1]; [contradiction|].
  specialize (Hf st1). unfold runs in Hf.
  destruct (fin st1) as [|[u|e] st2 evs2]; [contradiction| |];
    rewrite gotos_app, length_app; lia.
Qed.

Lemma loads_quiet {A} (m : M A) : quiet m -> loads_at_most 0 m.
Proof.
  intros Hm st. eapply runs_weaken; [apply Hm|]. cbv beta.
  intros _ _ evs H. now rewrite <- gotos_marks, H.
Qed.

Lemma loads_quiet_bind {A B} (n : nat) (m : M A) (f : A -> M B) :
  quiet m -> (forall a, loads_at_most n (f a)) -> loads_at_most n (bind m f).
Proof.
  intros Hm Hf. apply (loads_bind 0 n); [now apply loads_quiet | exact Hf].
Qed.

Section BatchLoads.

Variable w : world.
Variable scrape : string -> string -> products -> nat -> M products.
Variable fuel cap : nat.

Hypothesis scrape_loads :
  forall url name existing, loads_at_most cap (scrape url name existing fuel).

Lemma crawl_categories_loads (existing_products : products) (cats : list string) :
  forall all_new_products,
    loads_at_most (cap * List.length cats)
      (Orchestrator.crawl_categories w scrape fuel existing_products cats
         all_new_products).
Proof.
  induction cats as [|url cats IH]; intros all_new;
    cbn [Orchestrator.crawl_categories List.length].
  - apply (loads_weaken 0); [lia|]. apply loads_quiet, quiet_ret.
  - apply loads_quiet_bind; [apply quiet_gets|]. intros quit. destruct quit.
    { apply (loads_weaken 0); [lia|]. apply loads_quiet.
      apply quiet_bind; [now apply quiet_emit | intros _; apply quiet_ret]. }
    replace (cap * S (List.length cats)) with (cap + cap * List.length cats) by lia.
    apply loads_bind.
    + apply loads_try_except. apply loads_quiet_bind; [apply quiet_lift|].
      intros name. apply scrape_loads.
    + intros [new|e].
      * apply loads_quiet_bind.
        { apply quiet_try_except. apply quiet_bind; [|intros _; apply quiet_sleep].
          destruct (nonempty new); [|apply quiet_ret].
          apply quiet_bind; [apply quiet_save_products|]. intros _.
          now apply quiet_emit. }
        intros [u|e]; [apply IH|].
        apply loads_quiet_bind; [now apply quiet_emit | intros _; apply IH].
      * apply loads_quiet_bind; [now apply quiet_emit | intros _; apply IH].
Qed.

Lemma main_loads (categories : list string) :
  loads_at_most (cap * List.length categories)
    (Orchestrator.main w scrape categories fuel).
Proof.
  unfold Orchestrator.main.
  apply loads_quiet_bind; [apply quiet_load_existing_products|]. intros existing.
  apply loads_quiet_bind; [now apply quiet_emit|]. intros _.
  apply loads_quiet_bind; [now apply quiet_emit|]. intros _.
  apply loads_quiet_bind; [apply quiet_modify|]. intros _.
  apply loads_quiet_bind; [now apply quiet_emit|]. intros _.
  apply loads_quiet_bind; [apply quiet_fail_if|]. intros _.
  replace (cap * List.length categories)
    with ((cap * List.length categories + 0) + 0) by lia.
  apply loads_try_finally; [|apply loads_quiet; now apply quiet_emit].
  apply loads_quiet_bind; [now apply quiet_emit|]. intros _.
  apply loads_quiet_bind; [apply quiet_block|]. intros _.
  apply loads_quiet_bind; [apply quiet_fail_if|]. intros _.
  apply loads_quiet_bind; [now apply quiet_emit|]. intros _.
  apply loads_quiet_bind; [apply quiet_fail_if|]. intros _.
  apply loads_try_finally.
  - unfold Orchestrator.batch.
    apply loads_quiet_bind; [now apply quiet_emit|]. intros _.
    replace (cap * List.length categories)
      with (cap * List.length categories + 0) by lia.
    apply loads_bind; [apply crawl_categories_loads|]. intros all_new.
    apply loads_quiet.
    apply quiet_bind; [apply quiet_save_products|]. intros _.
    now apply quiet_emit.
  - apply loads_quiet.
    apply quiet_bind; [now apply quiet_emit | intros _; apply quiet_fail_if].
Qed.

End BatchLoads.

Lemma jumbo_crawl_loads (w : world) (url name : string) (existing : products)
    (fuel : nat) :
  Jumbo.max_pages < fuel ->
  loads_at_most Jumbo.max_pages
    (Jumbo.scrape_category_products w url name existing fuel).
Proof.
  intros Hfuel st. eapply runs_weaken; [apply (jumbo_crawl_runs w url name existing fuel st Hfuel)|].
  cbv beta. intros r st' evs (m & Hg & Hm & _).
  rewrite Hg, length_map, length_seq. lia.
Qed.

Lemma unimarc_crawl_loads (repr : value -> string)
    (int_of_str : string -> option Z) (w : world) (url name : string)
    (existing : products) (cap fuel : nat) :
  Unimarc.max_pages < fuel ->
  loads_at_most Unimarc.max_pages
    (Unimarc.scrape_category_products_playwright repr int_of_str w url name
       existing cap fuel).
Proof.
  intros Hfuel st.
  eapply runs_weaken;
    [apply (unimarc_crawl_runs repr int_of_str w url name existing cap fuel st Hfuel)|].
  cbv beta. intros r st' evs (m & Hg & Hm & _).
  rewrite Hg, length_map, length_seq. lia.
Qed.

(** X12.  The whole batch ends, whatever the sites, the disk and the
    operator do, and it has then loaded at most the page cap times the
    number of categories: at most 400 pages for [main] of the jumbo
    script (50 pages, 8 categories) and at most 90 for [main] of the
    unimarc script (10 pages, 9 categories). *)
Theorem batch_ends
    (repr : value -> string) (int_of_str : string -> option Z)
    (w : world) (categories : list string) (st : state) :
  (exists r st' evs,
     Orchestrator.main w (jumbo_crawler w) categories (S Jumbo.max_pages) st
       = Done r st' evs /\
     List.length (gotos evs) <= 50 * List.length categories) /\
  (exists r st' evs,
     Jumbo.main w (S Jumbo.max_pages) st = Done r st' evs /\
     List.length (gotos evs) <= 400) /\
  (exists r st' evs,
     Unimarc.main repr int_of_str w (S Unimarc.max_pages) st = Done r st' evs /\
     List.length (gotos evs) <= 90).
Proof.
  assert (Hj : forall cats,
    loads_at_most (Jumbo.max_pages * List.length cats)
      (Orchestrator.main w (jumbo_crawler w) cats (S Jumbo.max_pages))).
  { intros cats. apply main_loads. intros url name existing.
    apply jumbo_crawl_loads. lia. }
  split; [|split].
  - destruct (runs_done _ _ _ (Hj categories st)) as (r & st' & evs & Hrun & Hlen).
    exists r, st', evs. split; [exact Hrun | exact Hlen].
  - destruct (runs_done _ _ _ (Hj Jumbo.discover_food_categories st))
      as (r & st' & evs & Hrun & Hlen).
    exists r, st', evs. split; [exact Hrun | exact Hlen].
  - assert (Hu : loads_at_most
              (Unimarc.max_pages * List.length Unimarc.discover_food_categories)
              (Unimarc.main repr int_of_str w (S Unimarc.max_pages))).
    { unfold Unimarc.main. cbv zeta. apply main_loads. intros url name existing.
      apply unimarc_crawl_loads. lia. }
    destruct (runs_done _ _ _ (Hu st)) as (r & st' & evs & Hrun & Hlen).
    exists r, st', evs. split; [exact Hrun | exact Hlen].
Qed.

(** ** The quit flag *)

(** [keeps_quit m]: [m] never lowers the quit flag. *)
Definition keeps_quit {A} (m : M A) : Prop :=
  forall st,
    match m st with
    | Done _ st' _ => quit_flag st = true -> quit_flag st' = true
    | Diverge => True
    end.

Lemma keeps_bind {A B} (m : M A) (f : A -> M B) :
  keeps_quit m -> (forall a, keeps_quit (f a)) -> keeps_quit (bind m f).
Proof.
  intros Hm Hf st. unfold bind. specialize (Hm st).
  destruct (m st) as [|[a|e] st1 evs1]; auto.
  specialize (Hf a st1). destruct (f a st1) as [|r st2 evs2]; auto.
Qed.

Lemma keeps_ret {A} (a : A) : keeps_quit (ret a).
Proof. intros st H. exact H. Qed.

Lemma keeps_raise {A} (e : exn) : keeps_quit (@raise A e).
Proof. intros st H. exact H. Qed.

Lemma keeps_lift {A} (x : outcome A) : keeps_quit (lift x).
Proof. destruct x; [apply keeps_ret | apply keeps_raise]. Qed.

Lemma keeps_emit (e : event) : keeps_quit (emit e).
Proof. intros st H. exact H. Qed.

Lemma keeps_gets {A} (f : state -> A) : keeps_quit (gets f).
Proof. intros st H. exact H. Qed.

Lemma keeps_fail_if (e : option exn) : keeps_quit (fail_if e).
Proof. destruct e; [apply keeps_raise | apply keeps_ret]. Qed.

Lemma keeps_modify (f : state -> state) :
  (forall st, quit_flag (f st) = quit_flag st) -> keeps_quit (modify f).
Proof. intros Hf st H. simpl. now rewrite Hf. Qed.

Lemma keeps_try_except {A} (m : M A) : keeps_quit m -> keeps_quit (try_except m).
Proof.
  intros Hm st. unfold try_except. specialize (Hm st).
  destruct (m st) as [|[a|e] st1 evs1]; auto. now destruct (is_Exception e).
Qed.

Lemma keeps_try_finally {A} (m : M A) (fin : M unit) :
  keeps_quit m -> keeps_quit fin -> keeps_quit (try_finally m fin).
Proof.
  intros Hm Hf st. unfold try_finally. specialize (Hm st).
  destruct (m st) as [|r st1 evs1]; auto.
  specialize (Hf st1). destruct (fin st1) as [|[u|e] st2 evs2]; auto.
Qed.

Lemma keeps_caught {A} (e : exn) (handler : M A) :
  keeps_quit handler -> keeps_quit (caught e handler).
Proof.
  intros H. unfold caught. destruct (is_Exception e); [exact H | apply keeps_raise].
Qed.

Lemma keeps_while {L} (cond : L -> bool) (body : L -> M (ctl * L)) :
  (forall s, keeps_quit (body s)) ->
  forall fuel s, keeps_quit (while_loop fuel cond body s).
Proof.
  intros Hbody. induction fuel as [|fuel IH]; intros s; [intros st; exact I|].
  cbn [while_loop]. destruct (cond s); [|apply keeps_ret].
  apply keeps_bind; [apply Hbody|]. intros [[|] s']; [apply IH | apply keeps_ret].
Qed.

Lemma keeps_block (w : world) : keeps_quit (block w).
Proof.
  intros st. unfold block.
  pose proof (fold_monitor_moves (typed w (clock st)) (st, [])) as H.
  fold (monitor_keyboard (typed w (clock st)) st) in H.
  destruct (monitor_keyboard (typed w (clock st)) st) as [st1 out].
  destruct H as (_ & Hq & _). exact Hq.
Qed.

Lemma keeps_load_existing_products : keeps_quit load_existing_products.
Proof. intros st. rewrite load_existing_products_run. auto. Qed.

(** One step of a proof that a program keeps the quit flag. *)
Ltac keeps_step :=
  first
    [ apply keeps_ret | apply keeps_raise | apply keeps_lift | apply keeps_emit
    | apply keeps_gets | apply keeps_fail_if | apply keeps_block
    | apply keeps_load_existing_products
    | apply keeps_modify; intros ?; reflexivity
    | apply keeps_try_except | apply keeps_caught
    | apply keeps_bind; [|intros ?]
    | match goal with
      | |- keeps_quit (if ?b then _ else _) => destruct b
      | |- keeps_quit (match ?x with _ => _ end) => destruct x
      end ].

Lemma keeps_sleep (w : world) : keeps_quit (sleep w).
Proof. unfold sleep. repeat keeps_step. Qed.

Lemma keeps_save_products (w : world) (d : products) :
  keeps_quit (save_products w d).
Proof. unfold save_products. repeat keeps_step. Qed.

Lemma keeps_append_to_json (w : world) (n : nat) (d : products) :
  keeps_quit (append_to_json w n d).
Proof.
  unfold append_to_json.
  apply keeps_bind; [apply keeps_load_existing_products|]. intros c.
  apply keeps_bind; [apply keeps_save_products|]. intros _. apply keeps_emit.
Qed.

Lemma keeps_goto (w : world) (url : string) : keeps_quit (goto w url).
Proof. unfold goto. repeat keeps_step. Qed.

Lemma keeps_jumbo_scrape_page (w : world) (category_url category_name : string)
    (existing_products : products) (loc : nat * products) :
  keeps_quit (Jumbo.scrape_page w category_url category_name existing_products loc).
Proof.
  destruct loc as [p np]. unfold Jumbo.scrape_page.
  apply keeps_bind; [apply keeps_gets|]. intros skip. destruct skip.
  { repeat keeps_step. }
  apply keeps_bind.
  { apply keeps_try_except.
    apply keeps_bind; [apply keeps_emit|]. intros _.
    apply keeps_bind; [apply keeps_goto|]. intros pv. repeat keeps_step. }
  intros [[pv ps]|e].
  - destruct (Jumbo.filter_products _ _ _ _ _) as [[valid np'] [e|]].
    + unfold on_page_error. repeat keeps_step.
    + apply keeps_bind; [|intros [[|]|e]; unfold on_page_error; repeat keeps_step].
      apply keeps_try_except. unfold Jumbo.after_filter.
      apply keeps_bind; [apply keeps_emit|]. intros _.
      apply keeps_bind.
      { destruct (nonempty valid); [apply keeps_append_to_json | apply keeps_ret]. }
      intros _. apply keeps_bind; [apply keeps_lift|]. intros has_next.
      destruct (negb (nonempty valid) && (1 <? p)%nat); [repeat keeps_step|].
      apply keeps_bind.
      { destruct (negb (truthy has_next)); [|apply keeps_ret].
        unfold Jumbo.on_last_page. repeat keeps_step. }
      intros last. destruct last; [apply keeps_ret|].
      apply keeps_bind; [apply keeps_sleep | intros _; apply keeps_ret].
  - unfold on_page_error. repeat keeps_step.
Qed.

Lemma keeps_jumbo_crawl (w : world) (category_url category_name : string)
    (existing_products : products) (fuel : nat) :
  keeps_quit (Jumbo.scrape_category_products w category_url category_name
                existing_products fuel).
Proof.
  unfold Jumbo.scrape_category_products.
  apply keeps_bind; [apply keeps_emit|]. intros _.
  apply keeps_bind; [apply keeps_emit|]. intros _.
  apply keeps_bind; [|intros loc; apply keeps_ret].
  apply keeps_while. intros loc. apply keeps_jumbo_scrape_page.
Qed.

Lemma keeps_unimarc_scrape_page (repr : value -> string)
    (int_of_str : string -> option Z) (w : world)
    (category_url category_name : string) (existing_products : products)
    (cap : nat) (loc : nat * products) :
  keeps_quit (Unimarc.scrape_page repr int_of_str w category_url category_name
                existing_products cap loc).
Proof.
  destruct loc as [p np]. unfold Unimarc.scrape_page.
  apply keeps_bind; [apply keeps_gets|]. intros skip. destruct skip.
  { repeat keeps_step. }
  destruct (cap <=? List.length np)%nat; [repeat keeps_step|].
  apply keeps_bind.
  { apply keeps_try_except.
    apply keeps_bind; [apply keeps_emit|]. intros _.
    apply keeps_bind; [apply keeps_goto|]. intros pv. repeat keeps_step. }
  intros [ps|e].
  - destruct (Unimarc.filter_products _ _ _ _ _ _ _ _) as [[valid np'] [e|]].
    + unfold Unimarc.on_page_error. repeat keeps_step.
    + apply keeps_bind;
        [|intros [[|]|e]; unfold Unimarc.on_page_error; repeat keeps_step].
      apply keeps_try_except. unfold Unimarc.after_filter.
      apply keeps_bind; [apply keeps_emit|]. intros _.
      apply keeps_bind.
      { destruct (nonempty valid); [apply keeps_append_to_json | apply keeps_ret]. }
      intros _.
      destruct (negb (nonempty valid) && (1 <? p)%nat); [repeat keeps_step|].
      destruct (cap <=? List.length np')%nat; [repeat keeps_step|].
      apply keeps_bind; [apply keeps_sleep | intros _; apply keeps_ret].
  - unfold Unimarc.on_page_error. repeat keeps_step.
Qed.

Lemma keeps_unimarc_crawl (repr : value -> string)
    (int_of_str : string -> option Z) (w : world)
    (category_url category_name : string) (existing_products : products)
    (cap fuel : nat) :
  keeps_quit (Unimarc.scrape_category_products_playwright repr int_of_str w
                category_url category_name existing_products cap fuel).
Proof.
  unfold Unimarc.scrape_category_products_playwright.
  apply keeps_bind; [apply keeps_emit|]. intros _.
  apply keeps_bind; [apply keeps_emit|]. intros _.
  apply keeps_bind; [apply keeps_emit|]. intros _.
  apply keeps_bind; [|intros loc; apply keeps_ret].
  apply keeps_while. intros loc. apply keeps_unimarc_scrape_page.
Qed.

Section BatchQuit.

Variable w : world.
Variable scrape : string -> string -> products -> nat -> M products.
Variable fuel : nat.

Hypothesis scrape_keeps :
  forall url name existing, keeps_quit (scrape url name existing fuel).

Lemma keeps_after_category (existing_products all_new_products new_products : products) :
  keeps_quit
    (try_except (
       (if nonempty new_products then
          save_products w (dict_merge existing_products all_new_products) ;;
          print (CategoryComplete
                   (List.length (dict_merge existing_products all_new_products)))
        else ret tt) ;;
       sleep w)).
Proof.
  apply keeps_try_except. apply keeps_bind; [|intros _; apply keeps_sleep].
  destruct (nonempty new_products); [|apply keeps_ret].
  apply keeps_bind; [apply keeps_save_products | intros _; apply keeps_emit].
Qed.

Lemma keeps_crawl_categories (existing_products : products) (cats : list string) :
  forall all_new_products,
    keeps_quit (Orchestrator.crawl_categories w scrape fuel existing_products
                  cats all_new_products).
Proof.
  induction cats as [|url cats IH]; intros all_new;
    cbn [Orchestrator.crawl_categories]; [apply keeps_ret|].
  apply keeps_bind; [apply keeps_gets|]. intros quit. destruct quit.
  { apply keeps_bind; [apply keeps_emit | intros _; apply keeps_ret]. }
  apply keeps_bind.
  { apply keeps_try_except. apply keeps_bind; [apply keeps_lift|].
    intros name. apply scrape_keeps. }
  intros [new|e].
  - apply keeps_bind; [apply keeps_after_category|].
    intros [u|e]; [apply IH|].
    apply keeps_bind; [apply keeps_emit | intros _; apply IH].
  - apply keeps_bind; [apply keeps_emit | intros _; apply IH].
Qed.

Lemma keeps_main (categories : list string) :
  keeps_quit (Orchestrator.main w scrape categories fuel).
Proof.
  unfold Orchestrator.main.
  apply keeps_bind; [apply keeps_load_existing_products|]. intros existing.
  apply keeps_bind; [apply keeps_emit|]. intros _.
  apply keeps_bind; [apply keeps_emit|]. intros _.
  apply keeps_bind; [apply keeps_modify; intros ?; reflexivity|]. intros _.
  apply keeps_bind; [apply keeps_emit|]. intros _.
  apply keeps_bind; [apply keeps_fail_if|]. intros _.
  apply keeps_try_finally; [|apply keeps_emit].
  apply keeps_bind; [apply keeps_emit|]. intros _.
  apply keeps_bind; [apply keeps_block|]. intros _.
  apply keeps_bind; [apply keeps_fail_if|]. intros _.
  apply keeps_bind; [apply keeps_emit|]. intros _.
  apply keeps_bind; [apply keeps_fail_if|]. intros _.
  apply keeps_try_finally.
  - unfold Orchestrator.batch.
    apply keeps_bind; [apply keeps_emit|]. intros _.
    apply keeps_bind; [apply keeps_crawl_categories|]. intros all_new.
    apply keeps_bind; [apply keeps_save_products | intros _; apply keeps_emit].
  - apply keeps_bind; [apply keeps_emit | intros _; apply keeps_fail_if].
Qed.

End BatchQuit.

(** X13.  Nothing in either script lowers the quit flag: once it is
    set it is still set when a category crawl, the loop over the
    categories or [main] ends, whatever happens meanwhile. *)
Theorem quit_is_never_cleared :
  (forall w category_url category_name existing_products fuel st,
     match Jumbo.scrape_category_products w category_url category_name
             existing_products fuel st with
     | Done _ st' _ => quit_flag st = true -> quit_flag st' = true
     | Diverge => True
     end) /\
  (forall repr int_of_str w category_url category_name existing_products cap
          fuel st,
     match Unimarc.scrape_category_products_playwright repr int_of_str w
             category_url category_name existing_products cap fuel st with
     | Done _ st' _ => quit_flag st = true -> quit_flag st' = true
     | Diverge => True
     end) /\
  (forall w fuel st,
     match Jumbo.main w fuel st with
     | Done _ st' _ => quit_flag st = true -> quit_flag st' = true
     | Diverge => True
     end) /\
  (forall repr int_of_str w fuel st,
     match Unimarc.main repr int_of_str w fuel st with
     | Done _ st' _ => quit_flag st = true -> quit_flag st' = true
     | Diverge => True
     end).
Proof.
  split; [|split; [|split]].
  - intros w url name ex fuel. apply keeps_jumbo_crawl.
  - intros repr ios w url name ex cap fuel. apply keeps_unimarc_crawl.
  - intros w fuel. unfold Jumbo.main. apply keeps_main.
    intros url name ex. apply keeps_jumbo_crawl.
  - intros repr ios w fuel. unfold Unimarc.main. cbv zeta. apply keeps_main.
    intros url name ex. apply keeps_unimarc_crawl.
Qed.

(** The numbers of records of the writes attempted, in order. *)
Definition writes (evs : list event) : list nat :=
  flat_map (fun e => match e with Write n => [n] | _ => [] end) evs.

Lemma writes_app (a b : list event) : writes (a ++ b) = writes a ++ writes b.
Proof. apply flat_map_app. Qed.

Lemma monitor_keyboard_writes (input : list stdin_event) (st : state) :
  writes (snd (monitor_keyboard input st)) = [].
Proof.
  unfold monitor_keyboard.
  assert (H : forall acc, writes (snd acc) = [] ->
                writes (snd (fold_left monitor_step input acc)) = []).
  { induction input as [|ev input IH]; simpl; intros acc Hacc; [assumption|].
    apply IH. destruct acc as [s out]. unfold monitor_step. simpl in *.
    destruct (listening s); [|assumption].
    destruct ev as [l|]; [|assumption].
    destruct (lower (strip l) =? "s");
      [simpl; now rewrite writes_app, Hacc|].
    destruct (lower (strip l) =? "q");
      [simpl; now rewrite writes_app, Hacc|assumption]. }
  now apply H.
Qed.

Lemma crawl_categories_quit (w : world)
    (scrape : string -> string -> products -> nat -> M products)
    (fuel : nat) (existing_products : products) (cats : list string)
    (all_new_products : products) (st : state) :
  quit_flag st = true ->
  Orchestrator.crawl_categories w scrape fuel existing_products cats
    all_new_products st =
  Done (Ok all_new_products) st
    (if nonempty cats then [Print QuitReceived] else []).
Proof.
  intros Hquit. destruct cats as [|url cats]; [reflexivity|].
  cbn [Orchestrator.crawl_categories nonempty]. unfold bind, gets.
  rewrite Hquit. reflexivity.
Qed.

(** X14.  A batch that starts with the quit flag set crawls no
    category: no page is loaded, whatever the crawler and the list of
    categories; the only write attempted is the final one, of the
    products that were loaded at the start; when that write succeeds the
    document holds exactly those products. *)
Theorem quit_before_batch
    (w : world) (scrape : string -> string -> products -> nat -> M products)
    (categories : list string) (fuel : nat) (existing_products : products)
    (st : state)
    (Hquit : quit_flag st = true) :
  exists r st' evs,
    Orchestrator.batch w scrape categories fuel existing_products st =
      Done r st' evs /\
    gotos evs = [] /\
    writes evs = [List.length existing_products] /\
    quit_flag st' = true /\
    (write w (clock st) = Written ->
     r = Ok tt /\ disk st' = dumped existing_products).
Proof.
  unfold Orchestrator.batch, bind at 1 2, print at 1, emit. 
  rewrite (crawl_categories_quit w scrape fuel existing_products categories []
             st Hquit).
  change (dict_merge existing_products []) with existing_products.
  unfold save_products, bind, block, emit, modify, print, raise, ret.
  pose proof (fold_monitor_moves (typed w (clock st)) (st, [])) as Hm.
  pose proof (monitor_keyboard_marks (typed w (clock st)) st) as Hmarks.
  pose proof (monitor_keyboard_writes (typed w (clock st)) st) as Hwrites.
  fold (monitor_keyboard (typed w (clock st)) st) in Hm.
  destruct (monitor_keyboard (typed w (clock st)) st) as [st1 out].
  destruct Hm as (_ & Hq & _). simpl in Hq, Hmarks, Hwrites.
  specialize (Hq Hquit).
  assert (Hg : gotos out = []) by now rewrite <- gotos_marks, Hmarks.
  unfold dict_values. rewrite length_map.
  destruct (write w (clock st)) eqn:Hw; cbn;
    eexists _, _, _; (split; [reflexivity|]);
    rewrite ?gotos_app, ?writes_app, ?Hg, ?Hwrites;
    destruct (nonempty categories); cbn;
    rewrite ?gotos_app, ?writes_app, ?Hg, ?Hwrites; cbn;
    (split; [reflexivity|]); (split; [reflexivity|]);
    (split; [exact Hq|]); intros H; try discriminate H; split; reflexivity.
Qed.

Definition st_quit : state :=
  {| skip_category_flag := true; quit_flag := true; listening := false;
     disk := Missing; clock := 0 |}.

Lemma quit_before_batch_witness :
  quit_flag st_quit = true /\
  exists r st' evs,
    Orchestrator.batch quiet_world (jumbo_crawler quiet_world)
      Jumbo.discover_food_categories 51 milk_store st_quit = Done r st' evs /\
    gotos evs = [] /\
    writes evs = [List.length milk_store] /\
    quit_flag st' = true /\
    (write quiet_world (clock st_quit) = Written ->
     r = Ok tt /\ disk st' = dumped milk_store).
Proof.
  split; [reflexivity|].
  apply (quit_before_batch quiet_world (jumbo_crawler quiet_world)
           Jumbo.discover_food_categories 51 milk_store st_quit).
  reflexivity.
Defined.

(** ** Quit during a category *)

Lemma quiet_after_category (w : world)
    (existing_products all_new_products new_products : products) :
  quiet
    (try_except (
       (if nonempty new_products then
          save_products w (dict_merge existing_products all_new_products) ;;
          print (CategoryComplete
                   (List.length (dict_merge existing_products all_new_products)))
        else ret tt) ;;
       sleep w)).
Proof.
  apply quiet_try_except. apply quiet_bind; [|intros _; apply quiet_sleep].
  destruct (nonempty new_products); [|apply quiet_ret].
  apply quiet_bind; [apply quiet_save_products|]. intros _. now apply quiet_emit.
Qed.

(** X15.  When the quit flag is set by the time the crawl of a category
    ends, the batch crawls no further category: the loop over the
    categories ends having loaded only the pages of that crawl, with the
    flag still set, and what it returns is what had been collected,
    updated with the products of that crawl if it returned any. *)
Theorem quit_ends_batch_after_category
    (w : world) (scrape : string -> string -> products -> nat -> M products)
    (fuel : nat) (existing_products : products)
    (category_url : string) (rest : list string) (all_new_products : products)
    (st : state) (category_name : string)
    (r : outcome products) (st1 : state) (evs1 : list event)
    (Hname : category_name_of category_url = Ok category_name)
    (Hstart : quit_flag st = false)
    (Hrun : scrape category_url category_name
              (dict_merge existing_products all_new_products) fuel st =
            Done r st1 evs1)
    (Hquit : quit_flag st1 = true) :
  exists r' st' evs',
    Orchestrator.crawl_categories w scrape fuel existing_products
      (category_url :: rest) all_new_products st = Done r' st' evs' /\
    gotos evs' = gotos evs1 /\
    quit_flag st' = true /\
    forall d, r' = Ok d ->
      d = match r with
          | Ok new_products => dict_update all_new_products new_products
          | Raise _ => all_new_products
          end.
Proof.
  cbn [Orchestrator.crawl_categories]. unfold bind at 1, gets. rewrite Hstart.
  unfold bind at 1, try_except at 1, bind at 1. rewrite Hname. cbn [lift ret].
  rewrite Hrun. cbn [app]. destruct r as [new|e].
  - set (all_new' := dict_update all_new_products new).
    pose proof (quiet_after_category w existing_products all_new' new st1) as Hq.
    pose proof (keeps_after_category w existing_products all_new' new st1) as Hk.
    unfold bind at 1. unfold runs in Hq.
    destruct (try_except _ st1) as [|[[u|e]|e] st2 evs2]; [contradiction| | |].
    + specialize (Hk Hquit).
      rewrite (crawl_categories_quit w scrape fuel existing_products rest
                 all_new' st2 Hk).
      eexists _, _, _. split; [reflexivity|].
      rewrite !gotos_app, <- (gotos_marks evs2), Hq.
      split; [destruct (nonempty rest); simpl; now rewrite app_nil_r|].
      split; [exact Hk|]. intros d H. now injection H as <-.
    + specialize (Hk Hquit). unfold bind at 1, print, emit.
      rewrite (crawl_categories_quit w scrape fuel existing_products rest
                 all_new' st2 Hk).
      eexists _, _, _. split; [reflexivity|].
      rewrite !gotos_app, <- (gotos_marks evs2), Hq.
      split; [destruct (nonempty rest); simpl; now rewrite app_nil_r|].
      split; [exact Hk|]. intros d H. now injection H as <-.
    + eexists _, _, _. split; [reflexivity|].
      rewrite !gotos_app, <- (gotos_marks evs2), Hq.
      split; [simpl; now rewrite app_nil_r|].
      split; [exact (Hk Hquit)|]. intros d H. discriminate H.
  - destruct (is_Exception e).
    + unfold bind at 1, print, emit.
      rewrite (crawl_categories_quit w scrape fuel existing_products rest
                 all_new_products st1 Hquit).
      eexists _, _, _. split; [reflexivity|].
      rewrite !gotos_app.
      split; [destruct (nonempty rest); simpl; now rewrite app_nil_r|].
      split; [exact Hquit|]. intros d H. now injection H as <-.
    + eexists _, _, _. split; [reflexivity|].
      split; [reflexivity|]. split; [exact Hquit|]. intros d H. discriminate H.
Qed.

(** A world whose operator types [q] while the first page loads. *)
Definition quitting_world : world :=
  {| typed := fun t => if (t =? 0)%nat then [Line "q"] else [];
     browse := fun _ _ => empty_view;
     write := fun _ => Written;
     start_error := None; launch_error := None;
     new_page_error := None; close_error := None |}.

Lemma quit_ends_batch_after_category_witness :
  category_name_of "https://www.jumbo.cl/despensa" = Ok "despensa" /\
  quit_flag st_listening = false /\
  exists r' st' evs',
    Orchestrator.crawl_categories quitting_world (jumbo_crawler quitting_world)
      51 [] ["https://www.jumbo.cl/despensa"; "https://www.jumbo.cl/carnes-y-pescados"]
      [] st_listening = Done r' st' evs' /\
    gotos evs' = [Jumbo.page_url "https://www.jumbo.cl/despensa" 1] /\
    quit_flag st' = true.
Proof.
  split; [reflexivity|]. split; [reflexivity|].
  destruct (jumbo_crawler quitting_world "https://www.jumbo.cl/despensa"
              "despensa" (dict_merge [] []) 51 st_listening)
    as [|r st1 evs1] eqn:Hrun; [vm_compute in Hrun; discriminate Hrun|].
  assert (Hfacts : quit_flag st1 = true /\
                   gotos evs1 = [Jumbo.page_url "https://www.jumbo.cl/despensa" 1]).
  { vm_compute in Hrun. injection Hrun as <- <- <-. split; reflexivity. }
  destruct Hfacts as [Hquit Hg].
  destruct (quit_ends_batch_after_category quitting_world
              (jumbo_crawler quitting_world) 51 []
              "https://www.jumbo.cl/despensa"
              ["https://www.jumbo.cl/carnes-y-pescados"] [] st_listening
              "despensa" r st1 evs1 eq_refl eq_refl Hrun Hquit)
    as (r' & st' & evs' & Hcrawl & Hgotos & Hq & _).
  exists r', st', evs'. split; [exact Hcrawl|]. split; [congruence | exact Hq].
Defined.

(** ** What the batch collects *)

Lemma returns_weaken {A} (m : M A) (P Q : A -> Prop) :
  returns m P -> (forall a, P a -> Q a) -> returns m Q.
Proof.
  intros Hm HPQ st. specialize (Hm st).
  destruct (m st) as [|[a|e] st1 evs1]; auto.
Qed.

Lemma returns_try_except {A} (m : M A) (P : A -> Prop) :
  returns m P ->
  returns (try_except m)
    (fun r => match r with Ok a => P a | Raise _ => True end).
Proof.
  intros Hm st. unfold try_except. specialize (Hm st).
  destruct (m st) as [|[a|e] st1 evs1]; auto. now destruct (is_Exception e).
Qed.

Lemma dict_update_mem_new (e d : products) (k : hkey) :
  In k (dict_keys e) -> dict_mem (dict_update d e) k = true.
Proof.
  revert d. induction e as [|[k0 v] e IH]; simpl; intros d Hin; [contradiction|].
  destruct Hin as [->|Hin].
  - change (dict_mem (dict_update (dict_set d k v) e) k = true).
    apply dict_update_mem. rewrite dict_mem_keys, dict_keys_set.
    destruct (dict_mem d k) eqn:E; [now apply dict_mem_keys|].
    apply in_or_app. right. now left.
  - apply (IH (dict_set d k0 v) Hin).
Qed.

Lemma dict_update_fresh (e d : products) :
  NoDup (dict_keys e) ->
  (forall k, In k (dict_keys e) -> dict_mem d k = false) ->
  dict_update d e = d ++ e.
Proof.
  revert d. induction e as [|[k v] e IH]; simpl; intros d Hnd Hfresh.
  - now rewrite app_nil_r.
  - inversion Hnd as [|? ? Hnin Hnd']; subst.
    change (dict_update (dict_set d k v) e = d ++ (k, v) :: e).
    rewrite dict_set_fresh by (apply Hfresh; now left).
    rewrite IH; [now rewrite <- app_assoc | assumption |].
    intros k' Hin. apply dict_mem_false_keys. rewrite dict_keys_app. simpl.
    intros H. apply in_app_or in H. destruct H as [H|[H|[]]].
    + apply dict_mem_keys in H. rewrite Hfresh in H by (now right). discriminate.
    + subst. contradiction.
Qed.

(** The keys of [d] are pairwise different and none is a key of [known]. *)
Definition all_new (known d : products) : Prop :=
  NoDup (dict_keys d) /\
  forall k, In k (dict_keys d) -> dict_mem known k = false.

Lemma crawl_inv_all_new (good : obj -> Prop) (known d : products) :
  crawl_inv good known d -> all_new known d.
Proof.
  intros [Hnd Hall]. split; [exact Hnd|]. intros k Hin.
  apply in_map_iff in Hin. destruct Hin as ([k' r] & <- & Hin).
  now destruct (Hall k' r Hin).
Qed.

Lemma all_new_update (existing_products acc new_products : products) :
  all_new existing_products acc ->
  all_new (dict_merge existing_products acc) new_products ->
  dict_update acc new_products = acc ++ new_products /\
  all_new existing_products (dict_update acc new_products).
Proof.
  intros [Hnd Hfresh] [Hnd' Hfresh'].
  assert (Hacc : forall k, In k (dict_keys new_products) -> dict_mem acc k = false).
  { intros k Hin. destruct (dict_mem acc k) eqn:E; [|reflexivity].
    apply dict_mem_keys in E. specialize (Hfresh' k Hin).
    unfold dict_merge in Hfresh'.
    now rewrite (dict_update_mem_new acc existing_products k E) in Hfresh'. }
  assert (Hex : forall k, In k (dict_keys new_products) ->
                          dict_mem existing_products k = false).
  { intros k Hin. destruct (dict_mem existing_products k) eqn:E; [|reflexivity].
    specialize (Hfresh' k Hin). unfold dict_merge in Hfresh'.
    now rewrite (dict_update_mem acc existing_products k E) in Hfresh'. }
  rewrite (dict_update_fresh new_products acc Hnd' Hacc).
  split; [reflexivity|]. split.
  - rewrite dict_keys_app. apply NoDup_app; [assumption | assumption |].
    intros k Hin Hin'. specialize (Hacc k Hin').
    apply dict_mem_false_keys in Hacc. contradiction.
  - intros k Hin. rewrite dict_keys_app in Hin. apply in_app_or in Hin.
    destruct Hin as [Hin|Hin]; auto.
Qed.

Section BatchResult.

Variable w : world.
Variable scrape : string -> string -> products -> nat -> M products.
Variable fuel : nat.
Variable existing_products : products.

Hypothesis scrape_new :
  forall url name known, returns (scrape url name known fuel) (all_new known).

Lemma crawl_categories_all_new (cats : list string) :
  forall acc,
    all_new existing_products acc ->
    returns (Orchestrator.crawl_categories w scrape fuel existing_products cats acc)
      (all_new existing_products).
Proof.
  induction cats as [|url cats IH]; intros acc Hacc;
    cbn [Orchestrator.crawl_categories]; [now apply returns_ret|].
  apply returns_bind. intros quit. destruct quit.
  { apply returns_bind. intros _. now apply returns_ret. }
  apply (returns_bind_with _ _
           (fun r => match r with
                     | Ok d => all_new (dict_merge existing_products acc) d
                     | Raise _ => True
                     end)).
  { apply returns_try_except. apply returns_bind. intros name. apply scrape_new. }
  intros [new|e] Hnew.
  - destruct (all_new_update existing_products acc new Hacc Hnew) as [_ Hacc'].
    apply returns_bind. intros [u|e]; [now apply IH|].
    apply returns_bind. intros _. now apply IH.
  - apply returns_bind. intros _. now apply IH.
Qed.

End BatchResult.

(** X16.  Across a whole batch no product is collected twice and no
    product that was loaded at the start is collected again: the loop
    over the categories ends, the keys of what it returns are pairwise
    different and none is a key of [existing_products]; so the final
    merge is the existing products, untouched and in their order,
    followed by the new ones.  In both scripts. *)
Theorem batch_collects_only_new_products
    (repr : value -> string) (int_of_str : string -> option Z)
    (w : world) (existing_products : products) (cats : list string)
    (st : state) :
  (exists r st' evs,
     Orchestrator.crawl_categories w (jumbo_crawler w) (S Jumbo.max_pages)
       existing_products cats [] st = Done r st' evs /\
     forall all_new_products, r = Ok all_new_products ->
       NoDup (dict_keys all_new_products) /\
       (forall k, In k (dict_keys all_new_products) ->
                  dict_mem existing_products k = false) /\
       dict_merge existing_products all_new_products =
         existing_products ++ all_new_products) /\
  (exists r st' evs,
     Orchestrator.crawl_categories w
       (fun url name existing =>
          Unimarc.scrape_category_products_playwright repr int_of_str w url
            name existing 300)
       (S Unimarc.max_pages) existing_products cats [] st = Done r st' evs /\
     forall all_new_products, r = Ok all_new_products ->
       NoDup (dict_keys all_new_products) /\
       (forall k, In k (dict_keys all_new_products) ->
                  dict_mem existing_products k = false) /\
       dict_merge existing_products all_new_products =
         existing_products ++ all_new_products).
Proof.
  assert (Hfinal : forall d, all_new existing_products d ->
            NoDup (dict_keys d) /\
            (forall k, In k (dict_keys d) -> dict_mem existing_products k = false) /\
            dict_merge existing_products d = existing_products ++ d).
  { intros d [Hnd Hfresh]. split; [exact Hnd|]. split; [exact Hfresh|].
    now apply dict_update_fresh. }
  assert (Hnil : all_new existing_products []).
  { split; [constructor | intros k []]. }
  split.
  - assert (Hends : loads_at_most (Jumbo.max_pages * List.length cats)
              (Orchestrator.crawl_categories w (jumbo_crawler w)
                 (S Jumbo.max_pages) existing_products cats [])).
    { apply crawl_categories_loads. intros url name known.
      apply jumbo_crawl_loads. lia. }
    destruct (runs_done _ _ _ (Hends st)) as (r & st' & evs & Hrun & _).
    exists r, st', evs. split; [exact Hrun|]. intros d ->. apply Hfinal.
    assert (Hret : returns
              (Orchestrator.crawl_categories w (jumbo_crawler w)
                 (S Jumbo.max_pages) existing_products cats [])
              (all_new existing_products)).
    { apply crawl_categories_all_new; [|exact Hnil]. intros url name known.
      eapply returns_weaken; [apply jumbo_crawl_inv|].
      intros d0. apply crawl_inv_all_new. }
    specialize (Hret st). rewrite Hrun in Hret. exact Hret.
  - set (scrape := fun url name existing =>
                     Unimarc.scrape_category_products_playwright repr int_of_str
                       w url name existing 300).
    assert (Hends : loads_at_most (Unimarc.max_pages * List.length cats)
              (Orchestrator.crawl_categories w scrape (S Unimarc.max_pages)
                 existing_products cats [])).
    { apply crawl_categories_loads. intros url name known.
      apply unimarc_crawl_loads. lia. }
    destruct (runs_done _ _ _ (Hends st)) as (r & st' & evs & Hrun & _).
    exists r, st', evs. split; [exact Hrun|]. intros d ->. apply Hfinal.
    assert (Hret : returns
              (Orchestrator.crawl_categories w scrape (S Unimarc.max_pages)
                 existing_products cats [])
              (all_new existing_products)).
    { apply crawl_categories_all_new; [|exact Hnil]. intros url name known.
      eapply returns_weaken; [apply unimarc_crawl_inv|].
      intros d0 [Hinv _]. eapply crawl_inv_all_new, Hinv. }
    specialize (Hret st). rewrite Hrun in Hret. exact Hret.
Qed.

(** ** What a run leaves in the document *)








